(** * KDT Aso core: sensors, standing orders and alerts

    A shallow embedding of the event -> trigger -> order -> alert pipeline
    ([core/standing-orders.js], [core/alerts.js], [core/sensors.js]), of the
    handlers that connect the three components ([core/languages.js]) and of
    the operator profiles, with the properties of it that the specification
    states and further properties read off the code.

    Conventions of the embedding:
    - a JavaScript [Map] whose iteration order is observable (the live
      alerts) is an association list in insertion order; maps that are only
      looked up ([sensors], [dataBuffer], [geofences], the watchlists, the
      timer handles) are [gmap]s;
    - [EventEmitter.emit] appends to an [emitted] trace carried by the state
      (listeners belong to the orchestration layer and do not call back into
      the emitting component); the module [Server] runs the listeners on the
      events of a call;
    - timeouts and intervals are entries of a table of the run-time, keyed
      by their handle; their firing is a call of its own;
    - [new Date()] and [uuidv4()] are inputs of the operations that call
      them ([now], [uuid]); the clock reads of one operation see the same
      instant;
    - an optional object field is an [option]; JavaScript truthiness of a
      string is "present and not empty". *)

From Stdlib Require Import ZArith QArith Qabs Lia List Sorted Permutation Ascii.
From stdpp Require Import base tactics option list gmap strings pretty.

Close Scope Q_scope.
Local Open Scope Z_scope.

(** ** Part I: the embedding *)

(** *** JavaScript string primitives used by the core *)

Module JsString.

(** Strings are sequences of 8-bit characters; [toLowerCase] is modelled on
    the ASCII letters, which is where it acts on such strings. *)
Definition is_upper (c : ascii) : bool :=
  let n := nat_of_ascii c in (65 <=? n)%nat && (n <=? 90)%nat.

Definition lower_char (c : ascii) : ascii :=
  if is_upper c then ascii_of_nat (nat_of_ascii c + 32) else c.

Fixpoint toLowerCase (s : string) : string :=
  match s with
  | EmptyString => EmptyString
  | String c s' => String (lower_char c) (toLowerCase s')
  end.

(** [s.startsWith(p)] *)
Fixpoint startsWith (p s : string) : bool :=
  match p, s with
  | EmptyString, _ => true
  | String _ _, EmptyString => false
  | String a p', String b s' => if decide (a = b) then startsWith p' s' else false
  end.

(** [s.includes(t)]: [t] occurs in [s] as a contiguous substring. *)
Fixpoint includes (s t : string) : bool :=
  startsWith t s ||
  match s with
  | EmptyString => false
  | String _ s' => includes s' t
  end.

(** [l.join(sep)] *)
Fixpoint join (sep : string) (l : list string) : string :=
  match l with
  | [] => ""
  | [x] => x
  | x :: rest => x +:+ sep +:+ join sep rest
  end.

Definition snoc (s : string) (c : ascii) : string := s +:+ String c "".

(** [s.split(sep)] for a string separator: left to right, occurrences do
    not overlap.  [skip] counts the characters of a separator occurrence
    still to be dropped, [cur] is the piece being read. *)
Fixpoint split_go (sep : string) (skip : nat) (cur : string) (s : string)
  : list string :=
  match s with
  | EmptyString => [cur]
  | String c s' =>
      match skip with
      | S k => split_go sep k cur s'
      | O =>
          if startsWith sep s
          then cur :: split_go sep (String.length sep - 1) "" s'
          else split_go sep O (snoc cur c) s'
      end
  end.

Fixpoint chars (s : string) : list string :=
  match s with
  | EmptyString => []
  | String c s' => String c "" :: chars s'
  end.

Definition split (sep s : string) : list string :=
  match sep with
  | EmptyString => chars s
  | _ => split_go sep O "" s
  end.

(** White space removed by [trim] (tab, line feed, vertical tab, form
    feed, carriage return, space). *)
Definition is_space (c : ascii) : bool :=
  let n := nat_of_ascii c in ((9 <=? n)%nat && (n <=? 13)%nat) || (n =? 32)%nat.

Fixpoint trimStart (s : string) : string :=
  match s with
  | EmptyString => EmptyString
  | String c s' => if is_space c then trimStart s' else s
  end.

Fixpoint trimEnd (s : string) : string :=
  match s with
  | EmptyString => EmptyString
  | String c s' =>
      match trimEnd s' with
      | EmptyString => if is_space c then EmptyString else String c EmptyString
      | t => String c t
      end
  end.

Definition trim (s : string) : string := trimEnd (trimStart s).

(** Truthiness of a string value that may be absent. *)
Definition truthy (s : option string) : bool :=
  match s with
  | Some (String _ _) => true
  | _ => false
  end.

End JsString.

(** *** core/standing-orders.js *)

Module StandingOrders.
Import JsString.

(** Opaque values handed through untouched (trigger context, action
    descriptors) are carried as text. *)
Definition payload := string.

Record escalation_policy := {
  always_notify : bool;
  threshold : option string;
  priority : option string
}.

(** An order definition of the configuration; [own_id] and [own_name]
    are its own [id] and [name] properties, when it has them. *)
Record order := {
  trigger : string;
  authority_level : Z;
  actions : list payload;
  escalation : option escalation_policy;
  own_id : option string;
  own_name : option string
}.

(** An agent response; [requiresEscalation] reads its [response] text. *)
Record agent_response := {
  agent : string;
  response : string
}.

Record log_entry := {
  log_orderId : string;
  log_action : string;
  log_details : payload;
  log_timestamp : Z
}.

(** [emit('trigger', { id: orderId, name: orderId, ...order }, context)]:
    the spread lets the definition's own [id] and [name] win. *)
Record fired := {
  fired_id : string;
  fired_name : string;
  fired_order : order;
  fired_context : payload
}.

(** [orders] lists the configured orders as [Object.entries(this.orders)]
    enumerates them: for order names, the order of the configuration. *)
Record state := {
  orders : list (string * order);
  logs : list log_entry;
  emitted : list fired
}.

(** [l.slice(-n)] *)
Definition slice_last {A} (n : nat) (l : list A) : list A :=
  drop (length l - n)%nat l.

(** [log(orderId, action, details)] *)
Definition log (orderId action : string) (details : payload) (now : Z)
    (s : state) : state :=
  let entry := {| log_orderId := orderId; log_action := action;
                  log_details := details; log_timestamp := now |} in
  let pushed := logs s ++ [entry] in
  {| orders := orders s;
     logs := if (1000 <? length pushed)%nat then slice_last 1000 pushed else pushed;
     emitted := emitted s |}.

Definition emit (e : fired) (s : state) : state :=
  {| orders := orders s; logs := logs s; emitted := emitted s ++ [e] |}.

(** The loop of [checkTrigger] over the remaining entries. *)
Fixpoint checkTrigger_loop (entries : list (string * order))
    (triggerName : string) (context : payload) (now : Z) (s : state)
  : bool * state :=
  match entries with
  | [] => (false, s)
  | (orderId, o) :: rest =>
      if decide (trigger o = triggerName) then
        let s1 := log orderId "triggered" context now s in
        let s2 := emit {| fired_id := default orderId (own_id o);
                          fired_name := default orderId (own_name o);
                          fired_order := o; fired_context := context |} s1 in
        (true, s2)
      else checkTrigger_loop rest triggerName context now s
  end.

Definition checkTrigger (triggerName : string) (context : payload) (now : Z)
    (s : state) : bool * state :=
  checkTrigger_loop (orders s) triggerName context now s.

(** [requiresEscalation(order, responses)] *)
Definition requiresEscalation (o : order) (responses : list agent_response)
  : bool :=
  match escalation o with
  | None => false
  | Some e =>
      if always_notify e then true
      else if truthy (threshold e) then
        let responseText := toLowerCase (join " " (map response responses)) in
        let thresholdTerms :=
          split " OR " (toLowerCase (default "" (threshold e))) in
        existsb (fun term => includes responseText (trim term)) thresholdTerms
      else false
  end.

(** The rule in the words of the specification: the threshold expression
    is cut at its "OR" separators, and a term matches when it occurs in the
    concatenated response text, letter case ignored. *)
Definition requiresEscalation_spec (o : order)
    (responses : list agent_response) : bool :=
  match escalation o with
  | None => false
  | Some e =>
      always_notify e ||
      (truthy (threshold e) &&
       existsb
         (fun term =>
            includes (toLowerCase (join " " (map response responses)))
                     (toLowerCase (trim term)))
         (split " OR " (default "" (threshold e))))
  end.

(** Example data. *)

Definition hostile_order : order :=
  {| trigger := "movement_detected_perimeter";
     authority_level := 3;
     actions := [];
     escalation := Some {| always_notify := false;
                           threshold := Some "casualties OR hostile";
                           priority := None |};
     own_id := None;
     own_name := None |}.

Definition hostile_responses : list agent_response :=
  [{| agent := "surveillance_officer";
      response := "Hostile contact reported at the north gate" |}].

Definition two_orders : state :=
  {| orders :=
       [("night_watch",
         {| trigger := "time == 2200"; authority_level := 2; actions := [];
            escalation := None; own_id := None; own_name := None |});
        ("perimeter_a",
         {| trigger := "movement_detected_perimeter"; authority_level := 3;
            actions := ["surveillance_officer: review feed"];
            escalation := None; own_id := None; own_name := None |});
        ("perimeter_b",
         {| trigger := "movement_detected_perimeter"; authority_level := 4;
            actions := []; escalation := None; own_id := None;
            own_name := None |})];
     logs := [];
     emitted := [] |}.

(** [lacks c s]: the character [c] does not occur in [s]. *)
Fixpoint lacks (c : ascii) (s : string) : Prop :=
  match s with
  | EmptyString => True
  | String a s' => a ≠ c ∧ lacks c s'
  end.


(** **** Logs, escalations and time-based monitors *)



(** [x || fallback] on a string that may be absent. *)
Definition or_else (x : option string) (fallback : string) : string :=
  if truthy x then default fallback x else fallback.

(** The object made by [escalate] and emitted as [escalation]. *)
Record escalation_event := {
  esc_orderId : string;
  esc_orderName : string;
  esc_priority : string;
  esc_reason : string;
  esc_responses : list agent_response;
  esc_timestamp : Z;
  esc_requiresAcknowledgment : bool
}.

(** The closure of a [setInterval] callback of [startTimeBasedMonitor]:
    the trigger of the order it was started for, and [targetTime]. *)
Record monitor := {
  mon_trigger : string;
  mon_target : string
}.

(** The engine with its monitors: [activeMonitors] maps an order id to
    the handle of its interval, [intervals] is the run-time's set of live
    intervals and [next_interval] its handle supply; [escalations] lists
    the [escalation] events emitted so far. *)
Record engine := {
  core : state;
  escalations : list escalation_event;
  activeMonitors : gmap string nat;
  intervals : gmap nat monitor;
  next_interval : nat
}.

Definition set_core (s : state) (e : engine) : engine :=
  {| core := s; escalations := escalations e;
     activeMonitors := activeMonitors e; intervals := intervals e;
     next_interval := next_interval e |}.

(** An engine as the constructor leaves it, for a configuration. *)
Definition start_engine (config : list (string * order)) : engine :=
  {| core := {| orders := config; logs := []; emitted := [] |};
     escalations := []; activeMonitors := ∅; intervals := ∅;
     next_interval := O |}.

(** [escalate(order, responses)], on the object that the [trigger] event
    carries.  [as_payload] is the escalation object as the log keeps it;
    [now] and [logged] are the two readings of the clock. *)
Definition escalate (as_payload : escalation_event → payload) (f : fired)
    (responses : list agent_response) (now logged : Z) (e : engine)
  : escalation_event * engine :=
  let o := fired_order f in
  let esc :=
    {| esc_orderId := fired_id f;
       esc_orderName := fired_name f;
       esc_priority := or_else (escalation o ≫= priority) "high";
       esc_reason := or_else (escalation o ≫= threshold)
                       "Standing order escalation";
       esc_responses := responses;
       esc_timestamp := now;
       esc_requiresAcknowledgment := 4 <=? authority_level o |} in
  (esc,
   {| core := log (fired_id f) "escalated" (as_payload esc) logged (core e);
      escalations := escalations e ++ [esc];
      activeMonitors := activeMonitors e; intervals := intervals e;
      next_interval := next_interval e |}).




(** The regular expression [/time\s*==\s*(\d{4})/]: the captured digits
    of the leftmost match. *)
Definition is_digit (c : ascii) : bool :=
  let n := nat_of_ascii c in (48 <=? n)%nat && (n <=? 57)%nat.

Definition four_digits (s : string) : option string :=
  match s with
  | String a (String b (String c (String d _))) =>
      if is_digit a && is_digit b && is_digit c && is_digit d
      then Some (String a (String b (String c (String d EmptyString))))
      else None
  | _ => None
  end.

Fixpoint drop_chars (n : nat) (s : string) : string :=
  match n, s with
  | S k, String _ s' => drop_chars k s'
  | _, _ => s
  end.

(** A match that starts at the first character. *)
Definition time_match_here (s : string) : option string :=
  if startsWith "time" s then
    let rest := trimStart (drop_chars 4 s) in
    if startsWith "==" rest then four_digits (trimStart (drop_chars 2 rest))
    else None
  else None.

Fixpoint time_match (s : string) : option string :=
  match time_match_here s with
  | Some digits => Some digits
  | None =>
      match s with
      | EmptyString => None
      | String _ s' => time_match s'
      end
  end.

(** [this.orders[orderId]] finds a configured order, or a property that
    every object inherits. *)
Fixpoint find_order (orderId : string) (entries : list (string * order))
  : option order :=
  match entries with
  | [] => None
  | (k, o) :: rest => if decide (k = orderId) then Some o
                      else find_order orderId rest
  end.

Definition prototype_keys : list string :=
  ["constructor"; "hasOwnProperty"; "isPrototypeOf"; "propertyIsEnumerable";
   "toLocaleString"; "toString"; "valueOf"; "__proto__";
   "__defineGetter__"; "__defineSetter__"; "__lookupGetter__";
   "__lookupSetter__"].

Inductive outcome (A : Type) :=
| Done (a : A)
| Throws (msg : string).
Arguments Done {A} a.
Arguments Throws {A} msg.

(** [startTimeBasedMonitor(orderId, cronExpression)]; the second argument
    is not read.  On an inherited property [order.trigger] is undefined and
    [match] fails. *)
Definition startTimeBasedMonitor (orderId : string) (e : engine)
  : outcome engine :=
  match find_order orderId (orders (core e)) with
  | None =>
      if bool_decide (orderId ∈ prototype_keys)
      then Throws "TypeError: Cannot read properties of undefined (reading 'match')"
      else Done e
  | Some o =>
      match time_match (trigger o) with
      | Some targetTime =>
          let checkInterval := next_interval e in
          Done {| core := core e; escalations := escalations e;
                  activeMonitors := <[orderId := checkInterval]> (activeMonitors e);
                  intervals :=
                    <[checkInterval := {| mon_trigger := trigger o;
                                          mon_target := targetTime |}]>
                      (intervals e);
                  next_interval := S checkInterval |}
      | None => Done e
      end
  end.

(** [stopMonitor(orderId)]; an interval handle is an object, hence
    truthy. *)
Definition stopMonitor (orderId : string) (e : engine) : engine :=
  match activeMonitors e !! orderId with
  | Some monitor =>
      {| core := core e; escalations := escalations e;
         activeMonitors := delete orderId (activeMonitors e);
         intervals := delete monitor (intervals e);
         next_interval := next_interval e |}
  | None => e
  end.

(** The loop of [initializeMonitors] over the remaining entries. *)
Fixpoint initializeMonitors_loop (entries : list (string * order))
    (e : engine) : outcome engine :=
  match entries with
  | [] => Done e
  | (orderId, o) :: rest =>
      if includes (trigger o) "time ==" then
        match startTimeBasedMonitor orderId e with
        | Done e' => initializeMonitors_loop rest e'
        | Throws msg => Throws msg
        end
      else initializeMonitors_loop rest e
  end.

(** [initializeMonitors()] *)
Definition initializeMonitors (e : engine) : outcome engine :=
  initializeMonitors_loop (orders (core e)) e.

(** [n.toString().padStart(2, '0')] *)
Definition pad2 (n : nat) : string :=
  if (n <? 10)%nat then "0" +:+ pretty n else pretty n.

(** [currentTime] of the interval callback, from [getHours()] and
    [getMinutes()]. *)
Definition currentTime (hours minutes : nat) : string :=
  pad2 hours +:+ pad2 minutes.

(** [{ scheduledTime: targetTime }], as text. *)
Definition scheduled_context (targetTime : string) : payload :=
  "{ scheduledTime: " +:+ targetTime +:+ " }".

(** The callback of the live interval [h] runs, at the local time
    [hours]:[minutes]. *)
Definition interval_fires (h hours minutes : nat) (now : Z) (e : engine)
  : engine :=
  match intervals e !! h with
  | None => e
  | Some m =>
      if decide (currentTime hours minutes = mon_target m)
      then set_core (checkTrigger (mon_trigger m)
                       (scheduled_context (mon_target m)) now (core e)).2 e
      else e
  end.

(** The calls the engine receives, and the run-time's interval step. *)
Inductive engine_call :=
| CheckTrigger (triggerName : string) (context : payload) (now : Z)
| Escalate (f : fired) (responses : list agent_response) (now logged : Z)
| StartTimeBasedMonitor (orderId : string)
| StopMonitor (orderId : string)
| InitializeMonitors
| IntervalFires (h hours minutes : nat) (now : Z).

(** A call that throws leaves the engine as it was. *)
Definition engine_exec (as_payload : escalation_event → payload)
    (c : engine_call) (e : engine) : engine :=
  match c with
  | CheckTrigger t ctx now => set_core (checkTrigger t ctx now (core e)).2 e
  | Escalate f rs now logged => (escalate as_payload f rs now logged e).2
  | StartTimeBasedMonitor k =>
      match startTimeBasedMonitor k e with Done e' => e' | Throws _ => e end
  | StopMonitor k => stopMonitor k e
  | InitializeMonitors =>
      match initializeMonitors e with Done e' => e' | Throws _ => e end
  | IntervalFires h hh mm now => interval_fires h hh mm now e
  end.

Definition engine_run (as_payload : escalation_event → payload)
    (cs : list engine_call) (e : engine) : engine :=
  fold_left (fun e c => engine_exec as_payload c e) cs e.


(** The order that [checkTrigger] fires for a trigger name. *)
Definition first_with_trigger (triggerName : string)
    (entries : list (string * order)) : option (string * order) :=
  List.find (fun entry => bool_decide (trigger entry.2 = triggerName)) entries.

(** Every order-fired event and every "triggered" log entry is that of
    the first order with its trigger. *)
Definition fired_first (config : list (string * order)) (s : state) : Prop :=
  (∀ f, f ∈ emitted s →
     ∃ k, first_with_trigger (trigger (fired_order f)) config
            = Some (k, fired_order f) ∧
          fired_id f = default k (own_id (fired_order f))) ∧
  (∀ x, x ∈ logs s → log_action x = "triggered" →
     ∃ o, first_with_trigger (trigger o) config = Some (log_orderId x, o)).

(** The interval handles in use are below the supply, a registered
    handle is live, two orders never share a handle, and a live interval
    was started for a configured order. *)
Definition monitors_ok (e : engine) : Prop :=
  (∀ h, is_Some (intervals e !! h) → (h < next_interval e)%nat) ∧
  (∀ k h, activeMonitors e !! k = Some h → is_Some (intervals e !! h)) ∧
  (∀ k1 k2 h, activeMonitors e !! k1 = Some h →
              activeMonitors e !! k2 = Some h → k1 = k2) ∧
  (∀ h m, intervals e !! h = Some m →
          ∃ k o, (k, o) ∈ orders (core e) ∧ mon_trigger m = trigger o ∧
                 time_match (trigger o) = Some (mon_target m)).

(** The hour and minute that four digits denote, when they denote a time
    of day. *)
Definition digit_value (c : ascii) : nat := (nat_of_ascii c - 48)%nat.

Definition time_of_day (t : string) : option (nat * nat) :=
  match t with
  | String a (String b (String c (String d EmptyString))) =>
      let hours := (10 * digit_value a + digit_value b)%nat in
      let minutes := (10 * digit_value c + digit_value d)%nat in
      if is_digit a && is_digit b && is_digit c && is_digit d &&
         (hours <? 24)%nat && (minutes <? 60)%nat
      then Some (hours, minutes) else None
  | _ => None
  end.

(** Example data: a configuration with time triggers written in four
    ways. *)
Definition timed (t : string) : order :=
  {| trigger := t; authority_level := 2; actions := []; escalation := None;
     own_id := None; own_name := None |}.

Definition schedule : list (string * order) :=
  [("reveille", timed "time == 0600");
   ("patrol", timed "movement_detected_perimeter");
   ("noon", timed "time==1200");
   ("curfew", timed "time == 10pm");
   ("midnight", timed "time == 2460");
   ("reveille_backup", timed "time == 0600")].
End StandingOrders.
(** *** core/alerts.js *)

Module AlertSystem.
Import JsString.

Definition payload := string.

Inductive note_type :=
| TNote | TAcknowledgment | TResolution | TEscalation | TAssignment.

Record note := {
  note_kind : note_type;
  note_user : string;
  note_text : string;
  note_timestamp : Z
}.

(** Timestamps are instants in milliseconds; the source stores their ISO
    text ([toISOString]) and reads it back with [new Date]. *)
Record alert := {
  id : string;
  priority : string;
  priorityLevel : Z;
  category : string;
  title : option string;
  message : option string;
  source : string;
  data : payload;
  requiresAck : bool;
  acknowledged : bool;
  acknowledgedBy : option string;
  acknowledgedAt : option Z;
  resolved : bool;
  resolvedBy : option string;
  resolvedAt : option Z;
  assignedTo : option string;
  createdAt : Z;
  updatedAt : Z;
  escalationLevel : Z;
  notes : list note
}.

(** [this.priorities]: the level and the auto-escalation timeout (ms) of
    the five priorities (colour and sound are presentation only).  For any
    other key the source reads [undefined] for [.level] and [.timeout]. *)
Record priority_info := { level : Z; timeout : option Z }.

Definition priorities (p : string) : option priority_info :=
  if decide (p = "critical") then Some {| level := 5; timeout := None |}
  else if decide (p = "high") then Some {| level := 4; timeout := Some 300000 |}
  else if decide (p = "medium") then Some {| level := 3; timeout := Some 900000 |}
  else if decide (p = "low") then Some {| level := 2; timeout := Some 3600000 |}
  else if decide (p = "info") then Some {| level := 1; timeout := None |}
  else None.

(** [this.priorities[p]?.timeout], truthy exactly when it is a number. *)
Definition timeout_of (p : string) : option Z := priorities p ≫= timeout.

Definition maxHistory : nat := 1000.

(** A timeout armed with [setTimeout]: the alert whose escalation it
    runs, and its delay. *)
Record timer := { timer_alert : string; timer_delay : Z }.

(** [alerts] is the live [Map] in insertion order; [escalationTimers] maps
    an alert id to the handle of its timeout; [pending] is the run-time's
    set of armed timeouts and [next_handle] its handle supply. *)
Record state := {
  alerts : list (string * alert);
  history : list alert;
  escalationTimers : gmap string nat;
  pending : gmap nat timer;
  next_handle : nat;
  emitted : list (string * alert)
}.

Definition init : state :=
  {| alerts := []; history := []; escalationTimers := ∅; pending := ∅;
     next_handle := O; emitted := [] |}.

(** [Map.get], [Map.set] (an existing key keeps its place, a new key goes
    last) and [Map.delete]. *)
Fixpoint map_get {A} (k : string) (m : list (string * A)) : option A :=
  match m with
  | [] => None
  | (k', v) :: m' => if decide (k' = k) then Some v else map_get k m'
  end.

Fixpoint map_set {A} (k : string) (v : A) (m : list (string * A))
  : list (string * A) :=
  match m with
  | [] => [(k, v)]
  | (k', v') :: m' =>
      if decide (k' = k) then (k, v) :: m' else (k', v') :: map_set k v m'
  end.

Fixpoint map_delete {A} (k : string) (m : list (string * A))
  : list (string * A) :=
  match m with
  | [] => []
  | (k', v') :: m' =>
      if decide (k' = k) then m' else (k', v') :: map_delete k m'
  end.

Definition set_alerts (m : list (string * alert)) (s : state) : state :=
  {| alerts := m; history := history s;
     escalationTimers := escalationTimers s; pending := pending s;
     next_handle := next_handle s; emitted := emitted s |}.

Definition set_history (h : list alert) (s : state) : state :=
  {| alerts := alerts s; history := h;
     escalationTimers := escalationTimers s; pending := pending s;
     next_handle := next_handle s; emitted := emitted s |}.

Definition emit (event : string) (a : alert) (s : state) : state :=
  {| alerts := alerts s; history := history s;
     escalationTimers := escalationTimers s; pending := pending s;
     next_handle := next_handle s; emitted := emitted s ++ [(event, a)] |}.

(** [clearEscalation(alertId)] *)
Definition clearEscalation (alertId : string) (s : state) : state :=
  match escalationTimers s !! alertId with
  | Some h =>
      {| alerts := alerts s; history := history s;
         escalationTimers := delete alertId (escalationTimers s);
         pending := delete h (pending s);
         next_handle := next_handle s; emitted := emitted s |}
  | None => s
  end.

(** [setupEscalation(alert)] *)
Definition setupEscalation (a : alert) (s : state) : state :=
  let s1 := clearEscalation (id a) s in
  match timeout_of (priority a) with
  | Some t =>
      if negb (acknowledged a) then
        let h := next_handle s1 in
        {| alerts := alerts s1; history := history s1;
           escalationTimers := <[id a := h]> (escalationTimers s1);
           pending := <[h := {| timer_alert := id a; timer_delay := t |}]> (pending s1);
           next_handle := S h; emitted := emitted s1 |}
      else s1
  | None => s1
  end.

(** The argument of [create]; an absent field takes its default. *)
Record options := {
  opt_priority : option string;
  opt_category : option string;
  opt_title : option string;
  opt_message : option string;
  opt_source : option string;
  opt_data : option payload;
  opt_requiresAck : option bool;
  opt_autoEscalate : option bool;
  opt_assignedTo : option string
}.

(** The object literal of [create]. *)
Definition new_alert (o : options) (uuid : string) (now : Z) : alert :=
  let priority := default "medium" (opt_priority o) in
  {| id := uuid;
     priority := priority;
     priorityLevel := default 3 (level <$> priorities priority);
     category := default "operational" (opt_category o);
     title := opt_title o;
     message := opt_message o;
     source := default "system" (opt_source o);
     data := default "{}" (opt_data o);
     requiresAck := default false (opt_requiresAck o);
     acknowledged := false;
     acknowledgedBy := None;
     acknowledgedAt := None;
     resolved := false;
     resolvedBy := None;
     resolvedAt := None;
     assignedTo := opt_assignedTo o;
     createdAt := now;
     updatedAt := now;
     escalationLevel := 0;
     notes := [] |}.

(** [create(options)] *)
Definition create (o : options) (uuid : string) (now : Z) (s : state)
  : alert * state :=
  let priority := default "medium" (opt_priority o) in
  let autoEscalate := default true (opt_autoEscalate o) in
  let a := new_alert o uuid now in
  let s1 := set_alerts (map_set uuid a (alerts s)) s in
  let s2 := if autoEscalate && bool_decide (is_Some (timeout_of priority))
            then setupEscalation a s1 else s1 in
  (a, emit "alert" a (emit "alert:created" a s2)).

(** [get(alertId)] *)
Definition get (alertId : string) (s : state) : option alert :=
  map_get alertId (alerts s).

(** [Array.prototype.sort] with a comparator: the stable sort, here by
    insertion ([x] goes after [y] when [cmp x y > 0]). *)
Fixpoint sort_insert {A} (cmp : A → A → Z) (x : A) (l : list A) : list A :=
  match l with
  | [] => [x]
  | y :: l' => if 0 <? cmp x y then y :: sort_insert cmp x l' else x :: l
  end.

Fixpoint js_sort {A} (cmp : A → A → Z) (l : list A) : list A :=
  match l with
  | [] => []
  | x :: l' => sort_insert cmp x (js_sort cmp l')
  end.

Record filters := {
  f_priority : option string;
  f_category : option string;
  f_unacknowledged : bool
}.

Definition no_filters : filters :=
  {| f_priority := None; f_category := None; f_unacknowledged := false |}.

(** The comparator of [getActive]. *)
Definition compare_active (a b : alert) : Z :=
  if decide (priorityLevel b ≠ priorityLevel a)
  then priorityLevel b - priorityLevel a
  else createdAt b - createdAt a.

(** What the three optional filters of [getActive] keep. *)
Definition passes (f : filters) (a : alert) : bool :=
  (if truthy (f_priority f)
   then bool_decide (Some (priority a) = f_priority f) else true) &&
  (if truthy (f_category f)
   then bool_decide (Some (category a) = f_category f) else true) &&
  (if f_unacknowledged f then negb (acknowledged a) else true).

(** [getActive(filters)] *)
Definition getActive (f : filters) (s : state) : list alert :=
  let alerts0 := List.filter (fun a => negb (resolved a)) (map snd (alerts s)) in
  let alerts1 :=
    if truthy (f_priority f)
    then List.filter (fun a => bool_decide (Some (priority a) = f_priority f)) alerts0
    else alerts0 in
  let alerts2 :=
    if truthy (f_category f)
    then List.filter (fun a => bool_decide (Some (category a) = f_category f)) alerts1
    else alerts1 in
  let alerts3 :=
    if f_unacknowledged f
    then List.filter (fun a => negb (acknowledged a)) alerts2
    else alerts2 in
  js_sort compare_active alerts3.

Definition push_note (k : note_type) (user text : string) (now : Z)
    (l : list note) : list note :=
  l ++ [{| note_kind := k; note_user := user; note_text := text;
           note_timestamp := now |}].

(** The field updates of [acknowledge]. *)
Definition mark_acknowledged (userId : string) (note : option string)
    (now : Z) (a : alert) : alert :=
  {| id := id a; priority := priority a; priorityLevel := priorityLevel a;
     category := category a; title := title a; message := message a;
     source := source a; data := data a; requiresAck := requiresAck a;
     acknowledged := true;
     acknowledgedBy := Some userId;
     acknowledgedAt := Some now;
     resolved := resolved a; resolvedBy := resolvedBy a;
     resolvedAt := resolvedAt a; assignedTo := assignedTo a;
     createdAt := createdAt a;
     updatedAt := now;
     escalationLevel := escalationLevel a;
     notes := if truthy note
              then push_note TAcknowledgment userId (default "" note) now (notes a)
              else notes a |}.

(** [acknowledge(alertId, userId, note)] *)
Definition acknowledge (alertId userId : string) (note : option string)
    (now : Z) (s : state) : option alert * state :=
  match map_get alertId (alerts s) with
  | None => (None, s)
  | Some a =>
      let a' := mark_acknowledged userId note now a in
      let s1 := set_alerts (map_set alertId a' (alerts s)) s in
      let s2 := clearEscalation alertId s1 in
      (Some a', emit "alert:acknowledged" a' s2)
  end.

(** The field updates of [resolve]. *)
Definition mark_resolved (userId : string) (resolution : option string)
    (now : Z) (a : alert) : alert :=
  {| id := id a; priority := priority a; priorityLevel := priorityLevel a;
     category := category a; title := title a; message := message a;
     source := source a; data := data a; requiresAck := requiresAck a;
     acknowledged := acknowledged a; acknowledgedBy := acknowledgedBy a;
     acknowledgedAt := acknowledgedAt a;
     resolved := true;
     resolvedBy := Some userId;
     resolvedAt := Some now;
     assignedTo := assignedTo a;
     createdAt := createdAt a;
     updatedAt := now;
     escalationLevel := escalationLevel a;
     notes := if truthy resolution
              then push_note TResolution userId (default "" resolution) now (notes a)
              else notes a |}.

(** [addToHistory(alert)] *)
Definition addToHistory (a : alert) (s : state) : state :=
  let h := a :: history s in
  set_history (if (maxHistory <? length h)%nat then take maxHistory h else h) s.

(** [resolve(alertId, userId, resolution)] *)
Definition resolve (alertId userId : string) (resolution : option string)
    (now : Z) (s : state) : option alert * state :=
  match map_get alertId (alerts s) with
  | None => (None, s)
  | Some a =>
      let a' := mark_resolved userId resolution now a in
      let s1 := set_alerts (map_set alertId a' (alerts s)) s in
      let s2 := clearEscalation alertId s1 in
      let s3 := addToHistory a' s2 in
      let s4 := set_alerts (map_delete alertId (alerts s3)) s3 in
      (Some a', emit "alert:resolved" a' s4)
  end.

(** The local array [priorities] of [escalate] and [Array.indexOf]. *)
Definition escalation_order : list string :=
  ["info"; "low"; "medium"; "high"; "critical"].

Fixpoint indexOf_from (i : Z) (x : string) (l : list string) : Z :=
  match l with
  | [] => -1
  | y :: l' => if decide (y = x) then i else indexOf_from (i + 1) x l'
  end.

Definition indexOf (x : string) (l : list string) : Z := indexOf_from 0 x l.

(** The field updates of [escalate]. *)
Definition raise_priority (newPriority : string) (newLevel : Z)
    (reason : string) (now : Z) (a : alert) : alert :=
  {| id := id a;
     priority := newPriority;
     priorityLevel := newLevel;
     category := category a; title := title a; message := message a;
     source := source a; data := data a; requiresAck := requiresAck a;
     acknowledged := acknowledged a; acknowledgedBy := acknowledgedBy a;
     acknowledgedAt := acknowledgedAt a;
     resolved := resolved a; resolvedBy := resolvedBy a;
     resolvedAt := resolvedAt a; assignedTo := assignedTo a;
     createdAt := createdAt a;
     updatedAt := now;
     escalationLevel := escalationLevel a + 1;
     notes := push_note TEscalation "system" reason now (notes a) |}.

(** [escalate(alertId, reason)]; the default reason is that of the
    timer.  [currentIndex + 1] is an index of [escalation_order] whenever
    the test passes, and its entry a key of [priorities], so the last
    branch of the inner match is never taken. *)
Definition escalate (alertId : string) (reason : option string) (now : Z)
    (s : state) : option alert * state :=
  match map_get alertId (alerts s) with
  | None => (None, s)
  | Some a =>
      let reason := default "Auto-escalation due to timeout" reason in
      let currentIndex := indexOf (priority a) escalation_order in
      if currentIndex <? Z.of_nat (length escalation_order) - 1 then
        match escalation_order !! Z.to_nat (currentIndex + 1) with
        | Some newPriority =>
            match priorities newPriority with
            | Some info =>
                let a' := raise_priority newPriority (level info) reason now a in
                let s1 := set_alerts (map_set alertId a' (alerts s)) s in
                let s2 := if bool_decide (is_Some (timeout_of newPriority))
                          then setupEscalation a' s1 else s1 in
                (Some a', emit "alert" a' (emit "alert:escalated" a' s2))
            | None => (Some a, s)
            end
        | None => (Some a, s)
        end
      else (Some a, s)
  end.

(** The field updates of [addNote] and of [assign]. *)
Definition annotate (k : note_type) (user text : string)
    (assignee : option string) (now : Z) (a : alert) : alert :=
  {| id := id a; priority := priority a; priorityLevel := priorityLevel a;
     category := category a; title := title a; message := message a;
     source := source a; data := data a; requiresAck := requiresAck a;
     acknowledged := acknowledged a; acknowledgedBy := acknowledgedBy a;
     acknowledgedAt := acknowledgedAt a;
     resolved := resolved a; resolvedBy := resolvedBy a;
     resolvedAt := resolvedAt a;
     assignedTo := assignee;
     createdAt := createdAt a;
     updatedAt := now;
     escalationLevel := escalationLevel a;
     notes := push_note k user text now (notes a) |}.

(** [addNote(alertId, userId, text)] *)
Definition addNote (alertId userId text : string) (now : Z) (s : state)
  : option alert * state :=
  match map_get alertId (alerts s) with
  | None => (None, s)
  | Some a =>
      let a' := annotate TNote userId text (assignedTo a) now a in
      let s1 := set_alerts (map_set alertId a' (alerts s)) s in
      (Some a', emit "alert:updated" a' s1)
  end.

(** [assign(alertId, assignee)] *)
Definition assign (alertId assignee : string) (now : Z) (s : state)
  : option alert * state :=
  match map_get alertId (alerts s) with
  | None => (None, s)
  | Some a =>
      let a' := annotate TAssignment "system" ("Assigned to " +:+ assignee)
                  (Some assignee) now a in
      let s1 := set_alerts (map_set alertId a' (alerts s)) s in
      (Some a', emit "alert:assigned" a' s1)
  end.



(** The callback of an armed timeout runs: the run-time drops the
    timeout and calls [this.escalate(alert.id)].  A handle that is not
    armed (never set, cleared, or already run) does nothing. *)
Definition timer_fires (h : nat) (now : Z) (s : state) : state :=
  match pending s !! h with
  | None => s
  | Some t =>
      let s1 := {| alerts := alerts s; history := history s;
                   escalationTimers := escalationTimers s;
                   pending := delete h (pending s);
                   next_handle := next_handle s; emitted := emitted s |} in
      (escalate (timer_alert t) None now s1).2
  end.

(** The calls the component receives, and the timer run-time's step. *)
Inductive call :=
| Create (o : options) (uuid : string) (now : Z)
| Acknowledge (alertId userId : string) (note : option string) (now : Z)
| Resolve (alertId userId : string) (resolution : option string) (now : Z)
| Escalate (alertId : string) (reason : option string) (now : Z)
| AddNote (alertId userId text : string) (now : Z)
| Assign (alertId assignee : string) (now : Z)
| TimerFires (h : nat) (now : Z).

Definition exec (c : call) (s : state) : state :=
  match c with
  | Create o uuid now => (create o uuid now s).2
  | Acknowledge i u n now => (acknowledge i u n now s).2
  | Resolve i u r now => (resolve i u r now s).2
  | Escalate i r now => (escalate i r now s).2
  | AddNote i u t now => (addNote i u t now s).2
  | Assign i u now => (assign i u now s).2
  | TimerFires h now => timer_fires h now s
  end.

Definition run (cs : list call) (s : state) : state :=
  fold_left (fun s c => exec c s) cs s.

(** The system with the identifiers [uuidv4] has handed out so far: it
    never returns one of them again. *)
Record world := { sys : state; issued : list string }.

Definition init_world : world := {| sys := init; issued := [] |}.

Definition is_api (c : call) : bool :=
  match c with
  | Create _ _ _ | TimerFires _ _ => false
  | _ => true
  end.

Inductive step : world → call → world → Prop :=
| step_create w o uuid now :
    uuid ∉ issued w →
    step w (Create o uuid now)
      {| sys := exec (Create o uuid now) (sys w); issued := uuid :: issued w |}
| step_api w c :
    is_api c = true →
    step w c {| sys := exec c (sys w); issued := issued w |}
| step_timer w h now t :
    pending (sys w) !! h = Some t →
    step w (TimerFires h now)
      {| sys := exec (TimerFires h now) (sys w); issued := issued w |}.

Inductive steps : world → list call → world → Prop :=
| steps_nil w : steps w [] w
| steps_cons w c w1 cs w2 : step w c w1 → steps w1 cs w2 → steps w (c :: cs) w2.

Definition reachable (w : world) : Prop := ∃ cs, steps init_world cs w.

Definition in_live (alertId : string) (s : state) : Prop :=
  is_Some (map_get alertId (alerts s)).


(** "Needs attention first": a higher rank, or the same rank and not
    older. *)
Definition attention_order (a b : alert) : Prop :=
  priorityLevel b < priorityLevel a ∨
  (priorityLevel a = priorityLevel b ∧ createdAt b ≤ createdAt a).

(** The deterministic reading of [step]: when a call is enabled, and the
    world it leads to. *)
Definition enabled (w : world) (c : call) : bool :=
  match c with
  | Create _ uuid _ => bool_decide (uuid ∉ issued w)
  | TimerFires h _ => bool_decide (is_Some (pending (sys w) !! h))
  | _ => true
  end.

Definition next (c : call) (w : world) : world :=
  {| sys := exec c (sys w);
     issued := match c with
               | Create _ uuid _ => uuid :: issued w
               | _ => issued w
               end |}.

Fixpoint run_world (cs : list call) (w : world) : world :=
  match cs with
  | [] => w
  | c :: cs' => run_world cs' (next c w)
  end.

Fixpoint valid (cs : list call) (w : world) : bool :=
  match cs with
  | [] => true
  | c :: cs' => enabled w c && valid cs' (next c w)
  end.

(** No armed timeout belongs to the alert [alertId]. *)
Definition no_timer_for (alertId : string) (s : state) : Prop :=
  ∀ h t, pending s !! h = Some t → timer_alert t ≠ alertId.

(** Every armed timeout is the one registered for its alert, and that
    alert is live and not acknowledged. *)
Definition timers_ok (s : state) : Prop :=
  ∀ h t, pending s !! h = Some t →
    (h < next_handle s)%nat ∧
    escalationTimers s !! timer_alert t = Some h ∧
    ∃ a, map_get (timer_alert t) (alerts s) = Some a ∧ acknowledged a = false.

(** The invariant of the reachable worlds. *)
(** The rank of an alert is the level of its priority, 3 for a priority
    that is not one of the five. *)
Definition rank_ok (a : alert) : Prop :=
  priorityLevel a = default 3 (level <$> priorities (priority a)).

Record inv (w : world) : Prop := {
  inv_nodup : NoDup (map fst (alerts (sys w)));
  inv_key : ∀ k a, map_get k (alerts (sys w)) = Some a → id a = k;
  inv_rank : ∀ k a, map_get k (alerts (sys w)) = Some a → rank_ok a;
  inv_live : ∀ k, in_live k (sys w) → k ∈ issued w;
  inv_history : ∀ a, a ∈ history (sys w) →
      id a ∈ issued w ∧ map_get (id a) (alerts (sys w)) = None;
  inv_bound : (length (history (sys w)) ≤ maxHistory)%nat;
  inv_timers : timers_ok (sys w)
}.

(** How a live alert may change in a step: an acknowledgement stays, and
    an alert with one of the five priorities keeps such a priority, with a
    rank and an escalation level that do not go down. *)
Definition evolves (x x' : alert) : Prop :=
  (acknowledged x = true → acknowledged x' = true) ∧
  (priority x ∈ escalation_order →
   priority x' ∈ escalation_order ∧
   priorityLevel x ≤ priorityLevel x' ∧
   escalationLevel x ≤ escalationLevel x').


(** The alert [alertId] has been issued and, while it is live, it is
    acknowledged. *)
Definition acknowledged_or_gone (alertId : string) (w : world) : Prop :=
  alertId ∈ issued w ∧
  ∀ a, map_get alertId (alerts (sys w)) = Some a → acknowledged a = true.



(** Example data. *)

Definition with_priority (p : string) : options :=
  {| opt_priority := Some p; opt_category := None; opt_title := None;
     opt_message := None; opt_source := None; opt_data := None;
     opt_requiresAck := None; opt_autoEscalate := None;
     opt_assignedTo := None |}.



(** **** Queries and presets *)

(** The result of [getCounts()]. *)
Record counts := {
  c_total : nat;
  c_critical : nat;
  c_high : nat;
  c_medium : nat;
  c_low : nat;
  c_info : nat;
  c_unacknowledged : nat
}.

Definition with_priority_count (p : string) (l : list alert) : nat :=
  length (List.filter (fun a => bool_decide (priority a = p)) l).

(** [getCounts()] *)
Definition getCounts (s : state) : counts :=
  let active := getActive no_filters s in
  {| c_total := length active;
     c_critical := with_priority_count "critical" active;
     c_high := with_priority_count "high" active;
     c_medium := with_priority_count "medium" active;
     c_low := with_priority_count "low" active;
     c_info := with_priority_count "info" active;
     c_unacknowledged := length (List.filter (fun a => negb (acknowledged a)) active) |}.

(** [security(title, message, priority = 'high', data = {})] *)
Definition security (title message : option string) (priority : option string)
    (data : option payload) (uuid : string) (now : Z) (s : state)
  : alert * state :=
  let priority := default "high" priority in
  create {| opt_priority := Some priority;
            opt_category := Some "security";
            opt_title := title;
            opt_message := message;
            opt_source := Some "security-system";
            opt_data := Some (default "{}" data);
            opt_requiresAck :=
              Some (bool_decide (priority = "critical") ||
                    bool_decide (priority = "high"));
            opt_autoEscalate := None;
            opt_assignedTo := None |} uuid now s.

(** [intelligence(title, message, priority = 'medium', data = {})] *)
Definition intelligence (title message : option string)
    (priority : option string) (data : option payload) (uuid : string)
    (now : Z) (s : state) : alert * state :=
  let priority := default "medium" priority in
  create {| opt_priority := Some priority;
            opt_category := Some "intelligence";
            opt_title := title;
            opt_message := message;
            opt_source := Some "kdt-hero";
            opt_data := Some (default "{}" data);
            opt_requiresAck := Some (bool_decide (priority = "critical"));
            opt_autoEscalate := None;
            opt_assignedTo := None |} uuid now s.

(** [system(title, message, priority = 'low', data = {})] *)
Definition system (title message : option string) (priority : option string)
    (data : option payload) (uuid : string) (now : Z) (s : state)
  : alert * state :=
  let priority := default "low" priority in
  create {| opt_priority := Some priority;
            opt_category := Some "system";
            opt_title := title;
            opt_message := message;
            opt_source := Some "system";
            opt_data := Some (default "{}" data);
            opt_requiresAck := Some false;
            opt_autoEscalate := None;
            opt_assignedTo := None |} uuid now s.

(** One update of a live alert by [acknowledge], [escalate], [addNote] or
    [assign]. *)
Inductive touched : alert → alert → Prop :=
| touched_acknowledge u n now a : touched a (mark_acknowledged u n now a)
| touched_escalate np l r now a : touched a (raise_priority np l r now a)
| touched_annotate k u t who now a : touched a (annotate k u t who now a).

(** What no update of a live alert changes, and how its notes change. *)
Definition grows (x x' : alert) : Prop :=
  id x' = id x ∧ createdAt x' = createdAt x ∧ category x' = category x ∧
  title x' = title x ∧ message x' = message x ∧ source x' = source x ∧
  data x' = data x ∧ requiresAck x' = requiresAck x ∧
  resolved x' = resolved x ∧
  notes x `prefix_of` notes x'.



(** The delay of the timeout armed for the alert [alertId], if there is
    one: the handle registered in [escalationTimers], while the run-time
    still holds it. *)
Definition armed (alertId : string) (s : state) : option Z :=
  h ← escalationTimers s !! alertId;
  t ← pending s !! h;
  Some (timer_delay t).

(** An armed timeout has the delay of its alert's priority, unless the
    alert has reached "critical" since the timeout was armed. *)
Definition delay_ok (s : state) : Prop :=
  ∀ h t a, pending s !! h = Some t →
    map_get (timer_alert t) (alerts s) = Some a →
    priority a = "critical" ∨ timeout_of (priority a) = Some (timer_delay t).

(** What a firing timeout does to an alert that is not acknowledged:
    the priority and the delay it was armed with, the priority after it,
    and the delay armed next. *)
Definition auto_escalation : list (string * Z * string * option Z) :=
  [("low", 3600000, "medium", Some 900000);
   ("medium", 900000, "high", Some 300000);
   ("high", 300000, "critical", None)].

(** [fromStandingOrder(escalation)]; [as_data] is the object
    [{ orderId, responses }] as the alert carries it. *)
Definition fromStandingOrder
    (as_data : string → list StandingOrders.agent_response → payload)
    (esc : StandingOrders.escalation_event) (uuid : string) (now : Z)
    (s : state) : alert * state :=
  create {| opt_priority :=
              Some (StandingOrders.or_else
                      (Some (StandingOrders.esc_priority esc)) "high");
            opt_category := Some "operational";
            opt_title :=
              Some ("Standing Order: " +:+ StandingOrders.esc_orderName esc);
            opt_message := Some (StandingOrders.esc_reason esc);
            opt_source := Some "standing-orders";
            opt_data :=
              Some (as_data (StandingOrders.esc_orderId esc)
                            (StandingOrders.esc_responses esc));
            opt_requiresAck :=
              Some (StandingOrders.esc_requiresAcknowledgment esc);
            opt_autoEscalate := None;
            opt_assignedTo := None |} uuid now s.
End AlertSystem.
(** *** core/sensors.js *)

Module SensorSystem.
Import JsString.

Definition payload := string.

(** Numbers of a reading are rationals; an absent number is [None] (it
    compares false with everything, as [undefined] does). *)
Definition Qltb (x y : Q) : bool := negb (Qle_bool y x).

Definition lt_js (x : option Q) (y : Q) : bool :=
  match x with Some v => Qltb v y | None => false end.

Definition gt_js (x : option Q) (y : Q) : bool :=
  match x with Some v => Qltb y v | None => false end.

(** [configured || fallback] on numbers: an absent or zero setting takes
    the fallback. *)
Definition or_default (configured : option Q) (fallback : Q) : Q :=
  match configured with
  | Some v => if Qeq_bool v (inject_Z 0) then fallback else v
  | None => fallback
  end.

Record position := { lat : Q; lng : Q }.

(** A registered geofence, by its [type]: a circle, a polygon, or an
    object of any other type. *)
Inductive geofence :=
| Circle (center : position) (radius : Q)
| Polygon (points : list position)
| OtherFence (type : string).

(** [haversineDistance] and [pointInPolygon] compute in floating point
    (trigonometry, division); the embedding takes them as given. *)
Class Geometry := {
  haversineDistance : Q → Q → Q → Q → Q;
  pointInPolygon : position → list position → bool
}.

Record face := { face_id : string; face_info : payload }.

Record detection_lists := {
  persons : option (list payload);
  vehicles : option (list payload);
  faces : option (list face)
}.

(** The fields of a reading that the rules look at; a flag is the
    truthiness of its field. *)
Record reading := {
  timestamp : option string;
  motion : bool;
  detections : option detection_lists;
  battery : option Q;
  position_of : option position;
  speed : option Q;
  sos : bool;
  triggered : bool;
  tamper : bool;
  smoke : option Q;
  gas : option Q;
  temperature : option Q;
  granted : bool;
  event_type : option string;
  unknown_source : bool;
  jamming : bool;
  other_fields : payload
}.

(** [{ ...data, timestamp, sensorId, sensorType, sensorName, zone }] *)
Record dataPoint := {
  dp_data : reading;
  dp_timestamp : string;
  dp_sensorId : string;
  dp_sensorType : string;
  dp_sensorName : option string;
  dp_zone : option string
}.

Record sensor_config := {
  geofence_ref : option string;
  speedLimit : option Q;
  smokeThreshold : option Q;
  gasThreshold : option Q;
  tempMax : option Q;
  tempMin : option Q
}.

Record sensor_stats := { dataCount : Z; triggerCount : Z; errorCount : Z }.

Record sensor := {
  id : string;
  name : option string;
  type : string;
  location : option position;
  zone : option string;
  config : sensor_config;
  metadata : payload;
  status : string;
  lastSeen : string;
  lastData : option dataPoint;
  registeredAt : string;
  stats : sensor_stats
}.

(** The additional property a rule puts on its trigger. *)
Inductive extra :=
| NoExtra
| Count (n : nat)
| Level (v : option Q)
| Speed (v : option Q)
| Temp (v : option Q)
| Zone (z : option string)
| Matches (l : list face).

(** An entry of the local array [triggers]. *)
Record trigger_entry := {
  trigger : string;
  trigger_data : dataPoint;
  trigger_extra : extra
}.

(** The payload of [sensor:trigger]. *)
Record trigger_event := {
  te_trigger : string;
  te_data : dataPoint;
  te_extra : extra;
  te_sensorId : string;
  te_sensorName : option string;
  te_sensorType : string;
  te_zone : option string;
  te_timestamp : string
}.

Inductive event :=
| EvRegistered (sn : sensor)
| EvUnregistered (sn : sensor)
| EvData (dp : dataPoint)
| EvDataOfType (type : string) (dp : dataPoint)
| EvTrigger (t : trigger_event)
| EvOffline (sn : sensor).

Record state := {
  sensors : gmap string sensor;
  dataBuffer : gmap string (list dataPoint);
  geofences : gmap string geofence;
  watch_faces : gmap string payload;
  watch_plates : gmap string payload;
  watch_devices : gmap string payload;
  emitted : list event
}.

Definition bufferSize : nat := 100.

Definition init : state :=
  {| sensors := ∅; dataBuffer := ∅; geofences := ∅; watch_faces := ∅;
     watch_plates := ∅; watch_devices := ∅; emitted := [] |}.

Inductive result (A : Type) :=
| Ok (a : A)
| Throw (msg : string).
Arguments Ok {A} a.
Arguments Throw {A} msg.

(** The keys of [this.sensorTypes], and the keys every object literal
    inherits (their values are truthy too). *)
Definition sensorTypes : list string :=
  ["camera"; "drone"; "gps_tracker"; "motion_sensor"; "environmental";
   "access_control"; "radio"; "generic"].

Definition inherited_keys : list string :=
  ["constructor"; "hasOwnProperty"; "isPrototypeOf"; "propertyIsEnumerable";
   "toLocaleString"; "toString"; "valueOf"; "__proto__";
   "__defineGetter__"; "__defineSetter__"; "__lookupGetter__";
   "__lookupSetter__"].

Definition set_sensor (sensorId : string) (sn : sensor) (s : state) : state :=
  {| sensors := <[sensorId := sn]> (sensors s); dataBuffer := dataBuffer s;
     geofences := geofences s; watch_faces := watch_faces s;
     watch_plates := watch_plates s; watch_devices := watch_devices s;
     emitted := emitted s |}.

Definition set_buffer (sensorId : string) (b : list dataPoint) (s : state)
  : state :=
  {| sensors := sensors s; dataBuffer := <[sensorId := b]> (dataBuffer s);
     geofences := geofences s; watch_faces := watch_faces s;
     watch_plates := watch_plates s; watch_devices := watch_devices s;
     emitted := emitted s |}.

Definition emit (e : event) (s : state) : state :=
  {| sensors := sensors s; dataBuffer := dataBuffer s;
     geofences := geofences s; watch_faces := watch_faces s;
     watch_plates := watch_plates s; watch_devices := watch_devices s;
     emitted := emitted s ++ [e] |}.

(** The argument of [register]. *)
Record registration := {
  reg_id : option string;
  reg_name : option string;
  reg_type : option string;
  reg_location : option position;
  reg_zone : option string;
  reg_config : option sensor_config;
  reg_metadata : option payload
}.

Definition empty_config : sensor_config :=
  {| geofence_ref := None; speedLimit := None; smokeThreshold := None;
     gasThreshold := None; tempMax := None; tempMin := None |}.

(** [register(options)] *)
Definition register (o : registration) (uuid now : string) (s : state)
  : result (sensor * state) :=
  let ty := default "undefined" (reg_type o) in
  if bool_decide (ty ∈ sensorTypes ++ inherited_keys) then
    let sid := default uuid (reg_id o) in
    let sn :=
      {| id := sid; name := reg_name o; type := ty;
         location := reg_location o; zone := reg_zone o;
         config := default empty_config (reg_config o);
         metadata := default "{}" (reg_metadata o);
         status := "online"; lastSeen := now; lastData := None;
         registeredAt := now;
         stats := {| dataCount := 0; triggerCount := 0; errorCount := 0 |} |} in
    Ok (sn, emit (EvRegistered sn) (set_buffer sid [] (set_sensor sid sn s)))
  else Throw ("Unknown sensor type: " +:+ ty).

(** [unregister(sensorId)] *)
Definition unregister (sensorId : string) (s : state) : bool * state :=
  match sensors s !! sensorId with
  | Some sn =>
      (true,
       emit (EvUnregistered sn)
         {| sensors := delete sensorId (sensors s);
            dataBuffer := delete sensorId (dataBuffer s);
            geofences := geofences s; watch_faces := watch_faces s;
            watch_plates := watch_plates s; watch_devices := watch_devices s;
            emitted := emitted s |})
  | None => (false, s)
  end.

(** [addGeofence(id, geofence)] *)
Definition addGeofence (fenceId : string) (g : geofence) (s : state) : state :=
  {| sensors := sensors s; dataBuffer := dataBuffer s;
     geofences := <[fenceId := g]> (geofences s);
     watch_faces := watch_faces s; watch_plates := watch_plates s;
     watch_devices := watch_devices s; emitted := emitted s |}.


Section WithGeometry.
Context `{Geometry}.

(** [checkGeofenceBreach(position, geofenceId)] *)
Definition checkGeofenceBreach (p : position) (geofenceId : option string)
    (s : state) : bool :=
  if negb (truthy geofenceId) then false
  else
    match geofences s !! default "" geofenceId with
    | None => false
    | Some (Circle center radius) =>
        Qltb radius (haversineDistance (lat p) (lng p) (lat center) (lng center))
    | Some (Polygon points) => negb (pointInPolygon p points)
    | Some (OtherFence _) => false
    end.

Definition push_if {A} (cond : bool) (x : A) (l : list A) : list A :=
  if cond then l ++ [x] else l.

(** [data.detections?.<class>?.length] *)
Definition detected {A} (cls : detection_lists → option (list A))
    (d : reading) : nat :=
  match detections d ≫= cls with
  | Some l => length l
  | None => O
  end.

Definition on_watchlist (s : state) (f : face) : bool :=
  bool_decide (is_Some (watch_faces s !! face_id f)).

Definition detected_faces (d : reading) : list face :=
  default [] (detections d ≫= faces).

Definition outside_fence (sn : sensor) (d : reading) (s : state) : bool :=
  match position_of d with
  | Some p => checkGeofenceBreach p (geofence_ref (config sn)) s
  | None => false
  end.

(** The [switch] of [processTriggers]: the local array [triggers]. *)
Definition detect (sn : sensor) (dp : dataPoint) (s : state)
  : list trigger_entry :=
  let d := dp_data dp in
  let mk name x := {| trigger := name; trigger_data := dp; trigger_extra := x |} in
  let triggers : list trigger_entry := [] in
  if decide (type sn = "camera") then
    let triggers := push_if (motion d) (mk "motion_detected" NoExtra) triggers in
    let triggers := push_if (0 <? detected persons d)%nat
                      (mk "person_detected" (Count (detected persons d))) triggers in
    let triggers := push_if (0 <? detected vehicles d)%nat
                      (mk "vehicle_detected" (Count (detected vehicles d))) triggers in
    let triggers := push_if (existsb (on_watchlist s) (detected_faces d))
                      (mk "face_match"
                         (Matches (List.filter (on_watchlist s) (detected_faces d))))
                      triggers in
    triggers
  else if decide (type sn = "drone") then
    let triggers := push_if (lt_js (battery d) (inject_Z 20))
                      (mk "low_battery" (Level (battery d))) triggers in
    let triggers := push_if (outside_fence sn d s)
                      (mk "geofence_breach" NoExtra) triggers in
    triggers
  else if decide (type sn = "gps_tracker") then
    let triggers := push_if (lt_js (battery d) (inject_Z 15))
                      (mk "battery_low" (Level (battery d))) triggers in
    let triggers := push_if
                      (gt_js (speed d) (or_default (speedLimit (config sn)) (inject_Z 150)))
                      (mk "speed_alert" (Speed (speed d))) triggers in
    let triggers := push_if (sos d) (mk "sos_activated" NoExtra) triggers in
    let triggers := push_if (outside_fence sn d s)
                      (mk "geofence_breach" NoExtra) triggers in
    triggers
  else if decide (type sn = "motion_sensor") then
    let triggers := push_if (triggered d)
                      (mk "motion_detected" (Zone (dp_zone dp))) triggers in
    let triggers := push_if (tamper d) (mk "tamper_alert" NoExtra) triggers in
    triggers
  else if decide (type sn = "environmental") then
    let triggers := push_if
                      (gt_js (smoke d) (or_default (smokeThreshold (config sn)) (inject_Z 50)))
                      (mk "smoke_detected" (Level (smoke d))) triggers in
    let triggers := push_if
                      (gt_js (gas d) (or_default (gasThreshold (config sn)) (inject_Z 100)))
                      (mk "gas_leak" (Level (gas d))) triggers in
    let triggers := push_if
                      (gt_js (temperature d) (or_default (tempMax (config sn)) (inject_Z 50))
                       || lt_js (temperature d) (or_default (tempMin (config sn)) (inject_Z 0)))
                      (mk "temperature_alert" (Temp (temperature d))) triggers in
    triggers
  else if decide (type sn = "access_control") then
    let triggers := push_if (negb (granted d)) (mk "access_denied" NoExtra) triggers in
    let triggers := push_if (bool_decide (event_type d = Some "forced"))
                      (mk "forced_entry" NoExtra) triggers in
    triggers
  else if decide (type sn = "radio") then
    let triggers := push_if (unknown_source d)
                      (mk "unknown_frequency" NoExtra) triggers in
    let triggers := push_if (jamming d) (mk "jamming_detected" NoExtra) triggers in
    triggers
  else triggers.

(** [{ ...trigger, sensorId, sensorName, sensorType, zone, timestamp }]:
    the sensor's [zone] replaces a [zone] the entry carries. *)
Definition trigger_payload (sn : sensor) (dp : dataPoint) (t : trigger_entry)
  : trigger_event :=
  {| te_trigger := trigger t;
     te_data := trigger_data t;
     te_extra := match trigger_extra t with Zone _ => NoExtra | x => x end;
     te_sensorId := id sn;
     te_sensorName := name sn;
     te_sensorType := type sn;
     te_zone := zone sn;
     te_timestamp := dp_timestamp dp |}.

Definition count_trigger (sn : sensor) : sensor :=
  {| id := id sn; name := name sn; type := type sn; location := location sn;
     zone := zone sn; config := config sn; metadata := metadata sn;
     status := status sn; lastSeen := lastSeen sn; lastData := lastData sn;
     registeredAt := registeredAt sn;
     stats := {| dataCount := dataCount (stats sn);
                 triggerCount := triggerCount (stats sn) + 1;
                 errorCount := errorCount (stats sn) |} |}.

(** The emitting loop of [processTriggers]; the sensor object is the
    one held by the registry under [sensorId]. *)
Fixpoint emit_triggers (sensorId : string) (sn : sensor) (dp : dataPoint)
    (ts : list trigger_entry) (s : state) : state :=
  match ts with
  | [] => s
  | t :: rest =>
      let sn' := count_trigger sn in
      let s1 := set_sensor sensorId sn' s in
      emit_triggers sensorId sn' dp rest (emit (EvTrigger (trigger_payload sn' dp t)) s1)
  end.

(** [processTriggers(sensor, data)] *)
Definition processTriggers (sensorId : string) (sn : sensor) (dp : dataPoint)
    (s : state) : list trigger_entry * state :=
  let triggers := detect sn dp s in
  (triggers, emit_triggers sensorId sn dp triggers s).

(** The state updates of [ingest] on the sensor object. *)
Definition seen (timestamp : string) (dp : dataPoint) (sn : sensor) : sensor :=
  {| id := id sn; name := name sn; type := type sn; location := location sn;
     zone := zone sn; config := config sn; metadata := metadata sn;
     status := "online"; lastSeen := timestamp; lastData := Some dp;
     registeredAt := registeredAt sn;
     stats := {| dataCount := dataCount (stats sn) + 1;
                 triggerCount := triggerCount (stats sn);
                 errorCount := errorCount (stats sn) |} |}.

(** [data.timestamp || new Date().toISOString()] *)
Definition stamp (data : reading) (now : string) : string :=
  if truthy (timestamp data) then default "" (timestamp data) else now.

(** The [dataPoint] literal of [ingest]. *)
Definition make_dataPoint (sensorId : string) (sn : sensor) (data : reading)
    (now : string) : dataPoint :=
  {| dp_data := data; dp_timestamp := stamp data now;
     dp_sensorId := sensorId; dp_sensorType := type sn;
     dp_sensorName := name sn; dp_zone := zone sn |}.

(** [buffer.push(dataPoint); if (buffer.length > bufferSize) buffer.shift()] *)
Definition push_bounded (buffer : list dataPoint) (dp : dataPoint)
  : list dataPoint :=
  let pushed := buffer ++ [dp] in
  if (bufferSize <? length pushed)%nat then tail pushed else pushed.

(** [ingest(sensorId, data)].  A sensor without a buffer cannot arise
    ([register] and [unregister] keep the two maps in step); the source
    would fail on [buffer.push]. *)
Definition ingest (sensorId : string) (data : reading) (now : string)
    (s : state) : result (dataPoint * state) :=
  match sensors s !! sensorId with
  | None => Throw ("Unknown sensor: " +:+ sensorId)
  | Some sn =>
      let dp := make_dataPoint sensorId sn data now in
      let sn1 := seen (dp_timestamp dp) dp sn in
      let s1 := set_sensor sensorId sn1 s in
      match dataBuffer s1 !! sensorId with
      | None => Throw "TypeError: buffer is undefined"
      | Some buffer =>
          let s2 := set_buffer sensorId (push_bounded buffer dp) s1 in
          let s3 := emit (EvDataOfType (type sn1) dp) (emit (EvData dp) s2) in
          Ok (dp, (processTriggers sensorId sn1 dp s3).2)
      end
  end.

(** A sequence of [ingest] calls, stopping at the first that throws. *)
Fixpoint ingest_all (calls : list (string * reading * string)) (s : state)
  : result state :=
  match calls with
  | [] => Ok s
  | (sensorId, data, now) :: rest =>
      match ingest sensorId data now s with
      | Ok (_, s') => ingest_all rest s'
      | Throw msg => Throw msg
      end
  end.

(** The per-type rule table of the specification (section 4.2): for a
    sensor type, the trigger names with their conditions, in the order
    of the table. *)
Definition rule := (string * (state → sensor → reading → bool))%type.

Definition non_empty {A} (l : option (list A)) : bool :=
  match l with
  | Some (_ :: _) => true
  | _ => false
  end.

Definition rule_table (ty : string) : list rule :=
  if decide (ty = "camera") then
    [("motion_detected", fun _ _ d => motion d);
     ("person_detected", fun _ _ d => non_empty (detections d ≫= persons));
     ("vehicle_detected", fun _ _ d => non_empty (detections d ≫= vehicles));
     ("face_match", fun s _ d =>
        existsb (fun f => bool_decide (face_id f ∈ dom (watch_faces s)))
                (detected_faces d))]
  else if decide (ty = "drone") then
    [("low_battery", fun _ _ d => lt_js (battery d) (inject_Z 20));
     ("geofence_breach", fun s sn d => outside_fence sn d s)]
  else if decide (ty = "gps_tracker") then
    [("battery_low", fun _ _ d => lt_js (battery d) (inject_Z 15));
     ("speed_alert", fun _ sn d =>
        gt_js (speed d) (or_default (speedLimit (config sn)) (inject_Z 150)));
     ("sos_activated", fun _ _ d => sos d);
     ("geofence_breach", fun s sn d => outside_fence sn d s)]
  else if decide (ty = "motion_sensor") then
    [("motion_detected", fun _ _ d => triggered d);
     ("tamper_alert", fun _ _ d => tamper d)]
  else if decide (ty = "environmental") then
    [("smoke_detected", fun _ sn d =>
        gt_js (smoke d) (or_default (smokeThreshold (config sn)) (inject_Z 50)));
     ("gas_leak", fun _ sn d =>
        gt_js (gas d) (or_default (gasThreshold (config sn)) (inject_Z 100)));
     ("temperature_alert", fun _ sn d =>
        negb (negb (lt_js (temperature d) (or_default (tempMin (config sn)) (inject_Z 0)))
              && negb (gt_js (temperature d) (or_default (tempMax (config sn)) (inject_Z 50)))))]
  else if decide (ty = "access_control") then
    [("access_denied", fun _ _ d => negb (granted d));
     ("forced_entry", fun _ _ d => bool_decide (event_type d = Some "forced"))]
  else if decide (ty = "radio") then
    [("unknown_frequency", fun _ _ d => unknown_source d);
     ("jamming_detected", fun _ _ d => jamming d)]
  else [].

Definition satisfied (s : state) (sn : sensor) (d : reading) (r : rule) : bool :=
  r.2 s sn d.

(** How many of the triggers carry the name [n]. *)
Definition count_name (n : string) (ts : list trigger_event) : nat :=
  length (List.filter (fun t => bool_decide (te_trigger t = n)) ts).

(** The last [n] elements of a list. *)
Definition keep_last {A} (n : nat) (l : list A) : list A :=
  drop (length l - n)%nat l.

(** The data points that a sequence of [ingest] calls makes for one
    sensor, in arrival order. *)
Definition arrivals (sensorId : string) (sn : sensor)
    (calls : list (string * reading * string)) : list dataPoint :=
  map (fun c => make_dataPoint sensorId sn c.1.2 c.2)
      (List.filter (fun c => bool_decide (c.1.1 = sensorId)) calls).

(** Every registered sensor has its buffer, and no buffer is longer than
    [bufferSize]. *)
Definition buffers_ok (s : state) : Prop :=
  (∀ sensorId, is_Some (sensors s !! sensorId) →
               is_Some (dataBuffer s !! sensorId)) ∧
  (∀ sensorId b, dataBuffer s !! sensorId = Some b →
                 (length b ≤ bufferSize)%nat).

(** The properties of a sensor that [ingest] reads and never writes. *)
Definition same_sensor (sn sn' : sensor) : Prop :=
  id sn' = id sn ∧ name sn' = name sn ∧ type sn' = type sn ∧
  zone sn' = zone sn ∧ config sn' = config sn.

End WithGeometry.

(** Example data.  [taxicab] stands in for the floating-point geometry in
    the examples: distances are measured along the axes, and no point is
    inside a polygon. *)

Definition taxicab : Geometry :=
  {| haversineDistance := fun lat1 lon1 lat2 lon2 =>
       Qplus (Qabs (Qminus lat2 lat1)) (Qabs (Qminus lon2 lon1));
     pointInPolygon := fun _ _ => false |}.

Definition drone_1 : sensor :=
  {| id := "drone-1"; name := Some "Drone 1"; type := "drone";
     location := None; zone := Some "north";
     config := {| geofence_ref := Some "hq-fence"; speedLimit := None;
                  smokeThreshold := None; gasThreshold := None;
                  tempMax := None; tempMin := None |};
     metadata := "{}"; status := "online";
     lastSeen := "2024-05-01T06:00:00.000Z"; lastData := None;
     registeredAt := "2024-05-01T06:00:00.000Z";
     stats := {| dataCount := 0; triggerCount := 0; errorCount := 0 |} |}.

Definition tracker_7 : sensor :=
  {| id := "tracker-7"; name := Some "Convoy tracker"; type := "gps_tracker";
     location := None; zone := None;
     config := {| geofence_ref := Some "route-fence"; speedLimit := None;
                  smokeThreshold := None; gasThreshold := None;
                  tempMax := None; tempMin := None |};
     metadata := "{}"; status := "online";
     lastSeen := "2024-05-01T06:00:00.000Z"; lastData := None;
     registeredAt := "2024-05-01T06:00:00.000Z";
     stats := {| dataCount := 0; triggerCount := 0; errorCount := 0 |} |}.

Definition quiet : reading :=
  {| timestamp := None; motion := false; detections := None; battery := None;
     position_of := None; speed := None; sos := false; triggered := false;
     tamper := false; smoke := None; gas := None; temperature := None;
     granted := true; event_type := None; unknown_source := false;
     jamming := false; other_fields := "{}" |}.

(** A reading with a low battery, far from the fence centre. *)
Definition low_and_outside : reading :=
  {| timestamp := Some "2024-05-01T07:30:00.000Z"; motion := false;
     detections := None; battery := Some (inject_Z 10);
     position_of := Some {| lat := inject_Z 5000; lng := inject_Z 8 |};
     speed := None; sos := false; triggered := false; tamper := false;
     smoke := None; gas := None; temperature := None; granted := true;
     event_type := None; unknown_source := false; jamming := false;
     other_fields := "{}" |}.

Definition old_point : dataPoint :=
  {| dp_data := quiet; dp_timestamp := "2024-05-01T06:59:00.000Z";
     dp_sensorId := "drone-1"; dp_sensorType := "drone";
     dp_sensorName := Some "Drone 1"; dp_zone := Some "north" |}.

(** One drone with a registered circular fence and a full buffer, and one
    tracker whose fence is not registered. *)
Definition patrol : state :=
  {| sensors := {[ "drone-1" := drone_1; "tracker-7" := tracker_7 ]};
     dataBuffer := {[ "drone-1" := replicate 100 old_point; "tracker-7" := [] ]};
     geofences := {[ "hq-fence" :=
                       Circle {| lat := inject_Z 9; lng := inject_Z 7 |}
                              (inject_Z 1000) ]};
     watch_faces := ∅; watch_plates := ∅; watch_devices := ∅;
     emitted := [] |}.


(** **** The registry and the watchlists *)

(** [this.sensorTypes[type].triggers], the triggers declared for a type
    (served by [GET /api/sensors/types]). *)
Definition declared_triggers (ty : string) : list string :=
  if decide (ty = "camera") then
    ["motion_detected"; "person_detected"; "vehicle_detected"; "face_match"]
  else if decide (ty = "drone") then
    ["low_battery"; "geofence_breach"; "signal_lost"; "target_acquired"]
  else if decide (ty = "gps_tracker") then
    ["geofence_breach"; "speed_alert"; "sos_activated"; "battery_low"; "offline"]
  else if decide (ty = "motion_sensor") then
    ["motion_detected"; "zone_breach"; "tamper_alert"]
  else if decide (ty = "environmental") then
    ["temperature_alert"; "smoke_detected"; "gas_leak"; "noise_alert"]
  else if decide (ty = "access_control") then
    ["access_denied"; "forced_entry"; "door_held_open"; "tailgating"]
  else if decide (ty = "radio") then
    ["transmission_detected"; "jamming_detected"; "unknown_frequency"]
  else if decide (ty = "generic") then
    ["alert"; "warning"; "info"]
  else [].

(** The declared triggers that no rule of [processTriggers] pushes. *)
Definition never_pushed : list string :=
  ["signal_lost"; "target_acquired"; "offline"; "zone_breach"; "noise_alert";
   "door_held_open"; "tailgating"; "transmission_detected";
   "alert"; "warning"; "info"].

(** [get(sensorId)] *)
Definition get (sensorId : string) (s : state) : option sensor :=
  sensors s !! sensorId.

Definition went_offline (sn : sensor) : sensor :=
  {| id := id sn; name := name sn; type := type sn; location := location sn;
     zone := zone sn; config := config sn; metadata := metadata sn;
     status := "offline"; lastSeen := lastSeen sn; lastData := lastData sn;
     registeredAt := registeredAt sn; stats := stats sn |}.

(** [markOffline(sensorId)] *)
Definition markOffline (sensorId : string) (s : state) : state :=
  match sensors s !! sensorId with
  | Some sn =>
      let sn' := went_offline sn in
      emit (EvOffline sn') (set_sensor sensorId sn' s)
  | None => s
  end.

(** [addToWatchlist(type, id, data)]: [this.watchlists[type]] is one of
    the three maps, an inherited property (which has no [set]), or
    undefined. *)
Definition addToWatchlist (listType entryId : string) (data : payload)
    (s : state) : result state :=
  if decide (listType = "faces") then
    Ok {| sensors := sensors s; dataBuffer := dataBuffer s;
          geofences := geofences s;
          watch_faces := <[entryId := data]> (watch_faces s);
          watch_plates := watch_plates s; watch_devices := watch_devices s;
          emitted := emitted s |}
  else if decide (listType = "plates") then
    Ok {| sensors := sensors s; dataBuffer := dataBuffer s;
          geofences := geofences s; watch_faces := watch_faces s;
          watch_plates := <[entryId := data]> (watch_plates s);
          watch_devices := watch_devices s; emitted := emitted s |}
  else if decide (listType = "devices") then
    Ok {| sensors := sensors s; dataBuffer := dataBuffer s;
          geofences := geofences s; watch_faces := watch_faces s;
          watch_plates := watch_plates s;
          watch_devices := <[entryId := data]> (watch_devices s);
          emitted := emitted s |}
  else if bool_decide (listType ∈ inherited_keys) then
    Throw "TypeError: this.watchlists[type].set is not a function"
  else Ok s.



(** The state with other [plates] and [devices] watchlists. *)
Definition with_lists (plates devices : gmap string payload) (s : state)
  : state :=
  {| sensors := sensors s; dataBuffer := dataBuffer s;
     geofences := geofences s; watch_faces := watch_faces s;
     watch_plates := plates; watch_devices := devices;
     emitted := emitted s |}.

(** The calls the component receives. *)
Inductive sensor_call :=
| Register (o : registration) (uuid now : string)
| Unregister (sensorId : string)
| Ingest (sensorId : string) (data : reading) (now : string)
| MarkOffline (sensorId : string)
| AddGeofence (fenceId : string) (g : geofence)
| AddToWatchlist (listType entryId : string) (data : payload).

(** What a data point says of the sensor it was made for. *)
Definition made_for (sensorId : string) (sn : sensor) (dp : dataPoint) : Prop :=
  dp_sensorId dp = sensorId ∧ dp_sensorType dp = type sn ∧
  dp_sensorName dp = name sn ∧ dp_zone dp = zone sn.

(** The registry and the buffers agree: they have the same keys; a sensor
    is stored under its own id, is online or offline and has counted no
    error; its buffer holds at most [bufferSize] data points, all made for
    it, no more than it has counted, the newest being its [lastData]; and
    it has counted at most four triggers per reading. *)
Definition registry_ok (s : state) : Prop :=
  (∀ sensorId, is_Some (dataBuffer s !! sensorId) →
               is_Some (sensors s !! sensorId)) ∧
  (∀ sensorId sn, sensors s !! sensorId = Some sn →
     id sn = sensorId ∧
     (status sn = "online" ∨ status sn = "offline") ∧
     errorCount (stats sn) = 0 ∧
     0 ≤ triggerCount (stats sn) ≤ 4 * dataCount (stats sn) ∧
     ∃ b, dataBuffer s !! sensorId = Some b ∧
          (length b ≤ bufferSize)%nat ∧
          Z.of_nat (length b) ≤ dataCount (stats sn) ∧
          lastData sn = last b ∧
          Forall (made_for sensorId sn) b).

(** Every trigger event names a trigger declared for the type of its
    sensor, and none that no rule pushes. *)
Definition declared (e : event) : Prop :=
  match e with
  | EvTrigger t =>
      te_trigger t ∈ declared_triggers (te_sensorType t) ∧
      te_trigger t ∉ never_pushed
  | _ => True
  end.

Section Calls.
Context `{Geometry}.

(** A call that throws leaves the state as it was. *)
Definition sensor_exec (c : sensor_call) (s : state) : state :=
  match c with
  | Register o uuid now =>
      match register o uuid now s with Ok (_, s') => s' | Throw _ => s end
  | Unregister k => (unregister k s).2
  | Ingest k data now =>
      match ingest k data now s with Ok (_, s') => s' | Throw _ => s end
  | MarkOffline k => markOffline k s
  | AddGeofence k g => addGeofence k g s
  | AddToWatchlist ty k data =>
      match addToWatchlist ty k data s with Ok s' => s' | Throw _ => s end
  end.

Definition sensor_run (cs : list sensor_call) (s : state) : state :=
  fold_left (fun s c => sensor_exec c s) cs s.

End Calls.

(** Example data: a camera reading that shows two faces. *)
Definition two_faces : reading :=
  {| timestamp := None; motion := false;
     detections := Some {| persons := None; vehicles := None;
                           faces := Some [{| face_id := "f-17"; face_info := "{}" |};
                                          {| face_id := "f-99"; face_info := "{}" |}] |};
     battery := None; position_of := None; speed := None; sos := false;
     triggered := false; tamper := false; smoke := None; gas := None;
     temperature := None; granted := true; event_type := None;
     unknown_source := false; jamming := false; other_fields := "{}" |}.

Definition door_camera : registration :=
  {| reg_id := Some "cam-1"; reg_name := Some "Door camera";
     reg_type := Some "camera"; reg_location := None;
     reg_zone := Some "door"; reg_config := None; reg_metadata := None |}.
End SensorSystem.

(** *** Operator profiles (OperatorManager, core/sensors.js) *)

Module OperatorManager.
Import JsString.

(** The parts of a profile that the checks read.  A flag is the
    truthiness of its property; [receive_alerts] lists the own properties
    of that object. *)
Record access_profile := {
  level : option string;
  sections : option (list string)
}.

Record notification_profile := {
  language : option string;
  overnight_critical_only : bool;
  overnight_hours : option string;
  receive_alerts : option (list (string * bool))
}.

Record operator := {
  id : string;
  access : option access_profile;
  notifications : option notification_profile
}.

(** [getDefaultOperator()] *)
Definition getDefaultOperator : operator :=
  {| id := "default";
     access :=
       Some {| level := Some "full";
               sections := Some ["hero"; "operations"; "surveillance";
                                 "geospatial"; "communications"; "logistics";
                                 "admin"] |};
     notifications :=
       Some {| language := Some "en";
               overnight_critical_only := true;
               overnight_hours := Some "2200-0600";
               receive_alerts := Some [("critical", true); ("high", true);
                                       ("medium", true); ("low", false)] |} |}.

(** [getOperator(operatorId)] over the loaded profiles. *)
Definition getOperator (operators : gmap string operator)
    (operatorId : option string) : operator :=
  if negb (truthy operatorId) then getDefaultOperator
  else default getDefaultOperator (operators !! default "" operatorId).

(** [hasAccess(operatorId, section)] *)
Definition hasAccess (operators : gmap string operator)
    (operatorId : option string) (section : string) : bool :=
  let operator := getOperator operators operatorId in
  if bool_decide (access operator ≫= level = Some "full") then true
  else
    match access operator ≫= sections with
    | Some l => bool_decide (section ∈ l)
    | None => false
    end.

(** [getLanguage(operatorId)] *)
Definition getLanguage (operators : gmap string operator)
    (operatorId : option string) : string :=
  let operator := getOperator operators operatorId in
  let lang := notifications operator ≫= language in
  if truthy lang then default "en" lang else "en".

Definition is_digit (c : ascii) : bool :=
  let n := nat_of_ascii c in (48 <=? n)%nat && (n <=? 57)%nat.

Definition hex_value (c : ascii) : option Z :=
  let n := nat_of_ascii c in
  if (48 <=? n)%nat && (n <=? 57)%nat then Some (Z.of_nat n - 48)
  else if (97 <=? n)%nat && (n <=? 102)%nat then Some (Z.of_nat n - 87)
  else if (65 <=? n)%nat && (n <=? 70)%nat then Some (Z.of_nat n - 55)
  else None.

Definition digit_in (radix : Z) (c : ascii) : option Z :=
  match hex_value c with
  | Some v => if v <? radix then Some v else None
  | None => None
  end.

(** The longest prefix of digits of the radix, read as a number; [seen]
    tells whether a digit was read. *)
Fixpoint digits_prefix (radix : Z) (acc : Z) (seen : bool) (s : string)
  : option Z :=
  match s with
  | EmptyString => if seen then Some acc else None
  | String c s' =>
      match digit_in radix c with
      | Some v => digits_prefix radix (radix * acc + v) true s'
      | None => if seen then Some acc else None
      end
  end.

(** [parseInt(s)] without a radix: leading white space, a sign, a "0x"
    prefix for base 16; the result is absent for [NaN]. *)
Definition parseInt (s : string) : option Z :=
  let s := trimStart s in
  let '(sign, s) :=
    match s with
    | String "-" s' => (-1, s')
    | String "+" s' => (1, s')
    | _ => (1, s)
    end in
  let '(radix, s) :=
    match s with
    | String "0" (String "x" s') => (16, s')
    | String "0" (String "X" s') => (16, s')
    | _ => (10, s)
    end in
  (fun v => sign * v) <$> digits_prefix radix 0 false s.

(** [h.substring(0, 2)] *)
Definition first_two (h : string) : string :=
  match h with
  | String a (String b _) => String a (String b EmptyString)
  | _ => h
  end.

(** [const [startHour, endHour] = hours.split('-').map(h =>
    parseInt(h.substring(0, 2)))]; a missing element is undefined. *)
Definition window (hours : string) : option Z * option Z :=
  let parts := map (fun h => parseInt (first_two h)) (split "-" hours) in
  (default None (parts !! O), default None (parts !! 1%nat)).

(** [x >= y] and [x < y] against a number that may be [NaN] or
    undefined. *)
Definition ge_js (x : Z) (y : option Z) : bool :=
  match y with Some v => v <=? x | None => false end.

Definition lt_js (x : Z) (y : option Z) : bool :=
  match y with Some v => x <? v | None => false end.

(** The properties that every object inherits; their values are truthy. *)
Definition inherited_keys : list string :=
  ["constructor"; "hasOwnProperty"; "isPrototypeOf"; "propertyIsEnumerable";
   "toLocaleString"; "toString"; "valueOf"; "__proto__";
   "__defineGetter__"; "__defineSetter__"; "__lookupGetter__";
   "__lookupSetter__"].

Fixpoint own (key : string) (props : list (string * bool)) : option bool :=
  match props with
  | [] => None
  | (k, v) :: rest => if decide (k = key) then Some v else own key rest
  end.

(** [prefs.receive_alerts?.[priority]] as a condition. *)
Definition receives (prefs : option notification_profile) (priority : string)
  : bool :=
  match prefs ≫= receive_alerts with
  | None => false
  | Some props =>
      match own priority props with
      | Some v => v
      | None => bool_decide (priority ∈ inherited_keys)
      end
  end.

(** [isOvernight] for the hour [hours] of the local time. *)
Definition isOvernight (prefs : notification_profile) (hours : nat) : bool :=
  let w := window (if truthy (overnight_hours prefs)
                   then default "" (overnight_hours prefs) else "2200-0600") in
  ge_js (Z.of_nat hours) w.1 || lt_js (Z.of_nat hours) w.2.

(** [shouldNotify(operatorId, priority, currentTime)]; [hours] is
    [currentTime.getHours()]. *)
Definition shouldNotify (operators : gmap string operator)
    (operatorId : option string) (priority : string) (hours : nat) : bool :=
  let operator := getOperator operators operatorId in
  let prefs := notifications operator in
  if negb (receives prefs priority) then false
  else
    match prefs with
    | Some p =>
        if overnight_critical_only p then
          if isOvernight p hours && negb (bool_decide (priority = "critical"))
          then false else true
        else true
    | None => true
    end.

(** Example data: an operator whose quiet hours lie within one day. *)
Definition day_sleeper : operator :=
  {| id := "night-shift";
     access := Some {| level := Some "restricted";
                       sections := Some ["operations"] |};
     notifications :=
       Some {| language := Some "ha";
               overnight_critical_only := true;
               overnight_hours := Some "0900-1700";
               receive_alerts := Some [("critical", true); ("high", true)] |} |}.

End OperatorManager.

(** *** The wiring of the components (core/languages.js) *)

Module Server.
Import JsString.

(** The three components that the server creates and connects. *)
Record system := {
  sensorSystem : SensorSystem.state;
  standingOrders : StandingOrders.engine;
  alertSystem : AlertSystem.state
}.

Definition is_lower (c : ascii) : bool :=
  let n := nat_of_ascii c in (97 <=? n)%nat && (n <=? 122)%nat.

Definition upper_char (c : ascii) : ascii :=
  if is_lower c then ascii_of_nat (nat_of_ascii c - 32) else c.

(** [s.toUpperCase()], on the ASCII letters. *)
Fixpoint toUpperCase (s : string) : string :=
  match s with
  | EmptyString => EmptyString
  | String c s' => String (upper_char c) (toUpperCase s')
  end.

(** [s.replace(/_/g, ' ')] *)
Fixpoint spaced (s : string) : string :=
  match s with
  | EmptyString => EmptyString
  | String c s' =>
      String (if decide (c = "_"%char) then " "%char else c) (spaced s')
  end.

(** The own properties of the object [triggerMapping].  A name that the
    object only inherits maps to a value that is no order's trigger, so
    [checkTrigger] changes nothing for it, as when there is no mapping. *)
Definition triggerMapping (name : string) : option string :=
  if decide (name = "motion_detected") then Some "movement_detected_perimeter"
  else if decide (name = "person_detected") then Some "movement_detected_perimeter"
  else if decide (name = "geofence_breach") then Some "tracked_asset_leaves_geofence"
  else if decide (name = "face_match") then Some "watchlist_entity_detected"
  else if decide (name = "sos_activated") then Some "emergency_declared"
  else if decide (name = "forced_entry") then Some "movement_detected_perimeter"
  else if decide (name = "smoke_detected") then Some "emergency_declared"
  else if decide (name = "gas_leak") then Some "emergency_declared"
  else None.

Definition criticalTriggers : list string :=
  ["forced_entry"; "sos_activated"; "smoke_detected"; "gas_leak"; "face_match"].

Definition highTriggers : list string :=
  ["geofence_breach"; "tamper_alert"; "jamming_detected"].

(** The objects that the handlers build and hand on, as the receiving
    component carries them. *)
Class Encoding := {
  trigger_context : SensorSystem.trigger_event → StandingOrders.payload;
  offline_context : SensorSystem.sensor → StandingOrders.payload;
  trigger_data : SensorSystem.trigger_event → AlertSystem.payload;
  escalation_details : StandingOrders.escalation_event → StandingOrders.payload;
  escalation_data :
    string → list StandingOrders.agent_response → AlertSystem.payload
}.

Section Handlers.
Context `{Encoding}.

(** The title and message of the alert for a trigger. *)
Definition alert_title (t : SensorSystem.trigger_event) : string :=
  toUpperCase (spaced (SensorSystem.te_trigger t)).

Definition alert_message (t : SensorSystem.trigger_event) : string :=
  default "undefined" (SensorSystem.te_sensorName t) +:+ " (" +:+
  StandingOrders.or_else (SensorSystem.te_zone t) "Unknown zone" +:+ "): " +:+
  spaced (SensorSystem.te_trigger t).

(** The handler of [sensor:trigger]; [logged] and [now] are the readings
    of the clock in [checkTrigger] and in [create], [uuid] the identifier
    that [create] draws. *)
Definition on_sensor_trigger (t : SensorSystem.trigger_event) (uuid : string)
    (logged now : Z) (sys : system) : system :=
  let name := SensorSystem.te_trigger t in
  let so :=
    match triggerMapping name with
    | Some standingOrderTrigger =>
        StandingOrders.set_core
          (StandingOrders.checkTrigger standingOrderTrigger
             (trigger_context t) logged
             (StandingOrders.core (standingOrders sys))).2
          (standingOrders sys)
    | None => standingOrders sys
    end in
  let al :=
    if bool_decide (name ∈ criticalTriggers) then
      (AlertSystem.security (Some (alert_title t)) (Some (alert_message t))
         (Some "critical") (Some (trigger_data t)) uuid now
         (alertSystem sys)).2
    else if bool_decide (name ∈ highTriggers) then
      (AlertSystem.security (Some (alert_title t)) (Some (alert_message t))
         (Some "high") (Some (trigger_data t)) uuid now
         (alertSystem sys)).2
    else alertSystem sys in
  {| sensorSystem := sensorSystem sys; standingOrders := so;
     alertSystem := al |}.

(** The handler of [sensor:offline]. *)
Definition on_sensor_offline (sn : SensorSystem.sensor) (logged : Z)
    (sys : system) : system :=
  {| sensorSystem := sensorSystem sys;
     standingOrders :=
       StandingOrders.set_core
         (StandingOrders.checkTrigger "tracked_asset_no_signal"
            (offline_context sn) logged
            (StandingOrders.core (standingOrders sys))).2
         (standingOrders sys);
     alertSystem := alertSystem sys |}.

(** The handlers run for the events that a call of the sensor system
    emits, in the order of emission; the handlers of the other sensor
    events touch none of the three components.  [uuid_of i], [logged i]
    and [now i] are the identifier and the clock readings of the handler
    of event number [i]. *)
Fixpoint on_events (i : nat) (events : list SensorSystem.event)
    (uuid_of : nat → string) (logged now : nat → Z) (sys : system) : system :=
  match events with
  | [] => sys
  | e :: rest =>
      let sys' :=
        match e with
        | SensorSystem.EvTrigger t =>
            on_sensor_trigger t (uuid_of i) (logged i) (now i) sys
        | SensorSystem.EvOffline sn => on_sensor_offline sn (logged i) sys
        | _ => sys
        end in
      on_events (S i) rest uuid_of logged now sys'
  end.

(** The handler of the standing orders' [trigger] event, from the point
    where the agents have answered with [responses], and the handler of
    [escalation] that [escalate] reaches by its [emit]. *)
Definition on_order_executed (f : StandingOrders.fired)
    (responses : list StandingOrders.agent_response) (uuid : string)
    (stamped logged now : Z) (sys : system) : system :=
  if StandingOrders.requiresEscalation (StandingOrders.fired_order f) responses
  then
    let r := StandingOrders.escalate escalation_details f responses
               stamped logged (standingOrders sys) in
    {| sensorSystem := sensorSystem sys;
       standingOrders := r.2;
       alertSystem :=
         (AlertSystem.fromStandingOrder escalation_data r.1 uuid now
            (alertSystem sys)).2 |}
  else sys.

Context `{SensorSystem.Geometry}.

(** [POST /api/sensors/:id/ingest]: [ingest] with the handlers of the
    events it emits; an error leaves the components as they were. *)
Definition ingest_route (sensorId : string) (data : SensorSystem.reading)
    (received : string) (uuid_of : nat → string) (logged now : nat → Z)
    (sys : system) : SensorSystem.result (SensorSystem.dataPoint * system) :=
  match SensorSystem.ingest sensorId data received (sensorSystem sys) with
  | SensorSystem.Ok (dp, s') =>
      let events := drop (length (SensorSystem.emitted (sensorSystem sys)))
                         (SensorSystem.emitted s') in
      SensorSystem.Ok
        (dp, on_events O events uuid_of logged now
               {| sensorSystem := s'; standingOrders := standingOrders sys;
                  alertSystem := alertSystem sys |})
  | SensorSystem.Throw msg => SensorSystem.Throw msg
  end.

End Handlers.


(** The alerts that the handler of [sensor:trigger] makes for a list of
    trigger names: the priority of each, if any. *)
Definition alert_priority (name : string) : option string :=
  if bool_decide (name ∈ criticalTriggers) then Some "critical"
  else if bool_decide (name ∈ highTriggers) then Some "high"
  else None.

(** The identifiers and priorities of the alerts made for the triggers
    of one reading: trigger number [j] is event number [2 + j] of the call,
    after the two data events. *)
Definition alerts_for (uuid_of : nat → string) (first : nat)
    (names : list string) : list (string * string) :=
  omap (fun x => x)
    (imap (fun j name =>
             (fun p => (uuid_of (first + j)%nat, p)) <$> alert_priority name)
          names).

(** An alert as the handler of [sensor:trigger] makes it, under its
    identifier; and its identifier with its priority. *)
Definition security_pair (x : string * AlertSystem.alert) : Prop :=
  AlertSystem.id x.2 = x.1 ∧ AlertSystem.category x.2 = "security" ∧
  AlertSystem.requiresAck x.2 = true ∧ AlertSystem.acknowledged x.2 = false ∧
  AlertSystem.resolved x.2 = false.

Definition with_priority_of (x : string * AlertSystem.alert)
  : string * string := (x.1, AlertSystem.priority x.2).

(** Example data. *)
Definition plain : Encoding :=
  {| trigger_context := fun _ => "{}"; offline_context := fun _ => "{}";
     trigger_data := fun _ => "{}"; escalation_details := fun _ => "{}";
     escalation_data := fun _ _ => "{}" |}.

Definition sos_event : SensorSystem.trigger_event :=
  {| SensorSystem.te_trigger := "sos_activated";
     SensorSystem.te_data := SensorSystem.old_point;
     SensorSystem.te_extra := SensorSystem.NoExtra;
     SensorSystem.te_sensorId := "tracker-7";
     SensorSystem.te_sensorName := Some "Convoy tracker";
     SensorSystem.te_sensorType := "gps_tracker";
     SensorSystem.te_zone := None;
     SensorSystem.te_timestamp := "2024-05-01T06:59:00.000Z" |}.

(** The patrol's sensors, the scheduled orders and no alert. *)
Definition idle : system :=
  {| sensorSystem := SensorSystem.patrol;
     standingOrders := StandingOrders.start_engine StandingOrders.schedule;
     alertSystem := AlertSystem.init |}.

(** A fired order that always escalates, with a priority of its own. *)
Definition evacuate : StandingOrders.fired :=
  {| StandingOrders.fired_id := "evacuate";
     StandingOrders.fired_name := "evacuate";
     StandingOrders.fired_order :=
       {| StandingOrders.trigger := "emergency_declared";
          StandingOrders.authority_level := 4;
          StandingOrders.actions := [];
          StandingOrders.escalation :=
            Some {| StandingOrders.always_notify := true;
                    StandingOrders.threshold := None;
                    StandingOrders.priority := Some "immediate" |};
          StandingOrders.own_id := None;
          StandingOrders.own_name := None |};
     StandingOrders.fired_context := "{}" |}.

End Server.
(** ** Part II: properties *)

(** *** Standing orders *)

Module StandingOrdersFacts.
Import JsString StandingOrders.

Lemma lower_char_not_O (a : ascii) : lower_char a ≠ "O"%char.
Proof.
  destruct a as [[] [] [] [] [] [] [] []]; vm_compute; discriminate.
Qed.

Lemma toLowerCase_lacks_O (s : string) : lacks "O"%char (toLowerCase s).
Proof.
  induction s as [|a s IH]; simpl; [exact I|].
  split; [apply lower_char_not_O | exact IH].
Qed.

Lemma append_empty_r (s : string) : s +:+ "" = s.
Proof.
  induction s as [|a s IH]; [reflexivity|].
  change (String a (s +:+ "") = String a s). now f_equal.
Qed.

Lemma append_snoc (cur : string) (c : ascii) (s : string) :
  snoc cur c +:+ s = cur +:+ String c s.
Proof.
  unfold snoc. induction cur as [|a cur IH]; [reflexivity|].
  change (String a ((cur +:+ String c "") +:+ s) = String a (cur +:+ String c s)).
  f_equal. exact IH.
Qed.

Lemma startsWith_OR_lacks (s : string) :
  lacks "O"%char s → startsWith " OR " s = false.
Proof.
  destruct s as [|a [|b s]]; simpl; try reflexivity.
  - intros _. now destruct (decide (" "%char = a)).
  - intros (_ & Hb & _).
    destruct (decide (" "%char = a)); [|reflexivity].
    destruct (decide ("O"%char = b)) as [Heq|]; [now destruct Hb | reflexivity].
Qed.

(** A text without a capital O holds no " OR ", so [split] leaves it
    whole. *)
Lemma split_go_lacks (s cur : string) :
  lacks "O"%char s → split_go " OR " O cur s = [cur +:+ s].
Proof.
  revert cur. induction s as [|a s IH]; intros cur Hs.
  - simpl. now rewrite append_empty_r.
  - change (split_go " OR " 0 cur (String a s))
      with (if startsWith " OR " (String a s)
            then cur :: split_go " OR " 3 "" s
            else split_go " OR " 0 (snoc cur a) s).
    rewrite (startsWith_OR_lacks _ Hs).
    destruct Hs as [_ Hs]. rewrite (IH _ Hs). now rewrite append_snoc.
Qed.

Lemma split_OR_toLowerCase (s : string) :
  split " OR " (toLowerCase s) = [toLowerCase s].
Proof.
  unfold split. simpl.
  apply (split_go_lacks (toLowerCase s) ""), toLowerCase_lacks_O.
Qed.

(** What [requiresEscalation] computes: once lower-cased, the threshold
    expression is never cut, and it is looked up in the response text as
    one term. *)
Lemma requiresEscalation_whole_threshold (o : order)
    (responses : list agent_response) :
  requiresEscalation o responses =
    match escalation o with
    | None => false
    | Some e =>
        always_notify e ||
        (truthy (threshold e) &&
         includes (toLowerCase (join " " (map response responses)))
                  (trim (toLowerCase (default "" (threshold e)))))
    end.
Proof.
  unfold requiresEscalation. destruct (escalation o) as [e|]; [|reflexivity].
  destruct (always_notify e); [reflexivity|].
  destruct (truthy (threshold e)); [|reflexivity].
  rewrite split_OR_toLowerCase. simpl. now rewrite orb_false_r.
Qed.

(** C1 (evaluation at the failing input).  With the threshold expression
    "casualties OR hostile" and a response text that contains "Hostile",
    the second term occurs in the responses, letter case ignored, and the
    rule of the specification asks for an escalation; [requiresEscalation]
    returns false, because it lower-cases the expression before it cuts it
    at " OR ". *)
Theorem requiresEscalation_misses_second_term :
  includes (toLowerCase (join " " (map response hostile_responses)))
           (toLowerCase "hostile") = true ∧
  requiresEscalation_spec hostile_order hostile_responses = true ∧
  requiresEscalation hostile_order hostile_responses = false.
Proof. repeat split; vm_compute; reflexivity. Qed.

Lemma log_logs (orderId action : string) (details : payload) (now : Z)
    (s : state) :
  logs (log orderId action details now s) =
    slice_last 1000
      (logs s ++ [{| log_orderId := orderId; log_action := action;
                     log_details := details; log_timestamp := now |}]).
Proof.
  unfold log, slice_last. simpl.
  destruct (Nat.ltb_spec 1000 (length (logs s ++
    [{| log_orderId := orderId; log_action := action;
        log_details := details; log_timestamp := now |}]))) as [Hlt|Hge].
  - reflexivity.
  - replace (_ - 1000)%nat with O by lia. reflexivity.
Qed.

Lemma checkTrigger_loop_skip (pre rest : list (string * order))
    (triggerName : string) (context : payload) (now : Z) (s : state) :
  Forall (fun e => trigger e.2 ≠ triggerName) pre →
  checkTrigger_loop (pre ++ rest) triggerName context now s =
    checkTrigger_loop rest triggerName context now s.
Proof.
  induction 1 as [|[k o] pre Hne _ IH]; simpl; [reflexivity|].
  simpl in Hne. destruct (decide (trigger o = triggerName)); [done|exact IH].
Qed.

(** C8.  [checkTrigger] fires the first configured order whose trigger is
    the given name: it returns true, the state it leaves has exactly one
    more order-fired event, that of this order with the context, and one
    more log entry (the log keeps its last 1000); when no order has that
    trigger it returns false and leaves the state, hence the event trace
    and the log, as they were. *)
Theorem checkTrigger_fires_first_match (s : state) (triggerName : string)
    (context : payload) (now : Z) :
  (∀ pre orderId o post,
      orders s = pre ++ (orderId, o) :: post →
      Forall (fun e => trigger e.2 ≠ triggerName) pre →
      trigger o = triggerName →
      ∃ s', checkTrigger triggerName context now s = (true, s') ∧
            orders s' = orders s ∧
            emitted s' = emitted s ++
              [{| fired_id := default orderId (own_id o);
                  fired_name := default orderId (own_name o);
                  fired_order := o; fired_context := context |}] ∧
            logs s' = slice_last 1000
              (logs s ++ [{| log_orderId := orderId; log_action := "triggered";
                             log_details := context; log_timestamp := now |}])) ∧
  (Forall (fun e => trigger e.2 ≠ triggerName) (orders s) →
      checkTrigger triggerName context now s = (false, s)).
Proof.
  split.
  - intros pre orderId o post Horders Hpre Ho.
    unfold checkTrigger. rewrite Horders, checkTrigger_loop_skip by exact Hpre.
    simpl. destruct (decide (trigger o = triggerName)); [|done].
    eexists. split; [reflexivity|].
    split; [simpl; now rewrite Horders|].
    split; [reflexivity|].
    change (logs (emit ?e ?x)) with (logs x). apply log_logs.
  - intros Hnone. unfold checkTrigger.
    rewrite <- (app_nil_r (orders s)).
    now rewrite checkTrigger_loop_skip.
Qed.

(** C8 on an instance: of two orders for the same trigger the first one
    fires; a trigger without an order fires nothing. *)
Lemma checkTrigger_fires_first_match_witness :
  (∃ s', checkTrigger "movement_detected_perimeter" "{}" 7 two_orders = (true, s') ∧
         orders s' = orders two_orders ∧
         map fired_id (emitted s') = ["perimeter_a"] ∧
         map log_orderId (logs s') = ["perimeter_a"]) ∧
  checkTrigger "emergency_declared" "{}" 7 two_orders = (false, two_orders).
Proof.
  split.
  - destruct (proj1 (checkTrigger_fires_first_match two_orders
                       "movement_detected_perimeter" "{}" 7)
                [("night_watch",
                  {| trigger := "time == 2200"; authority_level := 2;
                     actions := []; escalation := None; own_id := None;
                     own_name := None |})]
                "perimeter_a" _ _ eq_refl) as (s' & Hrun & Ho & He & Hl).
    + repeat constructor. simpl. discriminate.
    + reflexivity.
    + exists s'. split; [exact Hrun|]. split; [exact Ho|].
      rewrite He, Hl. split; reflexivity.
  - apply (proj2 (checkTrigger_fires_first_match two_orders
                    "emergency_declared" "{}" 7)).
    unfold two_orders; simpl. repeat constructor; simpl; discriminate.
Defined.


(** **** The log *)





(** [checkTrigger] in one equation: the first order with the trigger
    fires, if there is one. *)
Lemma checkTrigger_first (triggerName : string) (context : payload) (now : Z)
    (s : state) :
  checkTrigger triggerName context now s =
    match first_with_trigger triggerName (orders s) with
    | Some (orderId, o) =>
        (true,
         emit {| fired_id := default orderId (own_id o);
                 fired_name := default orderId (own_name o);
                 fired_order := o; fired_context := context |}
           (log orderId "triggered" context now s))
    | None => (false, s)
    end.
Proof.
  unfold checkTrigger, first_with_trigger.
  induction (orders s) as [|[k o] rest IH]; simpl; [reflexivity|].
  destruct (decide (trigger o = triggerName)) as [Ht|Ht].
  - now rewrite bool_decide_eq_true_2.
  - now rewrite bool_decide_eq_false_2.
Qed.

Lemma first_with_trigger_Some (triggerName : string)
    (entries : list (string * order)) (k : string) (o : order) :
  first_with_trigger triggerName entries = Some (k, o) →
  (k, o) ∈ entries ∧ trigger o = triggerName.
Proof.
  unfold first_with_trigger. intros Hf. apply find_some in Hf as [Hin Ht].
  split; [now apply list_elem_of_In|].
  now apply bool_decide_eq_true in Ht.
Qed.

Lemma checkTrigger_orders (triggerName : string) (context : payload)
    (now : Z) (s : state) :
  orders (checkTrigger triggerName context now s).2 = orders s.
Proof.
  rewrite checkTrigger_first.
  now destruct (first_with_trigger triggerName (orders s)) as [[k o]|].
Qed.

(** The maps of monitors after each call. *)
Lemma startTimeBasedMonitor_core (k : string) (e e' : engine) :
  startTimeBasedMonitor k e = Done e' →
  core e' = core e ∧ escalations e' = escalations e.
Proof.
  unfold startTimeBasedMonitor.
  destruct (find_order k (orders (core e))) as [o|].
  - destruct (time_match (trigger o)); intros [= <-]; now split.
  - destruct (bool_decide _); [discriminate|]. intros [= <-]. now split.
Qed.

Lemma initializeMonitors_loop_core (entries : list (string * order))
    (e e' : engine) :
  initializeMonitors_loop entries e = Done e' →
  core e' = core e ∧ escalations e' = escalations e.
Proof.
  revert e. induction entries as [|[k o] rest IH]; simpl; intros e.
  - intros [= <-]. now split.
  - destruct (includes (trigger o) "time =="); [|apply IH].
    destruct (startTimeBasedMonitor k e) as [e1|] eqn:Hstart; [|discriminate].
    intros Hloop. apply IH in Hloop as [-> ->].
    now apply (startTimeBasedMonitor_core k).
Qed.





(** **** Which order fires *)

Lemma engine_exec_orders (as_payload : escalation_event → payload)
    (c : engine_call) (e : engine) :
  orders (core (engine_exec as_payload c e)) = orders (core e).
Proof.
  destruct c; cbn [engine_exec].
  - apply checkTrigger_orders.
  - reflexivity.
  - destruct (startTimeBasedMonitor orderId e) as [e'|] eqn:Hs; [|reflexivity].
    apply startTimeBasedMonitor_core in Hs as [-> _]. reflexivity.
  - unfold stopMonitor. now destruct (activeMonitors e !! orderId).
  - destruct (initializeMonitors e) as [e'|] eqn:Hs; [|reflexivity].
    apply initializeMonitors_loop_core in Hs as [-> _]. reflexivity.
  - unfold interval_fires. destruct (intervals e !! h) as [m|]; [|reflexivity].
    destruct (decide _); [|reflexivity]. apply checkTrigger_orders.
Qed.

Lemma engine_run_orders (as_payload : escalation_event → payload)
    (cs : list engine_call) (e : engine) :
  orders (core (engine_run as_payload cs e)) = orders (core e).
Proof.
  revert e. induction cs as [|c cs IH]; intros e; [reflexivity|].
  cbn [engine_run fold_left]. unfold engine_run in IH. rewrite IH.
  apply engine_exec_orders.
Qed.

Lemma slice_last_elem {A} (n : nat) (l : list A) (x : A) :
  x ∈ slice_last n l → x ∈ l.
Proof.
  unfold slice_last. intros Hx.
  rewrite <- (take_drop (length l - n) l). apply elem_of_app. now right.
Qed.

Lemma fired_first_checkTrigger (t : string) (ctx : payload) (now : Z)
    (s : state) :
  fired_first (orders s) s →
  fired_first (orders s) (checkTrigger t ctx now s).2.
Proof.
  intros [Hem Hlog]. rewrite checkTrigger_first.
  destruct (first_with_trigger t (orders s)) as [[k o]|] eqn:Hfirst;
    [|now split].
  pose proof (first_with_trigger_Some _ _ _ _ Hfirst) as [_ Ht].
  cbn [snd]. split.
  - intros f Hf. cbn [emit emitted log] in Hf.
    apply elem_of_app in Hf as [Hf|Hf]; [now apply Hem|].
    apply list_elem_of_singleton in Hf as ->. cbn.
    exists k. rewrite Ht. now split.
  - intros x Hx Hact. change (logs (emit ?f ?y)) with (logs y) in Hx.
    rewrite log_logs in Hx. apply slice_last_elem in Hx.
    apply elem_of_app in Hx as [Hx|Hx]; [now apply Hlog|].
    apply list_elem_of_singleton in Hx as ->. cbn.
    exists o. now rewrite Ht.
Qed.

Lemma fired_first_exec (as_payload : escalation_event → payload)
    (c : engine_call) (e : engine) :
  fired_first (orders (core e)) (core e) →
  fired_first (orders (core e)) (core (engine_exec as_payload c e)).
Proof.
  intros Hok. destruct c; cbn [engine_exec].
  - cbn [set_core core]. now apply fired_first_checkTrigger.
  - cbn [escalate snd core]. destruct Hok as [Hem Hlog]. split; [exact Hem|].
    intros x Hx Hact. rewrite log_logs in Hx. apply slice_last_elem in Hx.
    apply elem_of_app in Hx as [Hx|Hx]; [now apply Hlog|].
    apply list_elem_of_singleton in Hx as ->. discriminate.
  - destruct (startTimeBasedMonitor orderId e) as [e'|] eqn:Hs; [|exact Hok].
    apply startTimeBasedMonitor_core in Hs as [-> _]. exact Hok.
  - unfold stopMonitor. now destruct (activeMonitors e !! orderId).
  - destruct (initializeMonitors e) as [e'|] eqn:Hs; [|exact Hok].
    apply initializeMonitors_loop_core in Hs as [-> _]. exact Hok.
  - unfold interval_fires. destruct (intervals e !! h) as [m|]; [|exact Hok].
    destruct (decide _); [|exact Hok].
    cbn [set_core core]. now apply fired_first_checkTrigger.
Qed.

Lemma fired_first_run (as_payload : escalation_event → payload)
    (cs : list engine_call) (e : engine) :
  fired_first (orders (core e)) (core e) →
  fired_first (orders (core e)) (core (engine_run as_payload cs e)).
Proof.
  revert e. induction cs as [|c cs IH]; intros e Hok; [exact Hok|].
  cbn [engine_run fold_left].
  rewrite <- (engine_exec_orders as_payload c e).
  apply IH. rewrite engine_exec_orders. now apply fired_first_exec.
Qed.

Lemma first_with_trigger_key (config : list (string * order))
    (k : string) (o o' : order) :
  NoDup (map fst config) → (k, o) ∈ config → (k, o') ∈ config → o = o'.
Proof.
  induction config as [|[k0 o0] rest IH]; simpl; intros Hnd H1 H2.
  - now apply elem_of_nil in H1.
  - apply NoDup_cons in Hnd as [Hk0 Hnd].
    assert (Hkey : ∀ x, (k0, x) ∈ rest → False).
    { intros x Hx. apply Hk0. apply list_elem_of_fmap. now exists (k0, x). }
    apply elem_of_cons in H1 as [H1|H1]; apply elem_of_cons in H2 as [H2|H2].
    + congruence.
    + injection H1 as -> ->. now destruct (Hkey o').
    + injection H2 as -> ->. now destruct (Hkey o).
    + now apply IH.
Qed.

(** X10.  An order that shares its trigger with an earlier order of the
    configuration never fires: whatever calls the engine receives (manual
    triggers, escalations, monitors started and stopped, interval ticks),
    no "triggered" log entry names it, and every order-fired event with its
    trigger carries the earlier order. *)
Theorem shadowed_order_never_fires (as_payload : escalation_event → payload)
    (config : list (string * order)) (cs : list engine_call)
    (k1 k2 : string) (o1 o2 : order) :
  NoDup (map fst config) →
  (k2, o2) ∈ config →
  first_with_trigger (trigger o2) config = Some (k1, o1) →
  k1 ≠ k2 →
  let e := engine_run as_payload cs (start_engine config) in
  (∀ x, x ∈ logs (core e) → log_action x = "triggered" → log_orderId x ≠ k2) ∧
  (∀ f, f ∈ emitted (core e) → trigger (fired_order f) = trigger o2 →
        fired_order f = o1 ∧ fired_id f = default k1 (own_id o1)).
Proof.
  intros Hnd Hin Hfirst Hne e.
  assert (Hok : fired_first config (core e)).
  { apply (fired_first_run as_payload cs (start_engine config)).
    split; intros ? Hx; now apply elem_of_nil in Hx. }
  destruct Hok as [Hem Hlog]. split.
  - intros x Hx Hact Hk. destruct (Hlog x Hx Hact) as (o & Ho).
    pose proof (first_with_trigger_Some _ _ _ _ Ho) as [Hino _].
    rewrite Hk in Hino, Ho.
    rewrite (first_with_trigger_key config k2 o o2 Hnd Hino Hin) in Ho.
    rewrite Hfirst in Ho. congruence.
  - intros f Hf Ht. destruct (Hem f Hf) as (k & Hk & Hid).
    rewrite Ht, Hfirst in Hk. injection Hk as Hk1 Hk2.
    rewrite <- Hk2 in Hid |- *. rewrite Hk1. now split.
Qed.

(** X10 on an instance: the second order for 06:00. *)
Lemma shadowed_order_never_fires_witness :
  let e := engine_run (fun _ => "{}")
             [InitializeMonitors; IntervalFires 0 6 0 100;
              IntervalFires 2 6 0 101; CheckTrigger "time == 0600" "{}" 102]
             (start_engine schedule) in
  map log_orderId (logs (core e)) = ["reveille"; "reveille"; "reveille"] ∧
  Forall (fun x => log_action x = "triggered" →
                   log_orderId x ≠ "reveille_backup") (logs (core e)).
Proof.
  intros e. split; [vm_compute; reflexivity|].
  apply Forall_forall.
  apply (shadowed_order_never_fires (fun _ => "{}") schedule _
           "reveille" "reveille_backup" (timed "time == 0600")
           (timed "time == 0600")).
  - apply (bool_decide_unpack (NoDup (map fst schedule))). vm_compute. exact I.
  - unfold schedule. rewrite !elem_of_cons. tauto.
  - vm_compute. reflexivity.
  - discriminate.
Defined.

(** **** Time-based monitors *)

Lemma find_order_elem (k : string) (entries : list (string * order))
    (o : order) :
  find_order k entries = Some o → (k, o) ∈ entries.
Proof.
  induction entries as [|[k0 o0] rest IH]; simpl; [discriminate|].
  destruct (decide (k0 = k)) as [->|Hne].
  - intros [= ->]. apply list_elem_of_here.
  - intros Hf. apply list_elem_of_further. now apply IH.
Qed.


(** The three outcomes of [startTimeBasedMonitor]. *)
Lemma startTimeBasedMonitor_cases (k : string) (e : engine) :
  (find_order k (orders (core e)) = None ∧ k ∈ prototype_keys ∧
   ∃ msg, startTimeBasedMonitor k e = Throws msg) ∨
  ((find_order k (orders (core e)) = None ∨
    ∃ o, find_order k (orders (core e)) = Some o ∧
         time_match (trigger o) = None) ∧
   startTimeBasedMonitor k e = Done e) ∨
  (∃ o t, find_order k (orders (core e)) = Some o ∧
          time_match (trigger o) = Some t ∧
          startTimeBasedMonitor k e =
            Done {| core := core e; escalations := escalations e;
                    activeMonitors := <[k := next_interval e]> (activeMonitors e);
                    intervals :=
                      <[next_interval e := {| mon_trigger := trigger o;
                                              mon_target := t |}]> (intervals e);
                    next_interval := S (next_interval e) |}).
Proof.
  unfold startTimeBasedMonitor.
  destruct (find_order k (orders (core e))) as [o|] eqn:Hfind.
  - destruct (time_match (trigger o)) as [t|] eqn:Ht.
    + right. right. now exists o, t.
    + right. left. split; [right; now exists o | reflexivity].
  - destruct (bool_decide (k ∈ prototype_keys)) eqn:Hk.
    + left. apply bool_decide_eq_true in Hk. eauto.
    + right. left. split; [now left | reflexivity].
Qed.

Lemma monitors_ok_core (s : state) (e : engine) :
  orders s = orders (core e) → monitors_ok e → monitors_ok (set_core s e).
Proof.
  intros Ho (H1 & H2 & H3 & H4). repeat split; try assumption.
  cbn [set_core core intervals]. rewrite Ho. exact H4.
Qed.

Lemma monitors_ok_start (k : string) (e e' : engine) :
  monitors_ok e → startTimeBasedMonitor k e = Done e' → monitors_ok e'.
Proof.
  intros (H1 & H2 & H3 & H4) Hs.
  destruct (startTimeBasedMonitor_cases k e)
    as [(_ & _ & msg & Hthrow)|[[_ Hsame]|(o & t & Hfind & Ht & Hnew)]].
  - congruence.
  - rewrite Hsame in Hs. injection Hs as <-. now repeat split.
  - rewrite Hnew in Hs. injection Hs as <-.
    assert (Hfresh : intervals e !! next_interval e = None).
    { destruct (intervals e !! next_interval e) eqn:Hl; [|reflexivity].
      assert (next_interval e < next_interval e)%nat by (apply H1; eauto). lia. }
    repeat split; cbn [intervals activeMonitors next_interval core].
    + intros h Hh. destruct (decide (h = next_interval e)) as [->|Hne]; [lia|].
      rewrite lookup_insert_ne in Hh by done. apply H1 in Hh. lia.
    + intros k' h Hk'. apply lookup_insert_Some in Hk' as [[_ <-]|[_ Hk']].
      * rewrite lookup_insert_eq. eauto.
      * pose proof (H2 _ _ Hk') as Hlive.
        rewrite lookup_insert_ne; [exact Hlive|].
        intros <-. rewrite Hfresh in Hlive. now destruct Hlive.
    + intros k1 k2 h Hk1 Hk2.
      apply lookup_insert_Some in Hk1 as [[<- <-]|[Hn1 Hk1]];
        apply lookup_insert_Some in Hk2 as [[<- Heq]|[Hn2 Hk2]]; try done.
      * apply H2 in Hk2. rewrite Hfresh in Hk2. now destruct Hk2.
      * subst h. apply H2 in Hk1. rewrite Hfresh in Hk1. now destruct Hk1.
      * eauto.
    + intros h m Hm. apply lookup_insert_Some in Hm as [[_ <-]|[_ Hm]]; [|eauto].
      exists k, o. split; [now apply find_order_elem|]. now split.
Qed.

Lemma monitors_ok_stop (k : string) (e : engine) :
  monitors_ok e → monitors_ok (stopMonitor k e).
Proof.
  intros (H1 & H2 & H3 & H4). unfold stopMonitor.
  destruct (activeMonitors e !! k) as [h0|] eqn:Hk; [|now repeat split].
  repeat split; cbn [intervals activeMonitors next_interval core].
  - intros h [m Hh]. apply lookup_delete_Some in Hh as [_ Hh]. apply H1. eauto.
  - intros k' h Hk'. apply lookup_delete_Some in Hk' as [Hne Hk'].
    rewrite lookup_delete_ne; [eauto|]. intros <-. apply Hne. eauto.
  - intros k1 k2 h Hk1 Hk2.
    apply lookup_delete_Some in Hk1 as [_ Hk1].
    apply lookup_delete_Some in Hk2 as [_ Hk2]. eauto.
  - intros h m Hm. apply lookup_delete_Some in Hm as [_ Hm]. eauto.
Qed.

Lemma monitors_ok_loop (entries : list (string * order)) (e e' : engine) :
  monitors_ok e → initializeMonitors_loop entries e = Done e' →
  monitors_ok e'.
Proof.
  revert e. induction entries as [|[k o] rest IH]; simpl; intros e Hok.
  - now intros [= <-].
  - destruct (includes (trigger o) "time =="); [|now apply IH].
    destruct (startTimeBasedMonitor k e) as [e1|] eqn:Hs; [|discriminate].
    apply IH. now apply (monitors_ok_start k e).
Qed.

Lemma monitors_ok_exec (as_payload : escalation_event → payload)
    (c : engine_call) (e : engine) :
  monitors_ok e → monitors_ok (engine_exec as_payload c e).
Proof.
  intros Hok. destruct c; cbn [engine_exec].
  - apply monitors_ok_core; [apply checkTrigger_orders | exact Hok].
  - destruct Hok as (H1 & H2 & H3 & H4). now repeat split.
  - destruct (startTimeBasedMonitor orderId e) as [e'|] eqn:Hs; [|exact Hok].
    now apply (monitors_ok_start orderId e).
  - now apply monitors_ok_stop.
  - destruct (initializeMonitors e) as [e'|] eqn:Hs; [|exact Hok].
    now apply (monitors_ok_loop (orders (core e)) e).
  - unfold interval_fires. destruct (intervals e !! h) as [m|]; [|exact Hok].
    destruct (decide _); [|exact Hok].
    apply monitors_ok_core; [apply checkTrigger_orders | exact Hok].
Qed.

Lemma monitors_ok_run (as_payload : escalation_event → payload)
    (cs : list engine_call) (e : engine) :
  monitors_ok e → monitors_ok (engine_run as_payload cs e).
Proof.
  revert e. induction cs as [|c cs IH]; intros e Hok; [exact Hok|].
  cbn [engine_run fold_left]. apply IH. now apply monitors_ok_exec.
Qed.

Lemma monitors_ok_start_engine (config : list (string * order)) :
  monitors_ok (start_engine config).
Proof.
  repeat split; cbn.
  - intros h [m Hm]. now apply lookup_empty_Some in Hm.
  - intros k h Hk. now apply lookup_empty_Some in Hk.
  - intros k1 k2 h Hk. now apply lookup_empty_Some in Hk.
  - intros h m Hm. now apply lookup_empty_Some in Hm.
Qed.





(** The clock text of a time of day denotes that time. *)
Lemma time_of_day_currentTime (hours minutes : nat) :
  (hours < 24)%nat → (minutes < 60)%nat →
  time_of_day (currentTime hours minutes) = Some (hours, minutes).
Proof.
  intros Hh Hm.
  assert (Hall : forallb (fun hh =>
                   forallb (fun mm =>
                     bool_decide (time_of_day (currentTime hh mm) = Some (hh, mm)))
                     (seq 0 60)) (seq 0 24) = true)
    by (vm_compute; reflexivity).
  rewrite forallb_forall in Hall.
  specialize (Hall hours). rewrite in_seq in Hall.
  specialize (Hall ltac:(lia)). rewrite forallb_forall in Hall.
  specialize (Hall minutes). rewrite in_seq in Hall.
  specialize (Hall ltac:(lia)). now apply bool_decide_eq_true in Hall.
Qed.

Lemma digit_of_value (c : ascii) :
  is_digit c = true → c = ascii_of_nat (48 + digit_value c).
Proof.
  destruct c as [[] [] [] [] [] [] [] []]; vm_compute; intros H;
    try discriminate; reflexivity.
Qed.

Lemma is_digit_value (c : ascii) :
  is_digit c = true → (digit_value c < 10)%nat.
Proof.
  destruct c as [[] [] [] [] [] [] [] []]; vm_compute; intros H;
    try discriminate; lia.
Qed.

(** Four digits are determined by the time of day they denote. *)
Lemma time_of_day_inj (t t' : string) (hm : nat * nat) :
  time_of_day t = Some hm → time_of_day t' = Some hm → t = t'.
Proof.
  assert (Hshape : ∀ s hm', time_of_day s = Some hm' →
    ∃ a b c d, s = String a (String b (String c (String d EmptyString))) ∧
      is_digit a = true ∧ is_digit b = true ∧ is_digit c = true ∧
      is_digit d = true ∧
      hm' = ((10 * digit_value a + digit_value b)%nat,
             (10 * digit_value c + digit_value d)%nat)).
  { intros s hm' Hs. unfold time_of_day in Hs.
    destruct s as [|a [|b [|c [|d [|? ?]]]]]; try discriminate.
    destruct (is_digit a) eqn:Ha; [|discriminate].
    destruct (is_digit b) eqn:Hb; [|discriminate].
    destruct (is_digit c) eqn:Hc; [|discriminate].
    destruct (is_digit d) eqn:Hd; [|discriminate].
    cbn [andb] in Hs.
    destruct (_ <? 24)%nat; [|discriminate].
    destruct (_ <? 60)%nat; [|discriminate].
    injection Hs as <-. exists a, b, c, d. repeat split; assumption. }
  intros Ht Ht'.
  destruct (Hshape t hm Ht) as (a & b & c & d & -> & Ha & Hb & Hc & Hd & ->).
  destruct (Hshape t' _ Ht')
    as (a' & b' & c' & d' & -> & Ha' & Hb' & Hc' & Hd' & Heq).
  injection Heq as Hh Hm.
  pose proof (is_digit_value _ Ha). pose proof (is_digit_value _ Hb).
  pose proof (is_digit_value _ Hc). pose proof (is_digit_value _ Hd).
  pose proof (is_digit_value _ Ha'). pose proof (is_digit_value _ Hb').
  pose proof (is_digit_value _ Hc'). pose proof (is_digit_value _ Hd').
  rewrite (digit_of_value a Ha), (digit_of_value b Hb),
    (digit_of_value c Hc), (digit_of_value d Hd),
    (digit_of_value a' Ha'), (digit_of_value b' Hb'),
    (digit_of_value c' Hc'), (digit_of_value d' Hd').
  replace (digit_value a') with (digit_value a) by lia.
  replace (digit_value b') with (digit_value b) by lia.
  replace (digit_value c') with (digit_value c) by lia.
  replace (digit_value d') with (digit_value d) by lia.
  reflexivity.
Qed.

Lemma currentTime_iff (hours minutes : nat) (t : string) :
  (hours < 24)%nat → (minutes < 60)%nat →
  currentTime hours minutes = t ↔ time_of_day t = Some (hours, minutes).
Proof.
  intros Hh Hm. split.
  - intros <-. now apply time_of_day_currentTime.
  - intros Ht. apply (time_of_day_inj _ _ (hours, minutes)); [|exact Ht].
    now apply time_of_day_currentTime.
Qed.

(** X12.  A live interval was started for a configured order and carries
    that order's trigger and four digits.  When its callback runs at a time
    of day other than the one its digits denote, nothing changes; digits
    that denote no time of day (an hour above 23, a minute above 59) never
    fire.  At its minute it fires the first configured order with the same
    trigger: one order-fired event with the scheduled time as context, one
    "triggered" log entry. *)
Theorem interval_fires_at_its_minute (as_payload : escalation_event → payload)
    (config : list (string * order)) (cs : list engine_call)
    (h : nat) (m : monitor) :
  let e := engine_run as_payload cs (start_engine config) in
  intervals e !! h = Some m →
  (∃ k o, (k, o) ∈ config ∧ trigger o = mon_trigger m ∧
          time_match (trigger o) = Some (mon_target m)) ∧
  ∀ hours minutes now, (hours < 24)%nat → (minutes < 60)%nat →
    (time_of_day (mon_target m) ≠ Some (hours, minutes) →
     interval_fires h hours minutes now e = e) ∧
    (time_of_day (mon_target m) = Some (hours, minutes) →
     ∃ k1 o1, first_with_trigger (mon_trigger m) config = Some (k1, o1) ∧
       interval_fires h hours minutes now e =
         set_core
           (emit {| fired_id := default k1 (own_id o1);
                    fired_name := default k1 (own_name o1);
                    fired_order := o1;
                    fired_context := scheduled_context (mon_target m) |}
              (log k1 "triggered" (scheduled_context (mon_target m)) now
                 (core e))) e).
Proof.
  intros e Hm.
  assert (Hok : monitors_ok e).
  { apply monitors_ok_run, monitors_ok_start_engine. }
  assert (Hcfg : orders (core e) = config).
  { unfold e. now rewrite engine_run_orders. }
  destruct Hok as (_ & _ & _ & H4).
  destruct (H4 h m Hm) as (k & o & Hin & Htr & Htm). rewrite Hcfg in Hin.
  split; [exists k, o; now repeat split|].
  intros hours minutes now Hh Hmin. unfold interval_fires. rewrite Hm.
  pose proof (currentTime_iff hours minutes (mon_target m) Hh Hmin) as Hiff.
  split.
  - intros Hne. destruct (decide _) as [Heq|_]; [|reflexivity].
    now apply Hiff in Heq.
  - intros Heq. rewrite decide_True by now apply Hiff.
    rewrite checkTrigger_first, Hcfg.
    destruct (first_with_trigger (mon_trigger m) config) as [[k1 o1]|] eqn:Hf.
    + now exists k1, o1.
    + exfalso. unfold first_with_trigger in Hf.
      pose proof (find_none _ _ Hf (k, o)) as Hno. cbn in Hno.
      rewrite bool_decide_eq_true_2 in Hno by congruence.
      apply list_elem_of_In in Hin. specialize (Hno Hin). discriminate.
Qed.

(** X12 on an instance: the interval of "time == 2460" exists and does
    nothing at 23:59; that of "reveille" fires at 06:00. *)
Lemma interval_fires_at_its_minute_witness :
  let e := engine_run (fun _ => "{}") [InitializeMonitors]
             (start_engine schedule) in
  interval_fires 1 23 59 7 e = e ∧
  map fired_id (emitted (core (interval_fires 0 6 0 7 e))) = ["reveille"].
Proof.
  intros e. split.
  - apply (interval_fires_at_its_minute (fun _ => "{}") schedule
             [InitializeMonitors] 1%nat
             {| mon_trigger := "time == 2460"; mon_target := "2460" |}
             eq_refl); [lia | lia | discriminate].
  - vm_compute. reflexivity.
Defined.

(** **** Starting a monitor again *)

Lemma orphan_start (k : string) (e e' : engine) (h : nat) (m : monitor) :
  monitors_ok e → startTimeBasedMonitor k e = Done e' →
  intervals e !! h = Some m → (∀ k', activeMonitors e !! k' ≠ Some h) →
  intervals e' !! h = Some m ∧ ∀ k', activeMonitors e' !! k' ≠ Some h.
Proof.
  intros (H1 & _) Hs Hm Hfree.
  assert (Hlt : (h < next_interval e)%nat) by (apply H1; eauto).
  destruct (startTimeBasedMonitor_cases k e)
    as [(_ & _ & msg & Hthrow)|[[_ Hsame]|(o & t & _ & _ & Hnew)]].
  - congruence.
  - rewrite Hsame in Hs. injection Hs as <-. now split.
  - rewrite Hnew in Hs. injection Hs as <-.
    cbn [intervals activeMonitors]. split.
    + rewrite lookup_insert_ne by lia. exact Hm.
    + intros k' Hk'. apply lookup_insert_Some in Hk' as [[_ Heq]|[_ Hk']];
        [lia | now apply (Hfree k')].
Qed.

Lemma orphan_loop (entries : list (string * order)) (e e' : engine)
    (h : nat) (m : monitor) :
  monitors_ok e → initializeMonitors_loop entries e = Done e' →
  intervals e !! h = Some m → (∀ k', activeMonitors e !! k' ≠ Some h) →
  intervals e' !! h = Some m ∧ ∀ k', activeMonitors e' !! k' ≠ Some h.
Proof.
  revert e. induction entries as [|[k o] rest IH]; simpl; intros e Hok.
  - intros [= <-]. now split.
  - destruct (includes (trigger o) "time =="); [|now apply IH].
    destruct (startTimeBasedMonitor k e) as [e1|] eqn:Hs; [|discriminate].
    intros Hloop Hm Hfree.
    destruct (orphan_start k e e1 h m Hok Hs Hm Hfree) as [Hm1 Hfree1].
    apply (IH e1); try assumption. now apply (monitors_ok_start k e).
Qed.

Lemma orphan_exec (as_payload : escalation_event → payload)
    (c : engine_call) (e : engine) (h : nat) (m : monitor) :
  monitors_ok e →
  intervals e !! h = Some m → (∀ k', activeMonitors e !! k' ≠ Some h) →
  intervals (engine_exec as_payload c e) !! h = Some m ∧
  ∀ k', activeMonitors (engine_exec as_payload c e) !! k' ≠ Some h.
Proof.
  intros Hok Hm Hfree. destruct c; cbn [engine_exec].
  - now split.
  - now split.
  - destruct (startTimeBasedMonitor orderId e) as [e'|] eqn:Hs; [|now split].
    now apply (orphan_start orderId e).
  - unfold stopMonitor.
    destruct (activeMonitors e !! orderId) as [h'|] eqn:Hk; [|now split].
    cbn [intervals activeMonitors]. split.
    + rewrite lookup_delete_ne; [exact Hm|]. intros ->. now apply (Hfree orderId).
    + intros k' Hk'. apply lookup_delete_Some in Hk' as [_ Hk'].
      now apply (Hfree k').
  - destruct (initializeMonitors e) as [e'|] eqn:Hs; [|now split].
    now apply (orphan_loop (orders (core e)) e).
  - unfold interval_fires. destruct (intervals e !! h0) as [m0|]; [|now split].
    destruct (decide _); now split.
Qed.

Lemma orphan_run (as_payload : escalation_event → payload)
    (cs : list engine_call) (e : engine) (h : nat) (m : monitor) :
  monitors_ok e →
  intervals e !! h = Some m → (∀ k', activeMonitors e !! k' ≠ Some h) →
  intervals (engine_run as_payload cs e) !! h = Some m ∧
  ∀ k', activeMonitors (engine_run as_payload cs e) !! k' ≠ Some h.
Proof.
  revert e. induction cs as [|c cs IH]; intros e Hok Hm Hfree; [now split|].
  cbn [engine_run fold_left].
  destruct (orphan_exec as_payload c e h m Hok Hm Hfree) as [Hm1 Hfree1].
  apply IH; try assumption. now apply monitors_ok_exec.
Qed.

(** X13.  Starting the monitor of an order that already has one registers
    a new interval and leaves the earlier one running, and nothing can stop
    the earlier one any more: after any further calls, [stopMonitor]
    included, it is still live and no order is registered with it. *)
Theorem restarted_monitor_keeps_its_interval
    (as_payload : escalation_event → payload)
    (config : list (string * order)) (cs : list engine_call)
    (k : string) (h0 : nat) (o : order) (t : string) :
  let e := engine_run as_payload cs (start_engine config) in
  activeMonitors e !! k = Some h0 →
  find_order k config = Some o → time_match (trigger o) = Some t →
  ∃ e1 m0, startTimeBasedMonitor k e = Done e1 ∧
    intervals e !! h0 = Some m0 ∧
    activeMonitors e1 !! k = Some (next_interval e) ∧
    next_interval e ≠ h0 ∧
    ∀ cs', let e2 := engine_run as_payload cs' e1 in
      intervals e2 !! h0 = Some m0 ∧
      ∀ k', activeMonitors e2 !! k' ≠ Some h0.
Proof.
  intros e Hk Hfind Ht.
  assert (Hok : monitors_ok e).
  { apply monitors_ok_run, monitors_ok_start_engine. }
  assert (Hcfg : orders (core e) = config).
  { unfold e. now rewrite engine_run_orders. }
  pose proof Hok as (H1 & H2 & H3 & _).
  destruct (H2 k h0 Hk) as [m0 Hm0].
  assert (Hlt : (h0 < next_interval e)%nat) by (apply H1; eauto).
  assert (Hs : startTimeBasedMonitor k e =
    Done {| core := core e; escalations := escalations e;
            activeMonitors := <[k := next_interval e]> (activeMonitors e);
            intervals := <[next_interval e := {| mon_trigger := trigger o;
                                                 mon_target := t |}]>
                           (intervals e);
            next_interval := S (next_interval e) |}).
  { unfold startTimeBasedMonitor. now rewrite Hcfg, Hfind, Ht. }
  eexists _, m0. split; [exact Hs|]. split; [exact Hm0|].
  split; [apply lookup_insert_eq|]. split; [lia|].
  intros cs'. apply orphan_run.
  - now apply (monitors_ok_start k e).
  - cbn [intervals]. rewrite lookup_insert_ne by lia. exact Hm0.
  - intros k' Hk'. cbn [activeMonitors] in Hk'.
    apply lookup_insert_Some in Hk' as [[_ Heq]|[Hne Hk']]; [lia|].
    apply Hne. now apply (H3 k k' h0).
Qed.

(** X13 on an instance: "reveille" is started again and then stopped;
    its first interval stays. *)
Lemma restarted_monitor_keeps_its_interval_witness :
  let e := engine_run (fun _ => "{}") [InitializeMonitors]
             (start_engine schedule) in
  ∃ e1 m0, startTimeBasedMonitor "reveille" e = Done e1 ∧
    intervals (engine_run (fun _ => "{}") [StopMonitor "reveille"] e1) !! 0%nat
      = Some m0 ∧
    activeMonitors (engine_run (fun _ => "{}") [StopMonitor "reveille"] e1)
      !! "reveille" = None.
Proof.
  intros e.
  destruct (restarted_monitor_keeps_its_interval (fun _ => "{}") schedule
              [InitializeMonitors] "reveille" 0%nat (timed "time == 0600")
              "0600" eq_refl eq_refl eq_refl)
    as (e1 & m0 & Hs & _ & _ & _ & Hkeep).
  exists e1, m0. split; [exact Hs|].
  split; [apply (Hkeep [StopMonitor "reveille"])|].
  fold e in Hs. vm_compute in Hs. injection Hs as <-. vm_compute. reflexivity.
Defined.

End StandingOrdersFacts.

(** *** Alerts *)

Module AlertSystemFacts.
Import JsString AlertSystem.

(** **** The live map *)

Lemma map_get_set_eq {A} (k : string) (v : A) (m : list (string * A)) :
  map_get k (map_set k v m) = Some v.
Proof.
  induction m as [|[k' v'] m IH]; simpl.
  - now rewrite decide_True.
  - destruct (decide (k' = k)) as [->|Hne]; simpl.
    + now rewrite decide_True.
    + now rewrite decide_False.
Qed.

Lemma map_get_set_ne {A} (k k' : string) (v : A) (m : list (string * A)) :
  k ≠ k' → map_get k' (map_set k v m) = map_get k' m.
Proof.
  intros Hne. induction m as [|[k0 v0] m IH]; simpl.
  - now rewrite decide_False.
  - destruct (decide (k0 = k)) as [->|Hk]; simpl.
    + now rewrite !decide_False.
    + now rewrite IH.
Qed.

Lemma map_get_delete_ne {A} (k k' : string) (m : list (string * A)) :
  k ≠ k' → map_get k' (map_delete k m) = map_get k' m.
Proof.
  intros Hne. induction m as [|[k0 v0] m IH]; simpl; [reflexivity|].
  destruct (decide (k0 = k)) as [->|Hk]; simpl.
  - now rewrite decide_False.
  - now rewrite IH.
Qed.

Lemma map_get_None {A} (k : string) (m : list (string * A)) :
  map_get k m = None ↔ k ∉ map fst m.
Proof.
  induction m as [|[k0 v0] m IH]; simpl.
  - split; [intros _; apply not_elem_of_nil | reflexivity].
  - rewrite not_elem_of_cons. destruct (decide (k0 = k)) as [->|Hk].
    + split; [discriminate | intros [Hk _]; done].
    + rewrite IH. split; [intros ?; split; [congruence|done] | now intros [_ ?]].
Qed.

Lemma map_get_delete_eq {A} (k : string) (m : list (string * A)) :
  NoDup (map fst m) → map_get k (map_delete k m) = None.
Proof.
  induction m as [|[k0 v0] m IH]; simpl; [reflexivity|].
  intros Hnd. apply NoDup_cons in Hnd as [Hk0 Hnd].
  destruct (decide (k0 = k)) as [->|Hk]; simpl.
  - now apply map_get_None.
  - rewrite decide_False by done. now apply IH.
Qed.

Lemma keys_set_live {A} (k : string) (v : A) (m : list (string * A)) :
  is_Some (map_get k m) → map fst (map_set k v m) = map fst m.
Proof.
  induction m as [|[k0 v0] m IH]; simpl.
  - intros [? ?]; discriminate.
  - destruct (decide (k0 = k)) as [->|Hk]; simpl; [reflexivity|].
    intros Hs. now rewrite IH.
Qed.

Lemma keys_set_new {A} (k : string) (v : A) (m : list (string * A)) :
  map_get k m = None → map fst (map_set k v m) = map fst m ++ [k].
Proof.
  induction m as [|[k0 v0] m IH]; simpl; [reflexivity|].
  destruct (decide (k0 = k)) as [->|Hk]; simpl; [discriminate|].
  intros Hn. now rewrite IH.
Qed.

Lemma keys_set_nodup {A} (k : string) (v : A) (m : list (string * A)) :
  NoDup (map fst m) → NoDup (map fst (map_set k v m)).
Proof.
  intros Hnd. destruct (map_get k m) as [x|] eqn:Hget.
  - now rewrite keys_set_live by (rewrite Hget; eauto).
  - rewrite keys_set_new by done.
    apply NoDup_app. split; [done|]. split; [|apply NoDup_singleton].
    intros x Hx Hx'. apply list_elem_of_singleton in Hx' as ->.
    now apply map_get_None in Hget.
Qed.

Lemma keys_delete_sub {A} (k k' : string) (m : list (string * A)) :
  k' ∈ map fst (map_delete k m) → k' ∈ map fst m.
Proof.
  induction m as [|[k0 v0] m IH]; simpl; [done|].
  destruct (decide (k0 = k)) as [->|Hk]; simpl.
  - intros ?. now apply list_elem_of_further.
  - rewrite !elem_of_cons. intros [->|?]; [now left | right; auto].
Qed.

Lemma keys_delete_nodup {A} (k : string) (m : list (string * A)) :
  NoDup (map fst m) → NoDup (map fst (map_delete k m)).
Proof.
  induction m as [|[k0 v0] m IH]; simpl; [done|].
  intros Hnd. apply NoDup_cons in Hnd as [Hk0 Hnd].
  destruct (decide (k0 = k)) as [->|Hk]; simpl; [done|].
  apply NoDup_cons. split; [|now apply IH].
  intros Hin. apply Hk0. now apply keys_delete_sub in Hin.
Qed.

Lemma map_get_elem {A} (k : string) (v : A) (m : list (string * A)) :
  map_get k m = Some v → (k, v) ∈ m.
Proof.
  induction m as [|[k0 v0] m IH]; simpl; [discriminate|].
  destruct (decide (k0 = k)) as [->|Hk].
  - intros [= ->]. apply list_elem_of_here.
  - intros ?. apply list_elem_of_further. auto.
Qed.

Lemma elem_map_get {A} (v : A) (m : list (string * A)) :
  v ∈ map snd m → ∃ k, (k, v) ∈ m.
Proof.
  intros Hin. apply list_elem_of_fmap in Hin as [[k v'] [-> Hin]].
  now exists k.
Qed.

Lemma elem_nodup_map_get {A} (k : string) (v : A) (m : list (string * A)) :
  NoDup (map fst m) → (k, v) ∈ m → map_get k m = Some v.
Proof.
  induction m as [|[k0 v0] m IH]; simpl.
  - intros _ Hin. now apply elem_of_nil in Hin.
  - intros Hnd Hin. apply NoDup_cons in Hnd as [Hk0 Hnd].
    apply elem_of_cons in Hin as [[= -> ->]|Hin].
    + now rewrite decide_True.
    + destruct (decide (k0 = k)) as [->|Hk]; [|now apply IH].
      exfalso. apply Hk0. apply list_elem_of_fmap. now exists (k, v).
Qed.

(** **** What the timer bookkeeping leaves alone *)

Lemma clearEscalation_alerts (k : string) (s : state) :
  alerts (clearEscalation k s) = alerts s.
Proof. unfold clearEscalation. now destruct (escalationTimers s !! k). Qed.

Lemma clearEscalation_history (k : string) (s : state) :
  history (clearEscalation k s) = history s.
Proof. unfold clearEscalation. now destruct (escalationTimers s !! k). Qed.

Lemma clearEscalation_emitted (k : string) (s : state) :
  emitted (clearEscalation k s) = emitted s.
Proof. unfold clearEscalation. now destruct (escalationTimers s !! k). Qed.

Lemma clearEscalation_next_handle (k : string) (s : state) :
  next_handle (clearEscalation k s) = next_handle s.
Proof. unfold clearEscalation. now destruct (escalationTimers s !! k). Qed.

Lemma setupEscalation_alerts (a : alert) (s : state) :
  alerts (setupEscalation a s) = alerts s.
Proof.
  unfold setupEscalation.
  destruct (timeout_of (priority a)), (negb (acknowledged a)); simpl;
    apply clearEscalation_alerts.
Qed.

Lemma setupEscalation_history (a : alert) (s : state) :
  history (setupEscalation a s) = history s.
Proof.
  unfold setupEscalation.
  destruct (timeout_of (priority a)), (negb (acknowledged a)); simpl;
    apply clearEscalation_history.
Qed.

Lemma setupEscalation_emitted (a : alert) (s : state) :
  emitted (setupEscalation a s) = emitted s.
Proof.
  unfold setupEscalation.
  destruct (timeout_of (priority a)), (negb (acknowledged a)); simpl;
    apply clearEscalation_emitted.
Qed.

Lemma create_alerts (o : options) (uuid : string) (now : Z) (s : state) :
  alerts (create o uuid now s).2 = map_set uuid (new_alert o uuid now) (alerts s).
Proof.
  unfold create. simpl.
  destruct (default true (opt_autoEscalate o) && _); simpl;
    [now rewrite setupEscalation_alerts | reflexivity].
Qed.

Lemma create_history (o : options) (uuid : string) (now : Z) (s : state) :
  history (create o uuid now s).2 = history s.
Proof.
  unfold create. simpl.
  destruct (default true (opt_autoEscalate o) && _); simpl;
    [now rewrite setupEscalation_history | reflexivity].
Qed.

(** **** Sorting *)

Lemma sort_insert_perm {A} (cmp : A → A → Z) (x : A) (l : list A) :
  sort_insert cmp x l ≡ₚ x :: l.
Proof.
  induction l as [|y l IH]; simpl; [reflexivity|].
  destruct (0 <? cmp x y); [|reflexivity].
  rewrite IH. apply Permutation_swap.
Qed.

Lemma js_sort_perm {A} (cmp : A → A → Z) (l : list A) : js_sort cmp l ≡ₚ l.
Proof.
  induction l as [|x l IH]; simpl; [reflexivity|].
  now rewrite sort_insert_perm, IH.
Qed.

Section Sorted.
Context {A : Type} (cmp : A → A → Z).
Hypothesis cmp_flip : ∀ x y, 0 < cmp x y → cmp y x <= 0.
Hypothesis cmp_trans : ∀ x y z, cmp x y <= 0 → cmp y z <= 0 → cmp x z <= 0.

Lemma sort_insert_sorted (x : A) (l : list A) :
  StronglySorted (fun a b => cmp a b <= 0) l →
  StronglySorted (fun a b => cmp a b <= 0) (sort_insert cmp x l).
Proof.
  induction l as [|y l IH]; simpl; intros Hs.
  - repeat constructor.
  - apply StronglySorted_inv in Hs as [Hl Hy].
    destruct (Z.ltb_spec 0 (cmp x y)) as [Hlt|Hge].
    + constructor; [now apply IH|].
      rewrite sort_insert_perm. constructor; [now apply cmp_flip | exact Hy].
    + constructor; [now constructor|].
      constructor; [exact Hge|].
      eapply Forall_impl; [exact Hy|]. intros z Hz. simpl in Hz.
      now apply cmp_trans with y.
Qed.

Lemma js_sort_sorted (l : list A) :
  StronglySorted (fun a b => cmp a b <= 0) (js_sort cmp l).
Proof.
  induction l as [|x l IH]; simpl; [constructor|].
  now apply sort_insert_sorted.
Qed.

End Sorted.

Lemma StronglySorted_weaken {A} (R S : A → A → Prop) (l : list A) :
  (∀ a b, R a b → S a b) → StronglySorted R l → StronglySorted S l.
Proof.
  intros HRS. induction 1 as [|x l Hl IH Hx]; constructor; [exact IH|].
  eapply Forall_impl; [exact Hx|]. intros b. apply HRS.
Qed.

Lemma compare_active_order (a b : alert) :
  compare_active a b <= 0 ↔ attention_order a b.
Proof.
  unfold compare_active, attention_order.
  destruct (decide (priorityLevel b ≠ priorityLevel a)); lia.
Qed.

Lemma compare_active_flip (a b : alert) :
  0 < compare_active a b → compare_active b a <= 0.
Proof.
  unfold compare_active.
  destruct (decide (priorityLevel b ≠ priorityLevel a));
    destruct (decide (priorityLevel a ≠ priorityLevel b)); lia.
Qed.

Lemma compare_active_trans (a b c : alert) :
  compare_active a b <= 0 → compare_active b c <= 0 → compare_active a c <= 0.
Proof.
  rewrite !compare_active_order. unfold attention_order. lia.
Qed.

Lemma filter_filter {A} (p q : A → bool) (l : list A) :
  List.filter q (List.filter p l) = List.filter (fun x => p x && q x) l.
Proof.
  induction l as [|x l IH]; simpl; [reflexivity|].
  destruct (p x); simpl; [destruct (q x)|]; now rewrite IH.
Qed.


Lemma filter_ext' {A} (p q : A → bool) (l : list A) :
  (∀ x, p x = q x) → List.filter p l = List.filter q l.
Proof.
  intros Hpq. induction l as [|x l IH]; simpl; [reflexivity|].
  now rewrite Hpq, IH.
Qed.

(** [getActive] sorts what passes the "unresolved" test and the filters. *)
Lemma getActive_unfold (f : filters) (s : state) :
  getActive f s =
    js_sort compare_active
      (List.filter (fun a => negb (resolved a) && passes f a)
                   (map snd (alerts s))).
Proof.
  unfold getActive, passes. f_equal.
  destruct (truthy (f_priority f)), (truthy (f_category f)),
    (f_unacknowledged f); rewrite ?filter_filter;
    apply filter_ext'; intros a;
    repeat (destruct (negb _) || destruct (bool_decide _) || simpl); reflexivity.
Qed.

(** C2.  [getActive(filters)] returns the unresolved alerts that pass the
    filters, each once, sorted by descending priority rank and, within a
    rank, by descending creation time; alerts of priorities low, critical,
    high, critical created in this order at increasing instants come back
    as the newer critical, the older critical, the high and the low one. *)
Theorem getActive_sorted (f : filters) (s : state) :
  getActive f s ≡ₚ
    List.filter (fun a => negb (resolved a) && passes f a) (map snd (alerts s)) ∧
  StronglySorted attention_order (getActive f s) ∧
  (∀ u1 u2 u3 u4 t1 t2 t3 t4,
      NoDup [u1; u2; u3; u4] → t1 < t2 → t2 < t3 → t3 < t4 →
      map (fun a => (id a, priority a, createdAt a))
        (getActive no_filters
           (run [Create (with_priority "low") u1 t1;
                 Create (with_priority "critical") u2 t2;
                 Create (with_priority "high") u3 t3;
                 Create (with_priority "critical") u4 t4] init)) =
      [(u4, "critical", t4); (u2, "critical", t2);
       (u3, "high", t3); (u1, "low", t1)]).
Proof.
  split; [|split].
  - rewrite getActive_unfold. apply js_sort_perm.
  - rewrite getActive_unfold.
    eapply StronglySorted_weaken;
      [|apply (js_sort_sorted compare_active compare_active_flip compare_active_trans)].
    intros a b. apply compare_active_order.
  - intros u1 u2 u3 u4 t1 t2 t3 t4 Hnd H12 H23 H34.
    apply NoDup_cons in Hnd as [Hu1 Hnd]. apply NoDup_cons in Hnd as [Hu2 Hnd].
    apply NoDup_cons in Hnd as [Hu3 _].
    rewrite !not_elem_of_cons in Hu1. rewrite !not_elem_of_cons in Hu2.
    rewrite !not_elem_of_cons in Hu3.
    destruct Hu1 as (H1 & H2 & H3 & _).
    destruct Hu2 as (H4 & H5 & _).
    destruct Hu3 as (H6 & _).
    unfold getActive, run. cbn [fold_left exec].
    rewrite !create_alerts. simpl.
    repeat (rewrite decide_False by congruence; simpl).
    unfold compare_active; simpl.
    replace (0 <? t4 - t2) with true by (symmetry; apply Z.ltb_lt; lia).
    replace (0 <? t2 - t4) with false by (symmetry; apply Z.ltb_ge; lia).
    reflexivity.
Qed.

(** C2 on an instance: four alerts created at the instants 100 to 400. *)
Lemma getActive_sorted_witness :
  map (fun a => (id a, priority a, createdAt a))
    (getActive no_filters
       (run [Create (with_priority "low") "a1" 100;
             Create (with_priority "critical") "a2" 200;
             Create (with_priority "high") "a3" 300;
             Create (with_priority "critical") "a4" 400] init)) =
  [("a4", "critical", 400); ("a2", "critical", 200);
   ("a3", "high", 300); ("a1", "low", 100)].
Proof.
  apply (proj2 (proj2 (getActive_sorted no_filters init))).
  - apply (bool_decide_unpack (NoDup ["a1"; "a2"; "a3"; "a4"])).
    vm_compute. exact I.
  - lia.
  - lia.
  - lia.
Defined.


(** **** The escalation timers *)

Lemma clearEscalation_set_alerts (k : string) (m : list (string * alert))
    (s : state) :
  clearEscalation k (set_alerts m s) = set_alerts m (clearEscalation k s).
Proof.
  unfold clearEscalation, set_alerts; simpl.
  now destruct (escalationTimers s !! k).
Qed.

Lemma timers_ok_clear (k : string) (s : state) :
  timers_ok s →
  timers_ok (clearEscalation k s) ∧ no_timer_for k (clearEscalation k s).
Proof.
  intros Hok. unfold clearEscalation.
  destruct (escalationTimers s !! k) as [h|] eqn:Hk.
  - assert (Hne : ∀ h' t', delete h (pending s) !! h' = Some t' →
                           timer_alert t' ≠ k).
    { intros h' t' Hp Heq. apply lookup_delete_Some in Hp as [Hh Hp].
      destruct (Hok _ _ Hp) as (_ & Hreg & _).
      rewrite Heq, Hk in Hreg. congruence. }
    split; [|exact Hne].
    intros h' t' Hp. simpl in *. pose proof (Hne _ _ Hp) as Hk'.
    apply lookup_delete_Some in Hp as [Hh Hp].
    destruct (Hok _ _ Hp) as (Hlt & Hreg & Ha).
    split; [exact Hlt|]. split; [|exact Ha].
    rewrite lookup_delete_ne by congruence. exact Hreg.
  - split; [exact Hok|].
    intros h' t' Hp Heq. destruct (Hok _ _ Hp) as (_ & Hreg & _).
    rewrite Heq, Hk in Hreg. discriminate.
Qed.

Lemma timers_ok_update (k : string) (a' : alert) (s : state) :
  timers_ok s →
  acknowledged a' = false ∨ no_timer_for k s →
  timers_ok (set_alerts (map_set k a' (alerts s)) s).
Proof.
  intros Hok Hcase h t Hp. simpl in *.
  destruct (Hok _ _ Hp) as (Hlt & Hreg & a & Ha & Hack).
  split; [exact Hlt|]. split; [exact Hreg|].
  destruct (decide (k = timer_alert t)) as [->|Hne].
  - exists a'. rewrite map_get_set_eq. split; [reflexivity|].
    destruct Hcase as [Hfalse|Hnone]; [exact Hfalse|].
    now destruct (Hnone _ _ Hp).
  - exists a. now rewrite map_get_set_ne.
Qed.

Lemma timers_ok_setup (a : alert) (s : state) :
  timers_ok s → map_get (id a) (alerts s) = Some a →
  timers_ok (setupEscalation a s).
Proof.
  intros Hok Ha. unfold setupEscalation.
  destruct (timers_ok_clear (id a) s Hok) as [Hok1 Hnone].
  destruct (timeout_of (priority a)) as [t|]; [|exact Hok1].
  destruct (acknowledged a) eqn:Hack; simpl; [exact Hok1|].
  intros h' t' Hp. simpl in *.
  apply lookup_insert_Some in Hp as [[<- <-]|[Hh Hp]]; simpl.
  - split; [lia|]. split; [apply lookup_insert_eq|].
    exists a. now rewrite clearEscalation_alerts.
  - destruct (Hok1 _ _ Hp) as (Hlt & Hreg & Hlive).
    split; [lia|]. split; [|exact Hlive].
    rewrite lookup_insert_ne; [exact Hreg|].
    intros Heq. now apply (Hnone _ _ Hp).
Qed.

Lemma timers_ok_delete (k : string) (s : state) :
  timers_ok s → no_timer_for k s →
  timers_ok (set_alerts (map_delete k (alerts s)) s).
Proof.
  intros Hok Hnone h t Hp. simpl in *.
  destruct (Hok _ _ Hp) as (Hlt & Hreg & a & Ha & Hack).
  split; [exact Hlt|]. split; [exact Hreg|].
  exists a. rewrite map_get_delete_ne; [now split|].
  intros Heq. now apply (Hnone _ _ Hp).
Qed.

Lemma timers_ok_acknowledged (k : string) (a : alert) (s : state) :
  timers_ok s → map_get k (alerts s) = Some a → acknowledged a = true →
  no_timer_for k s.
Proof.
  intros Hok Ha Hack h t Hp Heq.
  destruct (Hok _ _ Hp) as (_ & _ & a' & Ha' & Hack').
  rewrite Heq, Ha in Ha'. congruence.
Qed.

(** **** The invariant *)

Lemma world_eta (w : world) : {| sys := sys w; issued := issued w |} = w.
Proof. now destruct w. Qed.

Lemma inv_emit (event : string) (a : alert) (s : state) (i : list string) :
  inv {| sys := s; issued := i |} →
  inv {| sys := emit event a s; issued := i |}.
Proof. intros [H1 H2 Hr H3 H4 Hb H5]. now constructor. Qed.

Lemma inv_clear (k : string) (s : state) (i : list string) :
  inv {| sys := s; issued := i |} →
  inv {| sys := clearEscalation k s; issued := i |} ∧
  no_timer_for k (clearEscalation k s).
Proof.
  intros [H1 H2 Hr H3 H4 Hb H5]. simpl in *.
  destruct (timers_ok_clear k s H5) as [Hok Hnone].
  split; [|exact Hnone].
  constructor; simpl; unfold in_live;
    rewrite ?clearEscalation_alerts, ?clearEscalation_history; assumption.
Qed.

Lemma inv_setup (a : alert) (s : state) (i : list string) :
  inv {| sys := s; issued := i |} → map_get (id a) (alerts s) = Some a →
  inv {| sys := setupEscalation a s; issued := i |}.
Proof.
  intros [H1 H2 Hr H3 H4 Hb H5] Ha. simpl in *.
  constructor; simpl; unfold in_live;
    rewrite ?setupEscalation_alerts, ?setupEscalation_history;
    try assumption.
  now apply timers_ok_setup.
Qed.

(** Replacing a live alert by an updated copy of itself. *)
Lemma inv_update (k : string) (a a' : alert) (s : state) (i : list string) :
  inv {| sys := s; issued := i |} →
  map_get k (alerts s) = Some a → id a' = k → rank_ok a' →
  acknowledged a' = false ∨ no_timer_for k s →
  inv {| sys := set_alerts (map_set k a' (alerts s)) s; issued := i |}.
Proof.
  intros [H1 H2 Hr H3 H4 Hb H5] Ha Hid Hrank Hcase. simpl in *.
  constructor; simpl.
  - now apply keys_set_nodup.
  - intros k' x. destruct (decide (k = k')) as [<-|Hne].
    + rewrite map_get_set_eq. now intros [= <-].
    + rewrite map_get_set_ne by done. apply H2.
  - intros k' x. destruct (decide (k = k')) as [<-|Hne].
    + rewrite map_get_set_eq. now intros [= <-].
    + rewrite map_get_set_ne by done. apply Hr.
  - intros k'. unfold in_live; simpl.
    destruct (decide (k = k')) as [<-|Hne].
    + intros _. apply H3. unfold in_live. rewrite Ha. eauto.
    + rewrite map_get_set_ne by done. apply H3.
  - intros x Hx. destruct (H4 x Hx) as [Hi Hn]. split; [exact Hi|].
    rewrite map_get_set_ne; [exact Hn|]. intros Heq.
    rewrite <- Heq in Hn. congruence.
  - exact Hb.
  - now apply timers_ok_update.
Qed.

Lemma inv_create (o : options) (uuid : string) (now : Z) (s : state)
    (i : list string) :
  inv {| sys := s; issued := i |} → uuid ∉ i →
  inv {| sys := (create o uuid now s).2; issued := uuid :: i |}.
Proof.
  intros Hinv Hfresh.
  assert (Hnew : map_get uuid (alerts s) = None).
  { destruct (map_get uuid (alerts s)) eqn:Hget; [|reflexivity].
    exfalso. apply Hfresh. apply (inv_live _ Hinv). unfold in_live; simpl.
    rewrite Hget. eauto. }
  assert (H1 : inv {| sys := set_alerts (map_set uuid (new_alert o uuid now)
                                           (alerts s)) s;
                      issued := uuid :: i |}).
  { destruct Hinv as [H1 H2 Hr H3 H4 Hb H5]. simpl in *. constructor; simpl.
    - now apply keys_set_nodup.
    - intros k' x. destruct (decide (uuid = k')) as [<-|Hne].
      + rewrite map_get_set_eq. now intros [= <-].
      + rewrite map_get_set_ne by done. apply H2.
    - intros k' x. destruct (decide (uuid = k')) as [<-|Hne].
      + rewrite map_get_set_eq. now intros [= <-].
      + rewrite map_get_set_ne by done. apply Hr.
    - intros k'. unfold in_live; simpl.
      destruct (decide (uuid = k')) as [<-|Hne].
      + intros _. apply list_elem_of_here.
      + rewrite map_get_set_ne by done. intros Hl.
        apply list_elem_of_further. now apply H3.
    - intros x Hx. destruct (H4 x Hx) as [Hi Hn].
      split; [now apply list_elem_of_further|].
      rewrite map_get_set_ne; [exact Hn|]. intros Heq.
      now rewrite <- Heq in Hi.
    - exact Hb.
    - apply timers_ok_update; [exact H5 | now left]. }
  unfold create. simpl.
  apply inv_emit, inv_emit.
  destruct (default true (opt_autoEscalate o) && _); [|exact H1].
  apply inv_setup; [exact H1|]. simpl. apply map_get_set_eq.
Qed.

Lemma inv_acknowledge (k u : string) (n : option string) (now : Z)
    (s : state) (i : list string) :
  inv {| sys := s; issued := i |} →
  inv {| sys := (acknowledge k u n now s).2; issued := i |}.
Proof.
  intros Hinv. unfold acknowledge.
  destruct (map_get k (alerts s)) as [a|] eqn:Ha; [|exact Hinv].
  simpl. apply inv_emit. rewrite clearEscalation_set_alerts.
  destruct (inv_clear k s i Hinv) as [Hinv1 Hnone].
  rewrite <- (clearEscalation_alerts k s).
  eapply inv_update; [exact Hinv1 | | | | now right].
  - rewrite clearEscalation_alerts. exact Ha.
  - simpl. exact (inv_key _ Hinv k a Ha).
  - exact (inv_rank _ Hinv k a Ha).
Qed.

Lemma addToHistory_sub (a x : alert) (s : state) :
  x ∈ history (addToHistory a s) → x = a ∨ x ∈ history s.
Proof.
  unfold addToHistory, set_history. cbn [history].
  destruct (maxHistory <? length (a :: history s))%nat; intros Hx.
  - apply subseteq_take in Hx. now apply elem_of_cons in Hx.
  - now apply elem_of_cons in Hx.
Qed.

Lemma addToHistory_bound (a : alert) (s : state) :
  (length (history (addToHistory a s)) ≤ maxHistory)%nat.
Proof.
  unfold addToHistory, set_history. cbn [history].
  destruct (Nat.ltb_spec maxHistory (length (a :: history s))) as [Hlt|Hge].
  - rewrite length_take. lia.
  - exact Hge.
Qed.

Lemma inv_resolve (k u : string) (r : option string) (now : Z)
    (s : state) (i : list string) :
  inv {| sys := s; issued := i |} →
  inv {| sys := (resolve k u r now s).2; issued := i |}.
Proof.
  intros Hinv. unfold resolve.
  destruct (map_get k (alerts s)) as [a|] eqn:Ha; [|exact Hinv].
  simpl. apply inv_emit. rewrite clearEscalation_set_alerts.
  destruct (inv_clear k s i Hinv) as [Hinv1 Hnone].
  set (a' := mark_resolved u r now a).
  set (s1 := set_alerts (map_set k a' (alerts s)) (clearEscalation k s)).
  assert (Hinv2 : inv {| sys := s1; issued := i |}).
  { unfold s1. rewrite <- (clearEscalation_alerts k s).
    eapply inv_update; [exact Hinv1 | | | | now right].
    - rewrite clearEscalation_alerts. exact Ha.
    - simpl. exact (inv_key _ Hinv k a Ha).
    - exact (inv_rank _ Hinv k a Ha). }
  assert (Hk : k ∈ i).
  { apply (inv_live _ Hinv). unfold in_live; simpl. rewrite Ha; eauto. }
  destruct Hinv2 as [H1 H2 Hr H3 H4 Hb H5]. simpl in *.
  constructor; simpl.
  - now apply keys_delete_nodup.
  - intros k' x Hx. destruct (decide (k = k')) as [<-|Hne].
    + rewrite map_get_delete_eq in Hx by done. discriminate.
    + rewrite map_get_delete_ne in Hx by done. now apply H2.
  - intros k' x Hx. destruct (decide (k = k')) as [<-|Hne].
    + rewrite map_get_delete_eq in Hx by done. discriminate.
    + rewrite map_get_delete_ne in Hx by done. now apply (Hr k').
  - intros k'. unfold in_live; simpl. destruct (decide (k = k')) as [<-|Hne].
    + now intros _.
    + rewrite map_get_delete_ne by done. apply H3.
  - intros x Hx. apply addToHistory_sub in Hx as [->|Hx].
    + assert (Hid : id a' = k) by exact (inv_key _ Hinv k a Ha).
      rewrite Hid. split; [exact Hk|]. now apply map_get_delete_eq.
    + destruct (H4 x Hx) as [Hi Hn]. split; [exact Hi|].
      destruct (decide (k = id x)) as [Heq|Hne].
      * rewrite <- Heq. now apply map_get_delete_eq.
      * now rewrite map_get_delete_ne.
  - apply addToHistory_bound.
  - apply (timers_ok_delete k (addToHistory a' s1)); [exact H5|].
    exact Hnone.
Qed.

(** What [escalate] does to the alert it finds. *)
Lemma escalate_cases (k : string) (r : option string) (now : Z) (s : state) :
  (map_get k (alerts s) = None ∧ escalate k r now s = (None, s)) ∨
  (∃ a, map_get k (alerts s) = Some a ∧ escalate k r now s = (Some a, s)) ∨
  (∃ a np info,
      map_get k (alerts s) = Some a ∧
      indexOf (priority a) escalation_order < 4 ∧
      escalation_order !! Z.to_nat (indexOf (priority a) escalation_order + 1)
        = Some np ∧
      priorities np = Some info ∧
      let a' := raise_priority np (level info)
                  (default "Auto-escalation due to timeout" r) now a in
      let s1 := set_alerts (map_set k a' (alerts s)) s in
      let s2 := if bool_decide (is_Some (timeout_of np))
                then setupEscalation a' s1 else s1 in
      escalate k r now s = (Some a', emit "alert" a' (emit "alert:escalated" a' s2))).
Proof.
  unfold escalate.
  destruct (map_get k (alerts s)) as [a|] eqn:Ha; [|now left].
  right. change (Z.of_nat (length escalation_order) - 1) with 4.
  destruct (Z.ltb_spec (indexOf (priority a) escalation_order) 4)
    as [Hlt|Hge]; [|left; eauto].
  destruct (escalation_order !! _) as [np|] eqn:Hnp; [|left; eauto].
  destruct (priorities np) as [info|] eqn:Hinfo; [|left; eauto].
  right. exists a, np, info. repeat split; done.
Qed.

Lemma inv_escalate (k : string) (r : option string) (now : Z)
    (s : state) (i : list string) :
  inv {| sys := s; issued := i |} →
  inv {| sys := (escalate k r now s).2; issued := i |}.
Proof.
  intros Hinv.
  destruct (escalate_cases k r now s)
    as [[_ ->]|[(a & _ & ->)|(a & np & info & Ha & _ & _ & Hinfo & ->)]];
    [exact Hinv | exact Hinv |].
  simpl. apply inv_emit, inv_emit.
  set (a' := raise_priority _ _ _ _ a).
  assert (Hinv1 : inv {| sys := set_alerts (map_set k a' (alerts s)) s;
                         issued := i |}).
  { eapply inv_update; [exact Hinv | exact Ha | | |].
    - exact (inv_key _ Hinv k a Ha).
    - unfold rank_ok, a'. simpl. now rewrite Hinfo.
    - destruct (acknowledged a) eqn:Hack; [right | now left].
      eapply timers_ok_acknowledged; [exact (inv_timers _ Hinv) | exact Ha | exact Hack]. }
  destruct (bool_decide _); [|exact Hinv1].
  apply inv_setup; [exact Hinv1|]. simpl.
  assert (Hid : id a = k) by exact (inv_key _ Hinv k a Ha).
  rewrite Hid. apply map_get_set_eq.
Qed.

Lemma inv_annotate (k : string) (a : alert) (nk : note_type)
    (user text : string) (assignee : option string) (now : Z)
    (s : state) (i : list string) :
  inv {| sys := s; issued := i |} → map_get k (alerts s) = Some a →
  inv {| sys := set_alerts (map_set k (annotate nk user text assignee now a)
                              (alerts s)) s;
         issued := i |}.
Proof.
  intros Hinv Ha. eapply inv_update; [exact Hinv | exact Ha | | |].
  - exact (inv_key _ Hinv k a Ha).
  - exact (inv_rank _ Hinv k a Ha).
  - simpl. destruct (acknowledged a) eqn:Hack; [right | now left].
    eapply timers_ok_acknowledged; [exact (inv_timers _ Hinv) | exact Ha | exact Hack].
Qed.

Lemma inv_timer_dropped (h : nat) (s : state) (i : list string) :
  inv {| sys := s; issued := i |} →
  inv {| sys := {| alerts := alerts s; history := history s;
                   escalationTimers := escalationTimers s;
                   pending := delete h (pending s);
                   next_handle := next_handle s; emitted := emitted s |};
         issued := i |}.
Proof.
  intros [H1 H2 Hr H3 H4 Hb H5]. constructor; try assumption.
  intros h' t Hp. simpl in *. apply lookup_delete_Some in Hp as [_ Hp].
  exact (H5 _ _ Hp).
Qed.

Lemma inv_exec (c : call) (s : state) (i : list string) :
  inv {| sys := s; issued := i |} → is_api c = true ∨ (∃ h now, c = TimerFires h now) →
  inv {| sys := exec c s; issued := i |}.
Proof.
  intros Hinv Hc. destruct c; simpl.
  - destruct Hc as [?|(? & ? & ?)]; discriminate.
  - now apply inv_acknowledge.
  - now apply inv_resolve.
  - now apply inv_escalate.
  - unfold addNote. destruct (map_get alertId (alerts s)) eqn:Ha; [|exact Hinv].
    simpl. apply inv_emit. now apply inv_annotate.
  - unfold assign. destruct (map_get alertId (alerts s)) eqn:Ha; [|exact Hinv].
    simpl. apply inv_emit. now apply inv_annotate.
  - unfold timer_fires. destruct (pending s !! h) as [t|]; [|exact Hinv].
    apply inv_escalate. now apply inv_timer_dropped.
Qed.

Lemma inv_init : inv init_world.
Proof.
  constructor; simpl.
  - constructor.
  - intros ? ?; discriminate.
  - intros ? ?; discriminate.
  - intros k [? ?]; discriminate.
  - intros a Ha. now apply elem_of_nil in Ha.
  - unfold maxHistory. lia.
  - intros h t Hp. simpl in Hp. now apply lookup_empty_Some in Hp.
Qed.

Lemma inv_step (w w' : world) (c : call) : inv w → step w c w' → inv w'.
Proof.
  intros Hinv Hstep. rewrite <- (world_eta w) in Hinv.
  destruct Hstep as [w o uuid now Hfresh | w c Hapi | w h now t Hp].
  - now apply inv_create.
  - apply inv_exec; [exact Hinv | now left].
  - apply inv_exec; [exact Hinv | right; eauto].
Qed.

Lemma inv_steps (w w' : world) (cs : list call) :
  inv w → steps w cs w' → inv w'.
Proof.
  intros Hinv Hsteps. induction Hsteps as [|w c w1 cs w2 Hstep _ IH];
    [exact Hinv|].
  apply IH. eapply inv_step; eauto.
Qed.

Lemma inv_reachable (w : world) : reachable w → inv w.
Proof. intros [cs Hcs]. eapply inv_steps; [apply inv_init | exact Hcs]. Qed.


(** **** The live set after each call *)

Lemma acknowledge_alerts (k u : string) (n : option string) (now : Z)
    (s : state) :
  alerts (acknowledge k u n now s).2 =
    match map_get k (alerts s) with
    | Some a => map_set k (mark_acknowledged u n now a) (alerts s)
    | None => alerts s
    end.
Proof.
  unfold acknowledge. destruct (map_get k (alerts s)); [|reflexivity].
  simpl. now rewrite clearEscalation_alerts.
Qed.

Lemma resolve_alerts (k u : string) (r : option string) (now : Z) (s : state) :
  alerts (resolve k u r now s).2 =
    match map_get k (alerts s) with
    | Some a => map_delete k (map_set k (mark_resolved u r now a) (alerts s))
    | None => alerts s
    end.
Proof.
  unfold resolve. destruct (map_get k (alerts s)); [|reflexivity].
  simpl. now rewrite clearEscalation_alerts.
Qed.

Lemma escalate_alerts (k : string) (r : option string) (now : Z) (s : state) :
  alerts (escalate k r now s).2 = alerts s ∨
  ∃ a np info,
    map_get k (alerts s) = Some a ∧
    indexOf (priority a) escalation_order < 4 ∧
    escalation_order !! Z.to_nat (indexOf (priority a) escalation_order + 1)
      = Some np ∧
    priorities np = Some info ∧
    alerts (escalate k r now s).2 =
      map_set k (raise_priority np (level info)
                   (default "Auto-escalation due to timeout" r) now a)
              (alerts s).
Proof.
  destruct (escalate_cases k r now s)
    as [[_ ->]|[(a & _ & ->)|(a & np & info & Ha & Hi & Hnp & Hinfo & ->)]];
    [now left | now left | right].
  exists a, np, info. repeat (split; [assumption|]). simpl.
  destruct (bool_decide _); [now rewrite setupEscalation_alerts | reflexivity].
Qed.

Lemma evolves_refl (x : alert) : evolves x x.
Proof. split; [done|]. intros Hk. repeat split; [exact Hk | lia | lia]. Qed.


Ltac compute_rhs H :=
  match type of H with
  | ?l = ?r => let v := eval vm_compute in r in change (l = v) in H
  end.

Ltac compute_lhs H :=
  match type of H with
  | ?l = ?r => let v := eval vm_compute in l in change (v = r) in H
  end.

Ltac compute_index H :=
  match type of H with
  | ?i < ?n => let v := eval vm_compute in i in change (v < n) in H
  end.

Ltac known_priority :=
  unfold escalation_order; rewrite !elem_of_cons;
  repeat ((left; reflexivity) || right).

(** The update of [escalate] moves an alert of known priority one rank
    and one escalation level up. *)
Lemma raise_evolves (a : alert) (np : string) (info : priority_info)
    (reason : string) (now : Z) :
  rank_ok a →
  indexOf (priority a) escalation_order < 4 →
  escalation_order !! Z.to_nat (indexOf (priority a) escalation_order + 1)
    = Some np →
  priorities np = Some info →
  evolves a (raise_priority np (level info) reason now a).
Proof.
  intros Hrank Hidx Hnp Hinfo. split; [done|]. intros Hknown.
  unfold rank_ok in Hrank. unfold escalation_order in Hknown.
  rewrite !elem_of_cons in Hknown.
  destruct Hknown as [Hp|[Hp|[Hp|[Hp|[Hp|Hp]]]]];
    [| | | | |now apply elem_of_nil in Hp];
    rewrite Hp in *; compute_rhs Hrank; compute_index Hidx; [| | | |lia];
    compute_lhs Hnp; injection Hnp as <-;
    compute_lhs Hinfo; injection Hinfo as <-;
    cbn [priority priorityLevel escalationLevel raise_priority level];
    rewrite Hrank; (split; [known_priority|lia]).
Qed.

(** An alert found live after a step was live before it and has evolved
    from what it was, unless the step created it under a new identifier. *)
Lemma step_lookup (w w' : world) (c : call) (k : string) (x' : alert) :
  inv w → step w c w' →
  map_get k (alerts (sys w')) = Some x' →
  k ∉ issued w ∨
  ∃ x, map_get k (alerts (sys w)) = Some x ∧ evolves x x'.
Proof.
  intros Hinv Hstep.
  assert (Hupd : ∀ k0 a a' m,
             m = alerts (sys w) → map_get k0 m = Some a → evolves a a' →
             map_get k (map_set k0 a' m) = Some x' →
             ∃ x, map_get k m = Some x ∧ evolves x x').
  { intros k0 a a' m -> Ha Hev. destruct (decide (k0 = k)) as [->|Hne].
    - rewrite map_get_set_eq. intros [= <-]. eauto.
    - rewrite map_get_set_ne by done. eauto using evolves_refl. }
  assert (Hesc : ∀ k0 r now s, alerts s = alerts (sys w) →
             map_get k (alerts (escalate k0 r now s).2) = Some x' →
             ∃ x, map_get k (alerts (sys w)) = Some x ∧ evolves x x').
  { intros k0 r now s Hs.
    destruct (escalate_alerts k0 r now s)
      as [->|(a & np & info & Ha & Hi & Hnp & Hinfo & ->)];
      rewrite Hs in *; [eauto using evolves_refl|].
    apply (Hupd k0 a _ _ eq_refl Ha).
    apply raise_evolves; try assumption. exact (inv_rank _ Hinv k0 a Ha). }
  destruct Hstep as [w o uuid now Hfresh | w c Hapi | w h now t Hp];
    cbn [sys exec].
  - rewrite create_alerts. destruct (decide (uuid = k)) as [->|Hne].
    + intros _. now left.
    + rewrite map_get_set_ne by done. eauto using evolves_refl.
  - intros Hget. right. destruct c; try discriminate; cbn [exec] in Hget.
    + rewrite acknowledge_alerts in Hget.
      destruct (map_get alertId (alerts (sys w))) as [a|] eqn:Ha;
        [|eauto using evolves_refl].
      apply (Hupd alertId a _ _ eq_refl Ha) in Hget; [exact Hget|].
      split; [reflexivity|]. intros Hk. repeat split; [exact Hk | simpl; lia..].
    + rewrite resolve_alerts in Hget.
      destruct (map_get alertId (alerts (sys w))) as [a|] eqn:Ha;
        [|eauto using evolves_refl].
      destruct (decide (alertId = k)) as [->|Hne].
      * rewrite map_get_delete_eq in Hget; [discriminate|].
        apply keys_set_nodup, (inv_nodup _ Hinv).
      * rewrite map_get_delete_ne, map_get_set_ne in Hget by done.
        eauto using evolves_refl.
    + now apply (Hesc alertId reason now (sys w)).
    + unfold addNote in Hget.
      destruct (map_get alertId (alerts (sys w))) as [a|] eqn:Ha;
        [|eauto using evolves_refl].
      apply (Hupd alertId a _ _ eq_refl Ha) in Hget; [exact Hget|].
      split; [tauto|]. intros Hk. repeat split; [exact Hk | simpl; lia..].
    + unfold assign in Hget.
      destruct (map_get alertId (alerts (sys w))) as [a|] eqn:Ha;
        [|eauto using evolves_refl].
      apply (Hupd alertId a _ _ eq_refl Ha) in Hget; [exact Hget|].
      split; [tauto|]. intros Hk. repeat split; [exact Hk | simpl; lia..].
  - intros Hget. right. unfold timer_fires in Hget. rewrite Hp in Hget.
    now apply Hesc in Hget.
Qed.

Lemma step_issued (w w' : world) (c : call) (k : string) :
  step w c w' → k ∈ issued w → k ∈ issued w'.
Proof.
  intros [w0 o uuid now Hfresh | w0 c0 Hapi | w0 h now t Hp]; simpl;
    [apply list_elem_of_further | done | done].
Qed.

Lemma acknowledged_or_gone_step (k : string) (w w' : world) (c : call) :
  inv w → step w c w' →
  acknowledged_or_gone k w → acknowledged_or_gone k w'.
Proof.
  intros Hinv Hstep [Hk Hack]. split; [now apply (step_issued w w' c)|].
  intros x' Hx'.
  destruct (step_lookup w w' c k x' Hinv Hstep Hx') as [Hnew|(x & Hx & Hmono & _)];
    [done|].
  apply Hmono, Hack, Hx.
Qed.

Lemma acknowledged_or_gone_steps (k : string) (w w' : world) (cs : list call) :
  inv w → steps w cs w' →
  acknowledged_or_gone k w → acknowledged_or_gone k w'.
Proof.
  intros Hinv Hsteps. induction Hsteps as [|w c w1 cs w2 Hstep _ IH];
    [done|].
  intros Hk. apply IH; [eapply inv_step; eauto|].
  eapply acknowledged_or_gone_step; eauto.
Qed.

Lemma acknowledged_or_gone_no_timer (k : string) (w : world) :
  inv w → acknowledged_or_gone k w → no_timer_for k (sys w).
Proof.
  intros Hinv [_ Hack] h t Hp Heq.
  destruct (inv_timers _ Hinv h t Hp) as (_ & _ & a & Ha & Hfalse).
  rewrite Heq in Ha. rewrite (Hack a Ha) in Hfalse. discriminate.
Qed.

(** C7.  In every reachable state an armed escalation timeout belongs to
    a live alert that is not acknowledged.  When [acknowledge] runs on a
    live alert, its timeout is cancelled (no armed timeout and no
    registered handle is left for it), and in every state reached
    afterwards, through any calls and timer firings, no timeout is armed
    for that alert: a timer-firing step that can be taken runs the
    escalation of some other alert. *)
Theorem acknowledged_never_auto_escalates (w : world) :
  reachable w →
  (∀ h t, pending (sys w) !! h = Some t →
     ∃ a, map_get (timer_alert t) (alerts (sys w)) = Some a ∧
          acknowledged a = false) ∧
  (∀ k u n now w1,
     in_live k (sys w) → step w (Acknowledge k u n now) w1 →
     no_timer_for k (sys w1) ∧
     escalationTimers (sys w1) !! k = None ∧
     ∀ cs w2, steps w1 cs w2 →
       no_timer_for k (sys w2) ∧
       ∀ h now' w3, step w2 (TimerFires h now') w3 →
         ∃ t, pending (sys w2) !! h = Some t ∧ timer_alert t ≠ k).
Proof.
  intros Hreach. pose proof (inv_reachable w Hreach) as Hinv. split.
  - intros h t Hp. now destruct (inv_timers _ Hinv h t Hp) as (_ & _ & Ha).
  - intros k u n now w1 [a Ha] Hstep.
    pose proof (inv_step _ _ _ Hinv Hstep) as Hinv1.
    assert (Hgone : acknowledged_or_gone k w1).
    { split.
      - apply (step_issued w w1 _ k Hstep), (inv_live _ Hinv).
        unfold in_live. rewrite Ha. eauto.
      - inversion Hstep as [| w0 c0 _ Hw0 Hc0 Hw1 |]; subst; simpl.
        rewrite acknowledge_alerts, Ha, map_get_set_eq.
        now intros x [= <-]. }
    split; [now apply acknowledged_or_gone_no_timer|].
    split.
    + inversion Hstep as [| w0 c0 _ Hw0 Hc0 Hw1 |]; subst; simpl.
      unfold acknowledge. rewrite Ha. simpl.
      unfold clearEscalation; simpl.
      destruct (escalationTimers (sys w) !! k) eqn:Hk; simpl;
        [apply lookup_delete_eq | exact Hk].
    + intros cs w2 Hsteps.
      pose proof (inv_steps _ _ _ Hinv1 Hsteps) as Hinv2.
      pose proof (acknowledged_or_gone_steps k _ _ _ Hinv1 Hsteps Hgone) as Hgone2.
      pose proof (acknowledged_or_gone_no_timer k w2 Hinv2 Hgone2) as Hnone.
      split; [exact Hnone|].
      intros h now' w3 Hfire.
      inversion Hfire as [| w0 c0 Hapi | w0 h0 now0 t Hp]; subst;
        [discriminate|].
      exists t. split; [exact Hp | exact (Hnone _ _ Hp)].
Qed.


(** **** Runs *)

Lemma enabled_step (w : world) (c : call) :
  enabled w c = true → step w c (next c w).
Proof.
  destruct c; simpl; intros He;
    try (apply (step_api w); reflexivity).
  - apply bool_decide_eq_true in He. now apply step_create.
  - apply bool_decide_eq_true in He as [t Ht]. now apply (step_timer w h now t).
Qed.

Lemma valid_steps (cs : list call) (w : world) :
  valid cs w = true → steps w cs (run_world cs w).
Proof.
  revert w. induction cs as [|c cs IH]; simpl; intros w Hv; [constructor|].
  apply andb_true_iff in Hv as [He Hv].
  econstructor; [now apply enabled_step | now apply IH].
Qed.

(** C7 on an instance: a "medium" alert is acknowledged and then
    escalated by hand to "high"; no timeout is armed for it after either
    step. *)
Lemma acknowledged_never_auto_escalates_witness :
  let w := run_world [Create (with_priority "medium") "a1" 10] init_world in
  let w1 := next (Acknowledge "a1" "operator" None 20) w in
  let w2 := run_world [Escalate "a1" None 30] w1 in
  no_timer_for "a1" (sys w1) ∧ no_timer_for "a1" (sys w2).
Proof.
  intros w w1 w2.
  assert (Hreach : reachable w).
  { exists [Create (with_priority "medium") "a1" 10].
    apply valid_steps. vm_compute. reflexivity. }
  assert (Hlive : in_live "a1" (sys w)).
  { vm_compute. eauto. }
  assert (Hstep : step w (Acknowledge "a1" "operator" None 20) w1).
  { apply enabled_step. reflexivity. }
  destruct (proj2 (acknowledged_never_auto_escalates w Hreach)
              "a1" "operator" None 20 w1 Hlive Hstep) as (Hnow & _ & Hlater).
  split; [exact Hnow|].
  apply (Hlater [Escalate "a1" None 30] w2).
  apply valid_steps. reflexivity.
Defined.

(** A "high" alert is created with a 300-second timeout armed. *)
Example create_high_arms_timer :
  map_to_list (pending (create (with_priority "high") "a1" 10 init).2) =
    [(O, {| timer_alert := "a1"; timer_delay := 300000 |})].
Proof. vm_compute. reflexivity. Qed.

(** Escalating a "high" alert: critical after the first call, and
    unchanged by the following ones. *)
Example escalate_high_three_times :
  let s0 := (create (with_priority "high") "a1" 10 init).2 in
  let s1 := (escalate "a1" None 20 s0).2 in
  let s2 := (escalate "a1" None 30 s1).2 in
  let s3 := (escalate "a1" None 40 s2).2 in
  map (fun s => (fun a => (priority a, escalationLevel a)) <$> get "a1" s)
      [s0; s1; s2; s3] =
    [Some ("high", 0); Some ("critical", 1); Some ("critical", 1);
     Some ("critical", 1)].
Proof. vm_compute. reflexivity. Qed.

(** **** Resolution *)







(** **** Escalation of the priority *)

Lemma indexOf_unknown (p : string) :
  p ∉ escalation_order → indexOf p escalation_order = -1.
Proof.
  unfold escalation_order. rewrite !not_elem_of_cons.
  intros (H1 & H2 & H3 & H4 & H5 & _). unfold indexOf; simpl.
  now rewrite !decide_False by congruence.
Qed.

Lemma priorities_unknown (p : string) :
  p ∉ escalation_order → priorities p = None.
Proof.
  unfold escalation_order. rewrite !not_elem_of_cons.
  intros (H1 & H2 & H3 & H4 & H5 & _). unfold priorities.
  now rewrite !decide_False by congruence.
Qed.


Lemma steps_issued (w w' : world) (cs : list call) (k : string) :
  steps w cs w' → k ∈ issued w → k ∈ issued w'.
Proof.
  induction 1 as [|w c w1 cs w2 Hstep _ IH]; [done|].
  intros Hk. apply IH. now apply (step_issued w w1 c).
Qed.





(** C10.  [create] keeps a priority outside the five known ones and gives
    it rank 3; a following [escalate] sets the priority to "info" and the
    rank to 1, one escalation level up: the rank has gone down. *)
Theorem unknown_priority_escalates_to_info (p : string) (o : options)
    (uuid : string) (now now' : Z) (r : option string) (s : state) :
  p ∉ escalation_order → opt_priority o = Some p →
  let a := (create o uuid now s).1 in
  let s1 := (create o uuid now s).2 in
  priority a = p ∧ priorityLevel a = 3 ∧ get uuid s1 = Some a ∧
  ∃ a' s2, escalate uuid r now' s1 = (Some a', s2) ∧
           get uuid s2 = Some a' ∧
           priority a' = "info" ∧ priorityLevel a' = 1 ∧
           escalationLevel a' = 1 ∧
           priorityLevel a' < priorityLevel a.
Proof.
  intros Hp Ho a s1.
  assert (Ha : a = new_alert o uuid now) by reflexivity.
  assert (Hprio : priority a = p) by (rewrite Ha; simpl; now rewrite Ho).
  assert (Hlevel : priorityLevel a = 3).
  { rewrite Ha; simpl. rewrite Ho; simpl. now rewrite priorities_unknown. }
  assert (Hget : map_get uuid (alerts s1) = Some a).
  { unfold s1. rewrite create_alerts. apply map_get_set_eq. }
  assert (Hesc : escalationLevel a = 0) by now rewrite Ha.
  clearbody a s1.
  split; [exact Hprio|]. split; [exact Hlevel|]. split; [exact Hget|].
  unfold escalate. rewrite Hget, Hprio, (indexOf_unknown p Hp). simpl.
  eexists _, _. split; [reflexivity|].
  split; [unfold get; simpl; apply map_get_set_eq|].
  simpl. rewrite Hlevel, Hesc. repeat split; reflexivity.
Qed.

(** C10 on an instance: the priority "urgent". *)
Lemma unknown_priority_escalates_to_info_witness :
  let a := (create (with_priority "urgent") "a1" 10 init).1 in
  let s1 := (create (with_priority "urgent") "a1" 10 init).2 in
  priority a = "urgent" ∧ priorityLevel a = 3 ∧ get "a1" s1 = Some a ∧
  ∃ a' s2, escalate "a1" None 20 s1 = (Some a', s2) ∧
           get "a1" s2 = Some a' ∧
           priority a' = "info" ∧ priorityLevel a' = 1 ∧
           escalationLevel a' = 1 ∧
           priorityLevel a' < priorityLevel a.
Proof.
  apply (unknown_priority_escalates_to_info "urgent" (with_priority "urgent")
           "a1" 10 20 None init).
  - apply (bool_decide_unpack ("urgent" ∉ escalation_order)).
    vm_compute. exact I.
  - reflexivity.
Defined.

(** The same on the stored alert: rank 3 before the call, rank 1 after. *)
Example urgent_alert_escalated :
  let s1 := (create (with_priority "urgent") "a1" 10 init).2 in
  let s2 := (escalate "a1" (Some "Manual escalation") 20 s1).2 in
  (priority <$> get "a1" s1) = Some "urgent" ∧
  (priorityLevel <$> get "a1" s1) = Some 3 ∧
  (priority <$> get "a1" s2) = Some "info" ∧
  (priorityLevel <$> get "a1" s2) = Some 1 ∧
  (escalationLevel <$> get "a1" s2) = Some 1.
Proof. repeat split; vm_compute; reflexivity. Qed.


(** **** Where a live alert and a history entry come from *)

Lemma escalate_history (k : string) (r : option string) (now : Z) (s : state) :
  history (escalate k r now s).2 = history s.
Proof.
  destruct (escalate_cases k r now s)
    as [[_ ->]|[(a & _ & ->)|(a & np & info & _ & _ & _ & _ & ->)]];
    [reflexivity | reflexivity |].
  simpl. destruct (bool_decide _); [now rewrite setupEscalation_history | reflexivity].
Qed.

Lemma acknowledge_history (k u : string) (n : option string) (now : Z)
    (s : state) :
  history (acknowledge k u n now s).2 = history s.
Proof.
  unfold acknowledge. destruct (map_get k (alerts s)); [|reflexivity].
  simpl. now rewrite clearEscalation_history.
Qed.

(** An alert found live after a step was created by it under a new
    identifier, or was live before and is unchanged or updated once. *)
Lemma step_origin (w w' : world) (c : call) (k : string) (x' : alert) :
  inv w → step w c w' →
  map_get k (alerts (sys w')) = Some x' →
  ((k ∉ issued w) ∧ (∃ o now, x' = new_alert o k now)) ∨
  ∃ x, map_get k (alerts (sys w)) = Some x ∧ (x' = x ∨ touched x x').
Proof.
  intros Hinv Hstep.
  assert (Hupd : ∀ k0 a a' m,
             m = alerts (sys w) → map_get k0 m = Some a → touched a a' →
             map_get k (map_set k0 a' m) = Some x' →
             ∃ x, map_get k m = Some x ∧ (x' = x ∨ touched x x')).
  { intros k0 a a' m -> Ha Ht. destruct (decide (k0 = k)) as [->|Hne].
    - rewrite map_get_set_eq. intros [= <-]. eauto.
    - rewrite map_get_set_ne by done. eauto. }
  assert (Hesc : ∀ k0 r now s, alerts s = alerts (sys w) →
             map_get k (alerts (escalate k0 r now s).2) = Some x' →
             ∃ x, map_get k (alerts (sys w)) = Some x ∧ (x' = x ∨ touched x x')).
  { intros k0 r now s Hs.
    destruct (escalate_alerts k0 r now s)
      as [->|(a & np & info & Ha & _ & _ & _ & ->)];
      rewrite Hs in *; [eauto|].
    apply (Hupd k0 a _ _ eq_refl Ha). constructor. }
  destruct Hstep as [w o uuid now Hfresh | w c Hapi | w h now t Hp];
    cbn [sys exec].
  - rewrite create_alerts. destruct (decide (uuid = k)) as [->|Hne].
    + rewrite map_get_set_eq. intros [= <-]. left. eauto.
    + rewrite map_get_set_ne by done. eauto.
  - intros Hget. right. destruct c; try discriminate; cbn [exec] in Hget.
    + rewrite acknowledge_alerts in Hget.
      destruct (map_get alertId (alerts (sys w))) as [a|] eqn:Ha; [|eauto].
      apply (Hupd alertId a _ _ eq_refl Ha) in Hget; [exact Hget | constructor].
    + rewrite resolve_alerts in Hget.
      destruct (map_get alertId (alerts (sys w))) as [a|] eqn:Ha; [|eauto].
      destruct (decide (alertId = k)) as [->|Hne].
      * rewrite map_get_delete_eq in Hget; [discriminate|].
        apply keys_set_nodup, (inv_nodup _ Hinv).
      * rewrite map_get_delete_ne, map_get_set_ne in Hget by done. eauto.
    + now apply (Hesc alertId reason now (sys w)).
    + unfold addNote in Hget.
      destruct (map_get alertId (alerts (sys w))) as [a|] eqn:Ha; [|eauto].
      apply (Hupd alertId a _ _ eq_refl Ha) in Hget; [exact Hget | constructor].
    + unfold assign in Hget.
      destruct (map_get alertId (alerts (sys w))) as [a|] eqn:Ha; [|eauto].
      apply (Hupd alertId a _ _ eq_refl Ha) in Hget; [exact Hget | constructor].
  - intros Hget. right. unfold timer_fires in Hget. rewrite Hp in Hget.
    now apply Hesc in Hget.
Qed.

(** The history after a step: as before, or with the alert just resolved
    in front and cut to its bound. *)
Lemma step_history (w w' : world) (c : call) :
  step w c w' →
  history (sys w') = history (sys w) ∨
  ∃ k u r now x,
    map_get k (alerts (sys w)) = Some x ∧
    history (sys w') =
      take maxHistory (mark_resolved u r now x :: history (sys w)).
Proof.
  intros [w0 o uuid now Hfresh | w0 c0 Hapi | w0 h now t Hp]; cbn [sys exec].
  - left. apply create_history.
  - destruct c0; try discriminate; cbn [exec].
    + left. apply acknowledge_history.
    + unfold resolve.
      destruct (map_get alertId (alerts (sys w0))) as [a|] eqn:Ha; [|now left].
      right. exists alertId, userId, resolution, now, a. split; [exact Ha|].
      cbn [snd emit history set_alerts]. unfold addToHistory, set_history.
      cbn [history]. rewrite clearEscalation_history. cbn [history set_alerts].
      destruct (Nat.ltb_spec maxHistory
                  (length (mark_resolved userId resolution now a :: history (sys w0))));
        [reflexivity|].
      now rewrite take_ge.
    + left. apply escalate_history.
    + left. unfold addNote. now destruct (map_get alertId (alerts (sys w0))).
    + left. unfold assign. now destruct (map_get alertId (alerts (sys w0))).
  - left. unfold timer_fires. rewrite Hp. now rewrite escalate_history.
Qed.

(** A property that [create] establishes and every update keeps holds of
    all live alerts; what [resolve] makes of it holds of the history. *)
Lemma reachable_alerts (P Q : alert → Prop) :
  (∀ o k now, P (new_alert o k now)) →
  (∀ x x', touched x x' → P x → P x') →
  (∀ u r now x, P x → Q (mark_resolved u r now x)) →
  ∀ w, reachable w →
    (∀ k a, map_get k (alerts (sys w)) = Some a → P a) ∧
    (∀ a, a ∈ history (sys w) → Q a).
Proof.
  intros Hnew Htouch Hres.
  assert (Hsteps : ∀ w cs w', steps w cs w' → inv w →
            (∀ k a, map_get k (alerts (sys w)) = Some a → P a) ∧
            (∀ a, a ∈ history (sys w) → Q a) →
            (∀ k a, map_get k (alerts (sys w')) = Some a → P a) ∧
            (∀ a, a ∈ history (sys w') → Q a)).
  { induction 1 as [|w c w1 cs w2 Hstep _ IH]; intros Hinv [HP HQ]; [done|].
    apply IH; [eapply inv_step; eauto|]. split.
    - intros k a Ha.
      destruct (step_origin w w1 c k a Hinv Hstep Ha)
        as [(_ & o & now & ->)|(x & Hx & [->|Ht])]; eauto.
    - intros a Ha.
      destruct (step_history w w1 c Hstep) as [Heq|(k & u & r & now & x & Hx & Heq)];
        rewrite Heq in Ha; [auto|].
      apply subseteq_take, elem_of_cons in Ha as [->|Ha]; eauto. }
  intros w [cs Hcs]. apply (Hsteps _ _ _ Hcs inv_init). split.
  - intros k a Ha. discriminate.
  - intros a Ha. now apply elem_of_nil in Ha.
Qed.

Lemma filter_all {A} (p : A → bool) (l : list A) :
  Forall (fun x => p x = true) l → List.filter p l = l.
Proof.
  induction 1 as [|x l Hx _ IH]; simpl; [reflexivity|]. now rewrite Hx, IH.
Qed.

Lemma passes_no_filters (a : alert) : passes no_filters a = true.
Proof. reflexivity. Qed.

(** X1.  In every reachable state the live alerts are exactly the
    unresolved ones: a live alert has no resolution flag, actor or time, a
    history entry has all three, and [getActive()] without filters returns
    every live alert once, which is what [getCounts().total] counts. *)
Theorem live_alerts_are_the_unresolved (w : world) :
  reachable w →
  (∀ k a, map_get k (alerts (sys w)) = Some a →
          resolved a = false ∧ resolvedBy a = None ∧ resolvedAt a = None) ∧
  (∀ a, a ∈ history (sys w) →
        resolved a = true ∧ is_Some (resolvedBy a) ∧ is_Some (resolvedAt a)) ∧
  getActive no_filters (sys w) ≡ₚ map snd (alerts (sys w)) ∧
  c_total (getCounts (sys w)) = length (alerts (sys w)).
Proof.
  intros Hreach.
  destruct (reachable_alerts
              (fun a => resolved a = false ∧ resolvedBy a = None ∧ resolvedAt a = None)
              (fun a => resolved a = true ∧ is_Some (resolvedBy a) ∧ is_Some (resolvedAt a)))
    with (w := w) as [Hlive Hhist]; try exact Hreach.
  - intros o k now. repeat split.
  - intros x x' Ht Hx. destruct Ht; exact Hx.
  - intros u r now x _. simpl. repeat split; eauto.
  - assert (Hperm : getActive no_filters (sys w) ≡ₚ map snd (alerts (sys w))).
    { rewrite getActive_unfold, js_sort_perm, filter_all; [reflexivity|].
      apply Forall_forall. intros a Ha.
      apply elem_map_get in Ha as [k Ha].
      apply elem_nodup_map_get in Ha;
        [|exact (inv_nodup _ (inv_reachable w Hreach))].
      destruct (Hlive k a Ha) as [-> _]. reflexivity. }
    split; [exact Hlive|]. split; [exact Hhist|]. split; [exact Hperm|].
    unfold getCounts. cbn [c_total]. rewrite Hperm. now rewrite length_map.
Qed.

(** X1 on an instance: two alerts created, one of them resolved. *)
Lemma live_alerts_are_the_unresolved_witness :
  let w := run_world [Create (with_priority "high") "a1" 10;
                      Create (with_priority "low") "a2" 20;
                      Resolve "a1" "operator" None 30] init_world in
  c_total (getCounts (sys w)) = 1%nat ∧
  ∀ a, a ∈ history (sys w) → resolved a = true.
Proof.
  intros w.
  assert (Hreach : reachable w).
  { eexists. apply valid_steps. vm_compute. reflexivity. }
  destruct (live_alerts_are_the_unresolved w Hreach) as (_ & Hhist & _ & Htotal).
  split; [rewrite Htotal; reflexivity|].
  intros a Ha. now destruct (Hhist a Ha).
Defined.

(** X2.  In every reachable state an alert has at most one armed timeout,
    and it is the one whose handle [escalationTimers] holds for the
    alert. *)
Theorem one_timer_per_alert (w : world) :
  reachable w →
  ∀ h1 t1 h2 t2,
    pending (sys w) !! h1 = Some t1 → pending (sys w) !! h2 = Some t2 →
    timer_alert t1 = timer_alert t2 →
    h1 = h2 ∧ escalationTimers (sys w) !! timer_alert t1 = Some h1.
Proof.
  intros Hreach h1 t1 h2 t2 H1 H2 Heq.
  pose proof (inv_timers _ (inv_reachable w Hreach)) as Hok.
  destruct (Hok h1 t1 H1) as (_ & Hr1 & _).
  destruct (Hok h2 t2 H2) as (_ & Hr2 & _).
  rewrite <- Heq in Hr2. split; [congruence | exact Hr1].
Qed.

(** X2 on an instance: a "low" alert is escalated by hand, which arms a
    second timeout and cancels the first. *)
Lemma one_timer_per_alert_witness :
  let w := run_world [Create (with_priority "low") "a1" 10;
                      Escalate "a1" None 20] init_world in
  map_to_list (pending (sys w)) =
    [(1%nat, {| timer_alert := "a1"; timer_delay := 900000 |})] ∧
  escalationTimers (sys w) !! "a1" = Some 1%nat.
Proof.
  intros w. split; [vm_compute; reflexivity|].
  assert (Hreach : reachable w).
  { eexists. apply valid_steps. vm_compute. reflexivity. }
  apply (one_timer_per_alert w Hreach 1%nat
           {| timer_alert := "a1"; timer_delay := 900000 |} 1%nat
           {| timer_alert := "a1"; timer_delay := 900000 |});
    reflexivity.
Defined.


(** **** Updates keep what an alert is *)

Lemma grows_refl (x : alert) : grows x x.
Proof. unfold grows. repeat split; reflexivity. Qed.

Lemma grows_trans (x y z : alert) : grows x y → grows y z → grows x z.
Proof.
  unfold grows.
  intros (? & ? & ? & ? & ? & ? & ? & ? & ? & Hxy) (? & ? & ? & ? & ? & ? & ? & ? & ? & Hyz).
  repeat split; try congruence. now transitivity (notes y).
Qed.

Lemma touched_grows (x x' : alert) : touched x x' → grows x x'.
Proof.
  intros Ht. destruct Ht; unfold grows; simpl; repeat split;
    try apply prefix_app_r; try reflexivity.
  destruct (truthy n); [now apply prefix_app_r | reflexivity].
Qed.

Lemma steps_grows (w w' : world) (cs : list call) (k : string) (x' : alert) :
  inv w → steps w cs w' →
  map_get k (alerts (sys w')) = Some x' →
  k ∉ issued w ∨ ∃ x, map_get k (alerts (sys w)) = Some x ∧ grows x x'.
Proof.
  intros Hinv Hsteps. revert x'.
  induction Hsteps as [|w c w1 cs w2 Hstep _ IH]; intros x' Hx'.
  - right. eauto using grows_refl.
  - pose proof (inv_step _ _ _ Hinv Hstep) as Hinv1.
    destruct (IH Hinv1 x' Hx') as [Hnew|(x1 & Hx1 & Hg1)].
    + left. intros Hk. apply Hnew. now apply (step_issued w w1 c).
    + destruct (step_origin w w1 c k x1 Hinv Hstep Hx1)
        as [[Hnew _]|(x & Hx & Hcase)]; [now left|].
      right. exists x. split; [exact Hx|].
      destruct Hcase as [->|Ht]; [exact Hg1|].
      apply grows_trans with x1; [now apply touched_grows | exact Hg1].
Qed.

(** X3.  Whatever calls and timer firings happen, a live alert keeps its
    identifier, creation time, category, title, message, source, payload and
    acknowledgement requirement, and its notes are only ever appended to:
    the earlier notes stay, in order, at the front. *)
Theorem alert_notes_are_append_only (w : world) :
  reachable w →
  ∀ cs w' k a a',
    steps w cs w' →
    map_get k (alerts (sys w)) = Some a →
    map_get k (alerts (sys w')) = Some a' →
    grows a a'.
Proof.
  intros Hreach cs w' k a a' Hsteps Ha Ha'.
  pose proof (inv_reachable w Hreach) as Hinv.
  destruct (steps_grows w w' cs k a' Hinv Hsteps Ha') as [Hnew|(x & Hx & Hg)].
  - exfalso. apply Hnew, (inv_live _ Hinv). unfold in_live. rewrite Ha. eauto.
  - rewrite Ha in Hx. now injection Hx as <-.
Qed.

(** X3 on an instance: a note, an assignment and an acknowledgement with
    a note on one alert. *)
Lemma alert_notes_are_append_only_witness :
  let w := run_world [Create (with_priority "high") "a1" 10;
                      AddNote "a1" "operator" "checking the feed" 20] init_world in
  let w' := run_world [Assign "a1" "watch_officer" 30;
                       Acknowledge "a1" "operator" (Some "on it") 40] w in
  ∃ a a', get "a1" (sys w) = Some a ∧ get "a1" (sys w') = Some a' ∧
          length (notes a) = 1%nat ∧ length (notes a') = 3%nat ∧
          notes a `prefix_of` notes a' ∧ createdAt a' = createdAt a.
Proof.
  intros w w'.
  assert (Hreach : reachable w).
  { eexists. apply valid_steps. vm_compute. reflexivity. }
  assert (Hsteps : steps w [Assign "a1" "watch_officer" 30;
                            Acknowledge "a1" "operator" (Some "on it") 40] w').
  { apply valid_steps. vm_compute. reflexivity. }
  eexists _, _.
  split; [vm_compute; reflexivity|]. split; [vm_compute; reflexivity|].
  split; [reflexivity|]. split; [reflexivity|].
  match goal with
  | |- notes ?a `prefix_of` notes ?a' ∧ _ =>
      destruct (alert_notes_are_append_only w Hreach _ w' "a1" a a' Hsteps)
        as (_ & Hc & _ & _ & _ & _ & _ & _ & _ & Hn);
        [vm_compute; reflexivity | vm_compute; reflexivity|]
  end.
  split; [exact Hn | exact Hc].
Defined.

(** **** The history *)








(** **** Counts *)

Lemma priority_classes (l : list alert) :
  length l =
    (with_priority_count "critical" l + with_priority_count "high" l +
     with_priority_count "medium" l + with_priority_count "low" l +
     with_priority_count "info" l +
     length (List.filter (fun a => bool_decide (priority a ∉ escalation_order)) l))%nat.
Proof.
  unfold with_priority_count.
  induction l as [|a l IH]; simpl; [reflexivity|].
  rewrite IH. clear IH.
  destruct (decide (priority a ∈ escalation_order)) as [Hin|Hout].
  - rewrite (bool_decide_eq_false_2 (priority a ∉ escalation_order)) by tauto.
    unfold escalation_order in Hin. rewrite !elem_of_cons in Hin.
    destruct Hin as [Hp|[Hp|[Hp|[Hp|[Hp|Hp]]]]];
      [| | | | |now apply elem_of_nil in Hp];
      rewrite Hp; simpl; lia.
  - rewrite (bool_decide_eq_true_2 (priority a ∉ escalation_order)) by exact Hout.
    unfold escalation_order in Hout. rewrite !not_elem_of_cons in Hout.
    destruct Hout as (H1 & H2 & H3 & H4 & H5 & _).
    rewrite !bool_decide_eq_false_2 by congruence. simpl. lia.
Qed.

Lemma filter_length_le {A} (p : A → bool) (l : list A) :
  (length (List.filter p l) ≤ length l)%nat.
Proof.
  induction l as [|x l IH]; simpl; [lia|]. destruct (p x); simpl; lia.
Qed.

(** X6.  [getCounts()]: the total is the number of unresolved alerts; the
    five per-priority counts add up to the total less the alerts whose
    priority is none of the five, which no per-priority count includes; the
    unacknowledged count never exceeds the total. *)
Theorem getCounts_by_priority (s : state) :
  let c := getCounts s in
  c_total c = length (List.filter (fun a => negb (resolved a)) (map snd (alerts s))) ∧
  c_total c =
    (c_critical c + c_high c + c_medium c + c_low c + c_info c +
     length (List.filter (fun a => bool_decide (priority a ∉ escalation_order))
               (getActive no_filters s)))%nat ∧
  (c_unacknowledged c ≤ c_total c)%nat.
Proof.
  unfold getCounts. cbn [c_total c_critical c_high c_medium c_low c_info c_unacknowledged].
  split; [|split].
  - rewrite getActive_unfold, js_sort_perm. f_equal.
    apply filter_ext'. intros a. now rewrite passes_no_filters, andb_true_r.
  - apply priority_classes.
  - apply filter_length_le.
Qed.

(** **** Unknown identifiers *)

Lemma escalate_null (k : string) (r : option string) (now : Z) (s : state) :
  ((escalate k r now s).1 = None ↔ map_get k (alerts s) = None) ∧
  (map_get k (alerts s) = None → escalate k r now s = (None, s)).
Proof.
  destruct (escalate_cases k r now s)
    as [[Hn Heq]|[(a & Ha & Heq)|(a & np & info & Ha & _ & _ & _ & Heq)]];
    rewrite Heq; simpl; split; try split; congruence.
Qed.

(** X7.  Each of [acknowledge], [resolve], [escalate], [addNote] and
    [assign] returns null exactly when the identifier is not in the live
    set, and then leaves the whole state as it is: no event, no note, no
    timer change. *)
Theorem mutators_ignore_unknown_alerts (s : state) (k : string) :
  (∀ u n now, (acknowledge k u n now s).1 = None ↔ get k s = None) ∧
  (∀ u r now, (resolve k u r now s).1 = None ↔ get k s = None) ∧
  (∀ r now, (escalate k r now s).1 = None ↔ get k s = None) ∧
  (∀ u t now, (addNote k u t now s).1 = None ↔ get k s = None) ∧
  (∀ u now, (assign k u now s).1 = None ↔ get k s = None) ∧
  (get k s = None →
   (∀ u n now, acknowledge k u n now s = (None, s)) ∧
   (∀ u r now, resolve k u r now s = (None, s)) ∧
   (∀ r now, escalate k r now s = (None, s)) ∧
   (∀ u t now, addNote k u t now s = (None, s)) ∧
   (∀ u now, assign k u now s = (None, s))).
Proof.
  unfold get.
  repeat split; intros;
    try (now apply (escalate_null k r now s));
    try (unfold acknowledge, resolve, addNote, assign in *;
         destruct (map_get k (alerts s)); simpl in *; congruence).
Qed.

(** X7 on an instance: an identifier that was never issued. *)
Lemma mutators_ignore_unknown_alerts_witness :
  acknowledge "nobody" "operator" None 5 init = (None, init) ∧
  escalate "nobody" None 5 init = (None, init).
Proof.
  destruct (proj2 (proj2 (proj2 (proj2 (proj2
              (mutators_ignore_unknown_alerts init "nobody"))))) eq_refl)
    as (Hack & _ & Hesc & _).
  split; [apply Hack | apply Hesc].
Defined.

(** **** Automatic escalation *)

Lemma clearEscalation_pending (k : string) (s : state) (h : nat) (t : timer) :
  pending (clearEscalation k s) !! h = Some t → pending s !! h = Some t.
Proof.
  unfold clearEscalation. destruct (escalationTimers s !! k); simpl; [|done].
  intros Hp. now apply lookup_delete_Some in Hp.
Qed.

Lemma delay_ok_sub (s s' : state) :
  alerts s' = alerts s →
  (∀ h t, pending s' !! h = Some t → pending s !! h = Some t) →
  delay_ok s → delay_ok s'.
Proof.
  intros Ha Hsub Hok h t a Hp Hget. rewrite Ha in Hget. eauto.
Qed.

Lemma delay_ok_clear (k : string) (s : state) :
  delay_ok s → delay_ok (clearEscalation k s).
Proof.
  apply delay_ok_sub; [apply clearEscalation_alerts|].
  apply clearEscalation_pending.
Qed.

Lemma delay_ok_emit (e : string) (a : alert) (s : state) :
  delay_ok s → delay_ok (emit e a s).
Proof. apply delay_ok_sub; [reflexivity | done]. Qed.

Lemma delay_ok_update (k : string) (a' : alert) (s : state) :
  delay_ok s →
  (∀ h t, pending s !! h = Some t → timer_alert t = k →
          priority a' = "critical" ∨
          timeout_of (priority a') = Some (timer_delay t)) →
  delay_ok (set_alerts (map_set k a' (alerts s)) s).
Proof.
  intros Hok Hk h t a Hp Ha. simpl in *.
  destruct (decide (k = timer_alert t)) as [->|Hne].
  - rewrite map_get_set_eq in Ha. injection Ha as <-. eauto.
  - rewrite map_get_set_ne in Ha by done. eauto.
Qed.

Lemma delay_ok_same_priority (k : string) (a a' : alert) (s : state) :
  delay_ok s → map_get k (alerts s) = Some a → priority a' = priority a →
  delay_ok (set_alerts (map_set k a' (alerts s)) s).
Proof.
  intros Hok Ha Hpr. apply delay_ok_update; [exact Hok|].
  intros h t Hp Hk. rewrite Hpr. rewrite <- Hk in Ha. eauto.
Qed.

(** Writing an alert and arming its timeout anew. *)
Lemma delay_ok_setup (a : alert) (s : state) :
  timers_ok s → delay_ok s →
  acknowledged a = false ∨ no_timer_for (id a) s →
  delay_ok (setupEscalation a (set_alerts (map_set (id a) a (alerts s)) s)).
Proof.
  intros Htm Hok Hcase. set (s1 := set_alerts _ s).
  assert (Htm1 : timers_ok s1) by now apply timers_ok_update.
  destruct (timers_ok_clear (id a) s1 Htm1) as [_ Hnone].
  assert (Hok1 : delay_ok (clearEscalation (id a) s1)).
  { intros h t x Hp Hx. pose proof (Hnone _ _ Hp) as Hne.
    apply clearEscalation_pending in Hp.
    rewrite clearEscalation_alerts in Hx. simpl in Hx.
    rewrite map_get_set_ne in Hx by congruence. eauto. }
  unfold setupEscalation.
  destruct (timeout_of (priority a)) as [d|] eqn:Hd; [|exact Hok1].
  destruct (negb (acknowledged a)); [|exact Hok1].
  intros h t x Hp Hx. cbn [pending alerts] in Hp, Hx.
  apply lookup_insert_Some in Hp as [[_ <-]|[_ Hp]]; [|eauto].
  cbn [timer_alert timer_delay] in *.
  rewrite clearEscalation_alerts in Hx. simpl in Hx.
  rewrite map_get_set_eq in Hx. injection Hx as <-. now right.
Qed.

Lemma timeout_of_cases (p : string) (d : Z) :
  timeout_of p = Some d →
  (p = "high" ∧ d = 300000) ∨ (p = "medium" ∧ d = 900000) ∨
  (p = "low" ∧ d = 3600000).
Proof.
  unfold timeout_of, priorities. intros Hd.
  repeat case_decide; simplify_eq/=; tauto.
Qed.

Lemma delay_ok_escalate (k : string) (r : option string) (now : Z)
    (s : state) (i : list string) :
  inv {| sys := s; issued := i |} → delay_ok s →
  delay_ok (escalate k r now s).2.
Proof.
  intros Hinv Hok. pose proof (inv_timers _ Hinv) as Htm. simpl in Htm.
  destruct (escalate_cases k r now s)
    as [[_ ->]|[(a & _ & ->)|(a & np & info & Ha & Hlt & Hnp & Hinfo & ->)]];
    [exact Hok | exact Hok |].
  cbn [snd]. apply delay_ok_emit, delay_ok_emit.
  set (a' := raise_priority _ _ _ _ a).
  assert (Hid : id a' = k) by exact (inv_key _ Hinv k a Ha).
  destruct (bool_decide (is_Some (timeout_of np))) eqn:Hto.
  - rewrite <- Hid. apply delay_ok_setup; [exact Htm | exact Hok |].
    rewrite Hid. destruct (acknowledged a) eqn:Hack; [right | now left].
    eapply timers_ok_acknowledged; eauto.
  - apply delay_ok_update; [exact Hok|]. intros h t Hp Hk.
    change (priority a') with np. rewrite <- Hk in Ha.
    destruct (Hok _ _ _ Hp Ha) as [Hc|Hd].
    + rewrite Hc in Hlt. compute_index Hlt. lia.
    + apply timeout_of_cases in Hd as [[Hp' _]|[[Hp' _]|[Hp' _]]];
        rewrite Hp' in Hnp; compute_lhs Hnp; injection Hnp as <-;
        try (now left); now compute_lhs Hto.
Qed.

Lemma delay_ok_exec (c : call) (s : state) (i : list string) :
  inv {| sys := s; issued := i |} → delay_ok s →
  (∀ o uuid now, c = Create o uuid now → uuid ∉ i) →
  delay_ok (exec c s).
Proof.
  intros Hinv Hok Hfresh. pose proof (inv_timers _ Hinv) as Htm. simpl in Htm.
  destruct c; cbn [exec].
  - unfold create. cbn [snd]. apply delay_ok_emit, delay_ok_emit.
    assert (Hnone : no_timer_for uuid s).
    { intros h t Hp Hk. destruct (Htm _ _ Hp) as (_ & _ & a & Ha & _).
      apply (Hfresh o uuid now eq_refl), (inv_live _ Hinv).
      unfold in_live. simpl. rewrite <- Hk, Ha. eauto. }
    destruct (default true (opt_autoEscalate o) && _).
    + apply (delay_ok_setup (new_alert o uuid now)); [exact Htm | exact Hok |].
      now left.
    + apply delay_ok_update; [exact Hok|]. intros h t Hp Hk.
      now destruct (Hnone _ _ Hp).
  - unfold acknowledge. destruct (map_get alertId (alerts s)) eqn:Ha; [|exact Hok].
    cbn [snd]. apply delay_ok_emit, delay_ok_clear.
    now apply delay_ok_same_priority with a.
  - unfold resolve. destruct (map_get alertId (alerts s)) eqn:Ha; [|exact Hok].
    cbn [snd]. apply delay_ok_emit.
    set (a' := mark_resolved userId resolution now a).
    set (s2 := clearEscalation alertId (set_alerts (map_set alertId a' (alerts s)) s)).
    assert (Hok2 : delay_ok s2).
    { apply delay_ok_clear. now apply delay_ok_same_priority with a. }
    assert (Hnd : NoDup (map fst (alerts s2))).
    { unfold s2. rewrite clearEscalation_alerts. simpl.
      apply keys_set_nodup. exact (inv_nodup _ Hinv). }
    intros h t x Hp Hx. cbn [pending alerts set_alerts addToHistory set_history] in Hp, Hx.
    destruct (decide (alertId = timer_alert t)) as [Hk|Hne].
    + rewrite <- Hk, map_get_delete_eq in Hx by exact Hnd. discriminate.
    + rewrite map_get_delete_ne in Hx by done. eauto.
  - eapply delay_ok_escalate; eauto.
  - unfold addNote. destruct (map_get alertId (alerts s)) eqn:Ha; [|exact Hok].
    cbn [snd]. apply delay_ok_emit. now apply delay_ok_same_priority with a.
  - unfold assign. destruct (map_get alertId (alerts s)) eqn:Ha; [|exact Hok].
    cbn [snd]. apply delay_ok_emit. now apply delay_ok_same_priority with a.
  - unfold timer_fires. destruct (pending s !! h) as [t|] eqn:Hp; [|exact Hok].
    apply (delay_ok_escalate _ _ _ _ i); [now apply inv_timer_dropped|].
    revert Hok. apply delay_ok_sub; [reflexivity|]. simpl.
    intros h' t' Hp'. now apply lookup_delete_Some in Hp'.
Qed.

Lemma delay_ok_reachable (w : world) : reachable w → delay_ok (sys w).
Proof.
  intros [cs Hsteps].
  assert (Hgen : ∀ w0, inv w0 → delay_ok (sys w0) → steps w0 cs w →
                       delay_ok (sys w)).
  { clear Hsteps. intros w0 Hinv Hok Hsteps.
    induction Hsteps as [|w0 c w1 cs w2 Hstep _ IH]; [exact Hok|].
    apply IH; [eapply inv_step; eauto|].
    rewrite <- (world_eta w0) in Hinv.
    destruct Hstep as [w0 o uuid now Hfresh | w0 c Hapi | w0 h now t Hp];
      cbn [sys]; eapply delay_ok_exec; eauto.
    - now intros ? ? ? [= _ <- _].
    - intros o uuid now ->. discriminate.
    - discriminate. }
  apply (Hgen init_world); [apply inv_init | | exact Hsteps].
  intros h t a Hp. simpl in Hp. now apply lookup_empty_Some in Hp.
Qed.

Lemma escalate_rung (k : string) (r : option string) (now : Z) (s : state)
    (a : alert) (np : string) (l : Z) :
  map_get k (alerts s) = Some a →
  (priority a, np, l) ∈ [("info", "low", 2); ("low", "medium", 3);
                         ("medium", "high", 4); ("high", "critical", 5)] →
  escalate k r now s =
    let a' := raise_priority np l
                (default "Auto-escalation due to timeout" r) now a in
    let s1 := set_alerts (map_set k a' (alerts s)) s in
    (Some a',
     emit "alert" a'
       (emit "alert:escalated" a'
          (if bool_decide (np = "critical") then s1
           else setupEscalation a' s1))).
Proof.
  intros Ha Hin. unfold escalate. rewrite Ha. cbn zeta.
  rewrite !elem_of_cons in Hin.
  destruct Hin as [Hin|[Hin|[Hin|[Hin|Hin]]]];
    [| | | |now apply elem_of_nil in Hin];
    injection Hin as -> -> ->; reflexivity.
Qed.

Lemma armed_setup (a : alert) (d : Z) (s : state) :
  acknowledged a = false → timeout_of (priority a) = Some d →
  armed (id a) (setupEscalation a s) = Some d.
Proof.
  intros Hack Hd. unfold setupEscalation. rewrite Hd, Hack. cbn [negb].
  unfold armed. cbn [escalationTimers pending].
  rewrite lookup_insert_eq. cbn. now rewrite lookup_insert_eq.
Qed.

(** X8.  When the timeout of an alert fires, the alert is live and not
    acknowledged, and the firing moves it exactly one step up the ladder
    low -> medium -> high -> critical: the timeout had the delay of the old
    priority (one hour, fifteen minutes, five minutes), the alert gets the
    next priority, one more rank and escalation level and the note
    "Auto-escalation due to timeout", the events [alert:escalated] and
    [alert] are emitted, and the timeout of the new priority is armed, none
    at "critical".  A timeout left over on an alert already raised to
    "critical" changes nothing. *)
Theorem timeout_raises_one_level (w : world) :
  reachable w →
  ∀ h t now, pending (sys w) !! h = Some t →
    let k := timer_alert t in
    let s' := timer_fires h now (sys w) in
    ∃ a, get k (sys w) = Some a ∧ acknowledged a = false ∧
      ((priority a = "critical" ∧ get k s' = Some a ∧ armed k s' = None ∧
        emitted s' = emitted (sys w)) ∨
       (∃ np a',
          (priority a, timer_delay t, np, armed k s') ∈ auto_escalation ∧
          a' = raise_priority np (priorityLevel a + 1)
                 "Auto-escalation due to timeout" now a ∧
          get k s' = Some a' ∧
          emitted s' = emitted (sys w) ++ [("alert:escalated", a'); ("alert", a')])).
Proof.
  intros Hreach h t now Hp k s'.
  pose proof (inv_reachable w Hreach) as Hinv.
  pose proof (delay_ok_reachable w Hreach) as Hok.
  destruct (inv_timers _ Hinv _ _ Hp) as (_ & Hreg & a & Ha & Hack).
  pose proof (inv_key _ Hinv _ _ Ha) as Hid.
  pose proof (inv_rank _ Hinv _ _ Ha) as Hrank. unfold rank_ok in Hrank.
  exists a. split; [exact Ha|]. split; [exact Hack|].
  fold k in Ha, Hreg, Hid.
  unfold s', timer_fires. rewrite Hp. fold k.
  set (s1 := {| alerts := alerts (sys w); pending := delete h (pending (sys w)) |}).
  assert (Hgone : armed k s1 = None).
  { unfold armed, s1. cbn [escalationTimers pending]. rewrite Hreg. cbn.
    now rewrite lookup_delete_eq. }
  destruct (Hok _ _ _ Hp Ha) as [Hc|Hd].
  - left. split; [exact Hc|].
    assert (Hesc : escalate k None now s1 = (Some a, s1)).
    { unfold escalate. cbn [alerts s1]. rewrite Ha. cbn zeta. now rewrite Hc. }
    rewrite Hesc. repeat split; assumption.
  - right.
    assert (Hrung : ∃ np nd,
               (priority a, timer_delay t, np, nd) ∈ auto_escalation ∧
               (priority a, np, priorityLevel a + 1) ∈
                 [("info", "low", 2); ("low", "medium", 3);
                  ("medium", "high", 4); ("high", "critical", 5)] ∧
               timeout_of np = nd ∧
               (np = "critical" ↔ nd = None)).
    { apply timeout_of_cases in Hd as [[Hpr Hd]|[[Hpr Hd]|[Hpr Hd]]];
        rewrite Hpr in Hrank |- *; rewrite Hd; compute_rhs Hrank; rewrite Hrank;
        [exists "critical", None | exists "high", (Some 300000)
         | exists "medium", (Some 900000)];
        (split; [unfold auto_escalation; rewrite !elem_of_cons; tauto|]);
        (split; [rewrite !elem_of_cons; tauto|]);
        (split; [reflexivity|]); split; congruence. }
    destruct Hrung as (np & nd & Hladder & Hin & Hnd & Hcrit).
    exists np. eexists. split; [|split; [reflexivity|]].
    + rewrite (escalate_rung k None now s1 a np (priorityLevel a + 1) Ha Hin).
      cbn zeta. cbn [snd default].
      set (a' := raise_priority _ _ _ _ a).
      replace (armed k _) with nd; [exact Hladder|].
      destruct nd as [d|].
      * rewrite bool_decide_eq_false_2 by (intros Hn; apply Hcrit in Hn; discriminate).
        change (Some d =
                armed k (setupEscalation a' (set_alerts (map_set k a' (alerts s1)) s1))).
        rewrite <- Hid. change (id a) with (id a').
        symmetry. now apply armed_setup.
      * rewrite bool_decide_eq_true_2 by (now apply Hcrit).
        symmetry. exact Hgone.
    + rewrite (escalate_rung k None now s1 a np (priorityLevel a + 1) Ha Hin).
      cbn zeta. cbn [snd default alerts emit emitted].
      split.
      * unfold get. destruct (bool_decide (np = "critical"));
          cbn [alerts emit]; rewrite ?setupEscalation_alerts;
          apply map_get_set_eq.
      * destruct (bool_decide (np = "critical"));
          cbn [emitted emit]; rewrite ?setupEscalation_emitted;
          cbn [emitted set_alerts s1]; now rewrite <- app_assoc.
Qed.

(** X8 on an instance: the five-minute timeout of a "high" alert. *)
Lemma timeout_raises_one_level_witness :
  let w := run_world [Create (with_priority "high") "a1" 10] init_world in
  ∃ a, get "a1" (sys w) = Some a ∧ acknowledged a = false ∧
       priority <$> get "a1" (timer_fires 0 400 (sys w)) = Some "critical".
Proof.
  intros w.
  assert (Hreach : reachable w).
  { eexists. apply valid_steps. vm_compute. reflexivity. }
  destruct (timeout_raises_one_level w Hreach 0%nat
              {| timer_alert := "a1"; timer_delay := 300000 |} 400 eq_refl)
    as (a & Ha & Hack & _).
  exists a. split; [exact Ha|]. split; [exact Hack|]. vm_compute. reflexivity.
Defined.

(** **** Creation and the presets *)

Lemma map_set_new {A} (k : string) (v : A) (m : list (string * A)) :
  map_get k m = None → map_set k v m = m ++ [(k, v)].
Proof.
  induction m as [|[k0 v0] m IH]; simpl; [reflexivity|].
  destruct (decide (k0 = k)) as [->|Hk]; simpl; [discriminate|].
  intros Hn. now rewrite IH.
Qed.

Lemma armed_emit (k e : string) (a : alert) (s : state) :
  armed k (emit e a s) = armed k s.
Proof. reflexivity. Qed.

(** A created alert is live under its identifier, and the timeout of its
    priority is armed for it, unless [autoEscalate] is off. *)
Lemma create_live_and_armed (o : options) (uuid : string) (now : Z)
    (s : state) :
  escalationTimers s !! uuid = None →
  (create o uuid now s).1 = new_alert o uuid now ∧
  get uuid (create o uuid now s).2 = Some (new_alert o uuid now) ∧
  armed uuid (create o uuid now s).2 =
    (if default true (opt_autoEscalate o)
     then timeout_of (default "medium" (opt_priority o)) else None) ∧
  emitted (create o uuid now s).2 =
    emitted s ++ [("alert:created", new_alert o uuid now);
                  ("alert", new_alert o uuid now)].
Proof.
  intros Hfresh. split; [reflexivity|].
  split; [unfold get; rewrite create_alerts; apply map_get_set_eq|].
  unfold create. cbn [snd]. rewrite !armed_emit. cbn [emitted emit].
  set (a := new_alert o uuid now).
  set (s1 := set_alerts (map_set uuid a (alerts s)) s).
  assert (Hnone : armed uuid s1 = None).
  { unfold armed, s1. cbn [escalationTimers set_alerts]. now rewrite Hfresh. }
  destruct (default true (opt_autoEscalate o)); cbn [andb].
  - destruct (timeout_of (default "medium" (opt_priority o))) as [d|] eqn:Hd.
    + rewrite bool_decide_eq_true_2 by eauto. split.
      * change uuid with (id a) at 1. now apply armed_setup.
      * rewrite setupEscalation_emitted. cbn [emitted s1 set_alerts].
        now rewrite <- app_assoc.
    + rewrite bool_decide_eq_false_2 by (intros [? ?]; discriminate).
      split; [exact Hnone|]. cbn [emitted s1 set_alerts].
      now rewrite <- app_assoc.
  - split; [exact Hnone|]. cbn [emitted s1 set_alerts].
    now rewrite <- app_assoc.
Qed.

(** X19.  The three presets create a live, unacknowledged alert with
    their category and source, the given priority or their default (high,
    medium, low), and the timeout of that priority armed.  A security alert
    requires acknowledgement exactly at "critical" and "high", an
    intelligence alert exactly at "critical", a system alert never. *)
Theorem presets_fix_category_and_acknowledgement (s : state)
    (ttl msg : option string) (p : option string) (d : option payload)
    (uuid : string) (now : Z) :
  escalationTimers s !! uuid = None →
  let made preset fallback cat src ack :=
    let r : alert * state := preset ttl msg p d uuid now s in
    get uuid r.2 = Some r.1 ∧
    priority r.1 = default fallback p ∧
    category r.1 = cat ∧ source r.1 = src ∧
    title r.1 = ttl ∧ message r.1 = msg ∧
    acknowledged r.1 = false ∧
    requiresAck r.1 = ack (default fallback p) ∧
    armed uuid r.2 = timeout_of (default fallback p) in
  made security "high" "security" "security-system"
    (fun q => bool_decide (q = "critical") || bool_decide (q = "high")) ∧
  made intelligence "medium" "intelligence" "kdt-hero"
    (fun q => bool_decide (q = "critical")) ∧
  made system "low" "system" "system" (fun _ => false).
Proof.
  intros Hfresh made. unfold made, security, intelligence, system.
  repeat split;
    try (match goal with
         | |- get _ (create ?o _ _ _).2 = _ =>
             apply (create_live_and_armed o uuid now s Hfresh)
         | |- armed _ (create ?o _ _ _).2 = _ =>
             exact (proj1 (proj2 (proj2 (create_live_and_armed o uuid now s Hfresh))))
         end).
Qed.

(** X19 on an instance: a security alert with the default priority. *)
Lemma presets_fix_category_and_acknowledgement_witness :
  let r := security (Some "Door forced") None None None "a1" 5 init in
  priority r.1 = "high" ∧ requiresAck r.1 = true ∧
  armed "a1" r.2 = Some 300000.
Proof.
  destruct (presets_fix_category_and_acknowledgement init (Some "Door forced")
              None None None "a1" 5 eq_refl)
    as ((_ & Hp & _ & _ & _ & _ & _ & Hack & Harmed) & _).
  split; [exact Hp|]. split; [exact Hack | exact Harmed].
Defined.

Lemma last_drop_lt {A} (n : nat) (l : list A) :
  (n < length l)%nat → last (drop n l) = last l.
Proof.
  revert n. induction l as [|x l IH]; intros n Hn; [simpl in Hn; lia|].
  destruct n as [|n]; [reflexivity|]. simpl in Hn.
  rewrite skipn_cons, IH by lia.
  destruct l as [|y l]; [simpl in Hn; lia | reflexivity].
Qed.

End AlertSystemFacts.

(** *** Sensors *)

Module SensorSystemFacts.
Import JsString SensorSystem.

Section WithGeometry.
Context `{Geometry}.

(** **** The rules *)

Lemma detected_positive {A} (cls : detection_lists → option (list A))
    (d : reading) :
  (0 <? detected cls d)%nat = non_empty (detections d ≫= cls).
Proof.
  unfold detected. now destruct (detections d ≫= cls) as [[|x l]|].
Qed.

Lemma existsb_on_watchlist (s : state) (l : list face) :
  existsb (on_watchlist s) l =
    existsb (fun f => bool_decide (face_id f ∈ dom (watch_faces s))) l.
Proof.
  induction l as [|f l IH]; simpl; [reflexivity|]. rewrite IH. f_equal.
  unfold on_watchlist. apply bool_decide_ext. symmetry. apply elem_of_dom.
Qed.

Lemma orb_as_negb (a b : bool) : a || b = negb (negb b && negb a).
Proof. now destruct a, b. Qed.

Ltac split_conditions :=
  repeat match goal with
         | |- context [if ?b then _ else _] => destruct b
         end.

(** The array built by the [switch] names the satisfied rules of the
    specification's table for the sensor's type, in the table's order. *)
Lemma detect_names (sn : sensor) (dp : dataPoint) (s : state) :
  map trigger (detect sn dp s) =
    map fst (List.filter (satisfied s sn (dp_data dp)) (rule_table (type sn))).
Proof.
  unfold detect, rule_table, satisfied.
  rewrite !detected_positive, existsb_on_watchlist, orb_as_negb.
  repeat (destruct (decide (type sn = _));
          [unfold push_if; cbn [List.filter fst snd map app];
           split_conditions; reflexivity|]).
  reflexivity.
Qed.




(** **** What [ingest] does to the state *)

Lemma emit_triggers_emitted (sensorId : string) (sn : sensor) (dp : dataPoint)
    (ts : list trigger_entry) (s : state) :
  emitted (emit_triggers sensorId sn dp ts s) =
    emitted s ++ map (fun t => EvTrigger (trigger_payload sn dp t)) ts.
Proof.
  revert sn s. induction ts as [|t ts IH]; intros sn s; simpl.
  - now rewrite app_nil_r.
  - rewrite IH. simpl. now rewrite <- app_assoc.
Qed.

Lemma emit_triggers_frame (sensorId : string) (sn : sensor) (dp : dataPoint)
    (ts : list trigger_entry) (s : state) :
  dataBuffer (emit_triggers sensorId sn dp ts s) = dataBuffer s ∧
  geofences (emit_triggers sensorId sn dp ts s) = geofences s ∧
  watch_faces (emit_triggers sensorId sn dp ts s) = watch_faces s ∧
  ∀ other, other ≠ sensorId →
    sensors (emit_triggers sensorId sn dp ts s) !! other = sensors s !! other.
Proof.
  revert sn s. induction ts as [|t ts IH]; intros sn s; simpl; [done|].
  destruct (IH (count_trigger sn)
              (emit (EvTrigger (trigger_payload (count_trigger sn) dp t))
                    (set_sensor sensorId (count_trigger sn) s)))
    as (-> & -> & -> & Hs).
  repeat split. intros other Hne. rewrite Hs by done. simpl.
  now rewrite lookup_insert_ne.
Qed.

Lemma emit_triggers_sensor (sensorId : string) (sn : sensor) (dp : dataPoint)
    (ts : list trigger_entry) (s : state) :
  sensors s !! sensorId = Some sn →
  ∃ sn', sensors (emit_triggers sensorId sn dp ts s) !! sensorId = Some sn' ∧
         same_sensor sn sn' ∧ lastSeen sn' = lastSeen sn ∧
         lastData sn' = lastData sn ∧ status sn' = status sn ∧
         dataCount (stats sn') = dataCount (stats sn) ∧
         triggerCount (stats sn') = triggerCount (stats sn) + Z.of_nat (length ts).
Proof.
  revert sn s. induction ts as [|t ts IH]; intros sn s Hsn; simpl.
  - exists sn. unfold same_sensor. repeat split; [exact Hsn | lia].
  - destruct (IH (count_trigger sn)
                (emit (EvTrigger (trigger_payload (count_trigger sn) dp t))
                      (set_sensor sensorId (count_trigger sn) s)))
      as (sn' & Hl & (? & ? & ? & ? & ?) & ? & ? & ? & ? & Hc).
    { simpl. apply lookup_insert_eq. }
    exists sn'. unfold same_sensor. simpl in *.
    repeat split; try assumption. lia.
Qed.

Lemma ingest_spec (sensorId : string) (sn : sensor) (buf : list dataPoint)
    (data : reading) (now : string) (s : state) :
  sensors s !! sensorId = Some sn → dataBuffer s !! sensorId = Some buf →
  let dp := make_dataPoint sensorId sn data now in
  ∃ s' sn',
    ingest sensorId data now s = Ok (dp, s') ∧
    sensors s' !! sensorId = Some sn' ∧ same_sensor sn sn' ∧
    lastSeen sn' = dp_timestamp dp ∧ lastData sn' = Some dp ∧
    status sn' = "online" ∧
    dataCount (stats sn') = dataCount (stats sn) + 1 ∧
    triggerCount (stats sn') =
      triggerCount (stats sn) + Z.of_nat (length (detect sn dp s)) ∧
    dataBuffer s' = <[sensorId := push_bounded buf dp]> (dataBuffer s) ∧
    (∀ other, other ≠ sensorId → sensors s' !! other = sensors s !! other) ∧
    geofences s' = geofences s ∧ watch_faces s' = watch_faces s ∧
    emitted s' = emitted s ++ [EvData dp; EvDataOfType (type sn) dp] ++
                 map (fun t => EvTrigger (trigger_payload sn dp t)) (detect sn dp s).
Proof.
  intros Hsn Hbuf dp. unfold ingest. rewrite Hsn. fold dp.
  cbn [dataBuffer set_sensor]. rewrite Hbuf.
  set (sn1 := seen (dp_timestamp dp) dp sn).
  set (s3 := emit _ (emit _ (set_buffer _ _ (set_sensor _ sn1 s)))).
  assert (Hdetect : detect sn1 dp s3 = detect sn dp s) by reflexivity.
  destruct (emit_triggers_sensor sensorId sn1 dp (detect sn1 dp s3) s3)
    as (sn' & Hl & (? & ? & ? & ? & ?) & ? & ? & ? & ? & Hc).
  { simpl. apply lookup_insert_eq. }
  destruct (emit_triggers_frame sensorId sn1 dp (detect sn1 dp s3) s3)
    as (Hb & Hg & Hw & Hother).
  eexists _, sn'. split; [reflexivity|]. unfold processTriggers. cbn [snd].
  split; [exact Hl|]. split; [unfold same_sensor; simpl in *; by repeat split|].
  split; [simpl in *; congruence|]. split; [simpl in *; congruence|].
  split; [simpl in *; congruence|]. split; [simpl in *; congruence|].
  split; [rewrite Hc, Hdetect; reflexivity|].
  split; [rewrite Hb; reflexivity|].
  split; [intros other Hne; rewrite Hother by done; simpl;
          now rewrite lookup_insert_ne|].
  split; [rewrite Hg; reflexivity|]. split; [rewrite Hw; reflexivity|].
  rewrite emit_triggers_emitted, Hdetect. simpl.
  rewrite <- !app_assoc. reflexivity.
Qed.


Lemma fired_names (sn : sensor) (dp : dataPoint) (ts : list trigger_entry) :
  map te_trigger (map (trigger_payload sn dp) ts) = map trigger ts.
Proof. induction ts as [|t ts IH]; simpl; [reflexivity | now rewrite IH]. Qed.

Lemma count_name_map (n : string) (ts : list trigger_event) :
  count_name n ts =
    length (List.filter (fun m => bool_decide (m = n)) (map te_trigger ts)).
Proof.
  unfold count_name. induction ts as [|t ts IH]; simpl; [reflexivity|].
  destruct (bool_decide (te_trigger t = n)); simpl; now rewrite IH.
Qed.

Lemma filter_names_absent (n : string) (l : list string) :
  n ∉ l → List.filter (fun m => bool_decide (m = n)) l = [].
Proof.
  induction l as [|m l IH]; simpl; [reflexivity|].
  rewrite not_elem_of_cons. intros [Hne Hl].
  rewrite bool_decide_eq_false_2 by congruence. now apply IH.
Qed.

Lemma filtered_names_sub {R : Type} (p : R → bool) (name : R → string)
    (l : list R) (n : string) :
  n ∈ map name (List.filter p l) → n ∈ map name l.
Proof.
  intros Hn. apply list_elem_of_fmap in Hn as (r & -> & Hr).
  apply list_elem_of_In, filter_In in Hr as [Hr _].
  apply list_elem_of_fmap_2. now apply list_elem_of_In.
Qed.


(** **** The reading buffer *)

Lemma keep_last_all {A} (n : nat) (l : list A) :
  (length l ≤ n)%nat → keep_last n l = l.
Proof. intros Hl. unfold keep_last. now replace (length l - n)%nat with O by lia. Qed.

Lemma keep_last_length {A} (n : nat) (l : list A) :
  (length (keep_last n l) ≤ n)%nat.
Proof. unfold keep_last. rewrite length_drop. lia. Qed.

Lemma keep_last_app {A} (n : nat) (l l2 : list A) :
  keep_last n (keep_last n l ++ l2) = keep_last n (l ++ l2).
Proof.
  unfold keep_last.
  rewrite <- (drop_app_le l l2 (length l - n)) by lia.
  rewrite drop_drop. f_equal.
  rewrite length_drop, !length_app. lia.
Qed.

Lemma push_bounded_keep_last (buf : list dataPoint) (dp : dataPoint) :
  (length buf ≤ bufferSize)%nat →
  push_bounded buf dp = keep_last bufferSize (buf ++ [dp]).
Proof.
  intros Hl. unfold push_bounded, keep_last.
  destruct (Nat.ltb_spec bufferSize (length (buf ++ [dp]))) as [Hlt|Hge];
    rewrite length_app in *; simpl in *.
  - replace (length buf + 1 - bufferSize)%nat with 1%nat by lia.
    now destruct (buf ++ [dp]).
  - now replace (length buf + 1 - bufferSize)%nat with O by lia.
Qed.

(** When the buffer is full the oldest reading leaves and the new one
    goes last. *)
Lemma push_bounded_fifo (buf : list dataPoint) (dp : dataPoint) :
  (length buf ≤ bufferSize)%nat →
  push_bounded buf dp =
    if (length buf <? bufferSize)%nat then buf ++ [dp] else tail buf ++ [dp].
Proof.
  intros Hl. unfold push_bounded. rewrite length_app. simpl.
  destruct (Nat.ltb_spec (length buf) bufferSize) as [Hlt|Hge].
  - destruct (Nat.ltb_spec bufferSize (length buf + 1)); [lia|reflexivity].
  - destruct (Nat.ltb_spec bufferSize (length buf + 1)); [|lia].
    destruct buf; [simpl in Hge; unfold bufferSize in Hge; lia | reflexivity].
Qed.

Lemma arrivals_same (sensorId : string) (sn sn' : sensor)
    (calls : list (string * reading * string)) :
  same_sensor sn sn' → arrivals sensorId sn' calls = arrivals sensorId sn calls.
Proof.
  intros (_ & Hname & Htype & Hzone & _). unfold arrivals.
  apply map_ext. intros c. unfold make_dataPoint. now rewrite Hname, Htype, Hzone.
Qed.

Lemma same_sensor_trans (a b c : sensor) :
  same_sensor a b → same_sensor b c → same_sensor a c.
Proof.
  unfold same_sensor. intros (? & ? & ? & ? & ?) (? & ? & ? & ? & ?).
  repeat split; congruence.
Qed.

Lemma ingest_step (sensorId : string) (sn : sensor) (buf : list dataPoint)
    (data : reading) (now : string) (s : state) :
  buffers_ok s →
  sensors s !! sensorId = Some sn → dataBuffer s !! sensorId = Some buf →
  let dp := make_dataPoint sensorId sn data now in
  ∃ s' sn',
    ingest sensorId data now s = Ok (dp, s') ∧ buffers_ok s' ∧
    sensors s' !! sensorId = Some sn' ∧ same_sensor sn sn' ∧
    lastSeen sn' = dp_timestamp dp ∧
    dataBuffer s' !! sensorId = Some (push_bounded buf dp) ∧
    (∀ other, other ≠ sensorId →
       sensors s' !! other = sensors s !! other ∧
       dataBuffer s' !! other = dataBuffer s !! other).
Proof.
  intros [Hreg Hbound] Hsn Hbuf dp.
  destruct (ingest_spec sensorId sn buf data now s Hsn Hbuf)
    as (s' & sn' & Hrun & Hsn' & Hsame & Hseen & _ & _ & _ & _ & Hb & Hother & _).
  fold dp in Hrun, Hseen, Hb.
  exists s', sn'. split; [exact Hrun|]. split.
  { split.
    - intros i [x Hx]. rewrite Hb. destruct (decide (i = sensorId)) as [->|Hne].
      + rewrite lookup_insert_eq. eauto.
      + rewrite lookup_insert_ne by done. apply Hreg.
        rewrite <- Hother by done. eauto.
    - intros i b. rewrite Hb. destruct (decide (i = sensorId)) as [->|Hne].
      + rewrite lookup_insert_eq. intros [= <-].
        rewrite push_bounded_keep_last by (eapply Hbound; eauto).
        apply keep_last_length.
      + rewrite lookup_insert_ne by done. apply Hbound. }
  split; [exact Hsn'|]. split; [exact Hsame|]. split; [exact Hseen|].
  split; [rewrite Hb; apply lookup_insert_eq|].
  intros other Hne. split; [now apply Hother|].
  rewrite Hb. now rewrite lookup_insert_ne.
Qed.

Lemma ingest_all_spec (calls : list (string * reading * string)) (s : state) :
  buffers_ok s →
  Forall (fun c => is_Some (sensors s !! c.1.1)) calls →
  ∃ s', ingest_all calls s = Ok s' ∧ buffers_ok s' ∧
    ∀ sensorId sn buf,
      sensors s !! sensorId = Some sn → dataBuffer s !! sensorId = Some buf →
      ∃ sn', sensors s' !! sensorId = Some sn' ∧ same_sensor sn sn' ∧
        dataBuffer s' !! sensorId =
          Some (keep_last bufferSize (buf ++ arrivals sensorId sn calls)) ∧
        lastSeen sn' =
          default (lastSeen sn) (dp_timestamp <$> last (arrivals sensorId sn calls)).
Proof.
  revert s. induction calls as [|[[id0 data] now] rest IH]; intros s Hok Hcalls.
  - exists s. split; [reflexivity|]. split; [exact Hok|].
    intros sensorId sn buf Hsn Hbuf. exists sn.
    split; [exact Hsn|]. split; [unfold same_sensor; by repeat split|].
    unfold arrivals; simpl. rewrite app_nil_r.
    rewrite keep_last_all by (eapply (proj2 Hok); eauto). now split.
  - apply Forall_cons in Hcalls as [[sn0 Hsn0] Hrest]. simpl in Hsn0.
    destruct (proj1 Hok id0) as [buf0 Hbuf0]; [eauto|].
    destruct (ingest_step id0 sn0 buf0 data now s Hok Hsn0 Hbuf0)
      as (s1 & sn1 & Hrun & Hok1 & Hsn1 & Hsame1 & Hseen1 & Hb1 & Hother).
    destruct (IH s1 Hok1) as (s' & Hall & Hok' & Hfinal).
    { eapply Forall_impl; [exact Hrest|]. intros c [x Hx].
      destruct (decide (c.1.1 = id0)) as [Heq|Hne].
      - rewrite Heq, Hsn1. eauto.
      - rewrite (proj1 (Hother _ Hne)), Hx. eauto. }
    exists s'. split; [simpl; now rewrite Hrun|]. split; [exact Hok'|].
    intros sensorId sn buf Hsn Hbuf.
    destruct (decide (sensorId = id0)) as [->|Hne].
    + assert (sn = sn0) as -> by congruence.
      assert (buf = buf0) as -> by congruence.
      destruct (Hfinal id0 sn1 _ Hsn1 Hb1) as (sn' & Hsn' & Hsame' & Hb' & Hseen').
      exists sn'. split; [exact Hsn'|].
      split; [now apply same_sensor_trans with sn1|].
      rewrite (arrivals_same id0 sn0 sn1 rest Hsame1) in Hb', Hseen'.
      assert (Harr : arrivals id0 sn0 ((id0, data, now) :: rest) =
                     make_dataPoint id0 sn0 data now :: arrivals id0 sn0 rest).
      { unfold arrivals. simpl. now rewrite bool_decide_eq_true_2. }
      rewrite Harr. split.
      * rewrite Hb'. f_equal.
        rewrite push_bounded_keep_last by (eapply (proj2 Hok); eauto).
        rewrite keep_last_app. f_equal. now rewrite <- app_assoc.
      * rewrite Hseen', Hseen1.
        destruct (arrivals id0 sn0 rest) as [|d ds]; [reflexivity|].
        rewrite last_cons_cons.
        destruct (last (d :: ds)) eqn:Hlast; [reflexivity|].
        now apply last_None in Hlast.
    + destruct (Hother sensorId Hne) as [Hs1 Hb1'].
      rewrite <- Hs1 in Hsn. rewrite <- Hb1' in Hbuf.
      destruct (Hfinal sensorId sn buf Hsn Hbuf) as (sn' & Hsn' & Hsame' & Hb' & Hseen').
      exists sn'. split; [exact Hsn'|]. split; [exact Hsame'|].
      assert (Harr : arrivals sensorId sn ((id0, data, now) :: rest) =
                     arrivals sensorId sn rest).
      { unfold arrivals. simpl. rewrite bool_decide_eq_false_2; [reflexivity|].
        simpl. congruence. }
      rewrite Harr. now split.
Qed.

(** C6.  With every buffer within its capacity of 100 (as after
    [register]): an [ingest] on a registered sensor succeeds, sets the
    sensor's [lastSeen] to the timestamp of the ingested reading, appends
    the reading to the sensor's buffer and, when the buffer was full, drops
    its oldest entry, so that no buffer exceeds the capacity; after any
    sequence of [ingest] calls on registered sensors, each sensor's buffer
    holds the most recent 100 of its readings in arrival order, and its
    [lastSeen] is the timestamp of its latest reading. *)
Theorem buffer_holds_latest_readings (s : state) :
  buffers_ok s →
  (∀ sensorId sn buf data now,
     sensors s !! sensorId = Some sn → dataBuffer s !! sensorId = Some buf →
     ∃ dp s' sn',
       ingest sensorId data now s = Ok (dp, s') ∧ buffers_ok s' ∧
       dp_timestamp dp = stamp data now ∧
       sensors s' !! sensorId = Some sn' ∧ lastSeen sn' = dp_timestamp dp ∧
       dataBuffer s' !! sensorId =
         Some (if (length buf <? bufferSize)%nat
               then buf ++ [dp] else tail buf ++ [dp])) ∧
  (∀ calls,
     Forall (fun c => is_Some (sensors s !! c.1.1)) calls →
     ∃ s', ingest_all calls s = Ok s' ∧ buffers_ok s' ∧
       ∀ sensorId sn buf,
         sensors s !! sensorId = Some sn → dataBuffer s !! sensorId = Some buf →
         ∃ sn' buf',
           sensors s' !! sensorId = Some sn' ∧
           dataBuffer s' !! sensorId = Some buf' ∧
           (length buf' ≤ bufferSize)%nat ∧
           buf' = keep_last bufferSize (buf ++ arrivals sensorId sn calls) ∧
           lastSeen sn' =
             default (lastSeen sn)
               (dp_timestamp <$> last (arrivals sensorId sn calls))).
Proof.
  intros Hok. split.
  - intros sensorId sn buf data now Hsn Hbuf.
    destruct (ingest_step sensorId sn buf data now s Hok Hsn Hbuf)
      as (s' & sn' & Hrun & Hok' & Hsn' & _ & Hseen & Hb & _).
    exists (make_dataPoint sensorId sn data now), s', sn'.
    split; [exact Hrun|]. split; [exact Hok'|]. split; [reflexivity|].
    split; [exact Hsn'|]. split; [exact Hseen|].
    rewrite Hb, push_bounded_fifo; [reflexivity|].
    eapply (proj2 Hok); eauto.
  - intros calls Hcalls.
    destruct (ingest_all_spec calls s Hok Hcalls) as (s' & Hrun & Hok' & Hfinal).
    exists s'. split; [exact Hrun|]. split; [exact Hok'|].
    intros sensorId sn buf Hsn Hbuf.
    destruct (Hfinal sensorId sn buf Hsn Hbuf) as (sn' & Hsn' & _ & Hb' & Hseen').
    exists sn', (keep_last bufferSize (buf ++ arrivals sensorId sn calls)).
    split; [exact Hsn'|]. split; [exact Hb'|].
    split; [apply keep_last_length|]. now split.
Qed.

(** **** Geofences *)

Lemma detect_without_breach (sn : sensor) (dp : dataPoint) (s : state) :
  outside_fence sn (dp_data dp) s = false →
  Forall (fun t => trigger t ≠ "geofence_breach") (detect sn dp s).
Proof.
  intros Hout. unfold detect. rewrite Hout.
  repeat (destruct (decide (type sn = _));
          [unfold push_if; split_conditions; simpl;
           repeat constructor; simpl; discriminate|]).
  constructor.
Qed.

(** C9.  When the geofence reference is missing (absent or empty) or names
    no registered geofence, [checkGeofenceBreach] returns false for every
    position, and an [ingest] on a sensor with that reference emits no
    [geofence_breach] trigger, whatever the reading. *)
Theorem unresolved_geofence_is_no_breach (s : state) (ref : option string) :
  truthy ref = false ∨ geofences s !! default "" ref = None →
  (∀ p, checkGeofenceBreach p ref s = false) ∧
  (∀ sensorId sn buf data now,
     sensors s !! sensorId = Some sn → dataBuffer s !! sensorId = Some buf →
     geofence_ref (config sn) = ref →
     ∃ dp s' fired,
       ingest sensorId data now s = Ok (dp, s') ∧
       emitted s' = emitted s ++ [EvData dp; EvDataOfType (type sn) dp] ++
                    map EvTrigger fired ∧
       count_name "geofence_breach" fired = 0%nat).
Proof.
  intros Href.
  assert (Hcheck : ∀ p, checkGeofenceBreach p ref s = false).
  { intros p. unfold checkGeofenceBreach.
    destruct Href as [-> | ->]; [reflexivity|]. now destruct (truthy ref). }
  split; [exact Hcheck|].
  intros sensorId sn buf data now Hsn Hbuf Hcfg.
  destruct (ingest_spec sensorId sn buf data now s Hsn Hbuf)
    as (s' & sn' & Hrun & _ & _ & _ & _ & _ & _ & _ & _ & _ & _ & _ & Hem).
  set (dp := make_dataPoint sensorId sn data now) in *.
  exists dp, s', (map (trigger_payload sn dp) (detect sn dp s)).
  split; [exact Hrun|]. split; [now rewrite map_map|].
  rewrite count_name_map, fired_names.
  assert (Hout : outside_fence sn (dp_data dp) s = false).
  { unfold outside_fence. rewrite Hcfg. now destruct (position_of (dp_data dp)). }
  rewrite filter_names_absent; [reflexivity|].
  intros Hin. apply list_elem_of_fmap in Hin as (t & Hname & Ht).
  pose proof (detect_without_breach sn dp s Hout) as Hnone.
  rewrite Forall_forall in Hnone. now apply (Hnone t Ht).
Qed.

End WithGeometry.


(** **** The buffers of the registry *)

Lemma buffers_ok_init : buffers_ok init.
Proof.
  split; simpl.
  - intros i [x Hx]. now apply lookup_empty_Some in Hx.
  - intros i b Hb. now apply lookup_empty_Some in Hb.
Qed.

Lemma buffers_ok_register (o : registration) (uuid now : string) (s s' : state)
    (sn : sensor) :
  buffers_ok s → register o uuid now s = Ok (sn, s') → buffers_ok s'.
Proof.
  intros [Hreg Hbound]. unfold register.
  destruct (bool_decide _); [|discriminate]. intros [= _ <-]. split; simpl.
  - intros i. destruct (decide (default uuid (reg_id o) = i)) as [<-|Hne].
    + rewrite !lookup_insert_eq. eauto.
    + rewrite !lookup_insert_ne by done. apply Hreg.
  - intros i b. destruct (decide (default uuid (reg_id o) = i)) as [<-|Hne].
    + rewrite lookup_insert_eq. intros [= <-]. simpl. lia.
    + rewrite lookup_insert_ne by done. apply Hbound.
Qed.

Lemma buffers_ok_unregister (sensorId : string) (s : state) :
  buffers_ok s → buffers_ok (unregister sensorId s).2.
Proof.
  intros [Hreg Hbound]. unfold unregister.
  destruct (sensors s !! sensorId); [|now split]. split; simpl.
  - intros i. destruct (decide (sensorId = i)) as [<-|Hne].
    + rewrite lookup_delete_eq. now intros [? ?].
    + rewrite !lookup_delete_ne by done. apply Hreg.
  - intros i b Hb. apply lookup_delete_Some in Hb as [_ Hb]. eauto.
Qed.

(** **** Examples *)

Lemma patrol_buffers_ok : buffers_ok patrol.
Proof.
  split.
  - intros i [x Hx]. unfold patrol in *. cbn [sensors dataBuffer] in *.
    apply lookup_insert_Some in Hx as [[<- _]|[_ Hx]].
    + rewrite lookup_insert_eq. eauto.
    + apply lookup_singleton_Some in Hx as [<- _].
      rewrite lookup_insert_ne by discriminate.
      rewrite lookup_singleton_eq. eauto.
  - intros i b Hb. unfold patrol in *. cbn [dataBuffer] in *.
    apply lookup_insert_Some in Hb as [[_ <-]|[_ Hb]].
    + rewrite length_replicate. reflexivity.
    + apply lookup_singleton_Some in Hb as [_ <-]. simpl. unfold bufferSize. lia.
Qed.


(** C6 on an instance: the buffer of the drone is full, so the reading
    takes the place of the oldest entry. *)
Lemma buffer_holds_latest_readings_witness :
  ∃ dp s' sn',
    ingest (H := taxicab) "drone-1" low_and_outside "2024-05-01T07:30:02.000Z" patrol
      = Ok (dp, s') ∧
    sensors s' !! "drone-1" = Some sn' ∧
    lastSeen sn' = "2024-05-01T07:30:00.000Z" ∧
    dataBuffer s' !! "drone-1" = Some (replicate 99 old_point ++ [dp]).
Proof.
  destruct (proj1 (buffer_holds_latest_readings (H := taxicab) patrol
                     patrol_buffers_ok)
              "drone-1" drone_1 (replicate 100 old_point) low_and_outside
              "2024-05-01T07:30:02.000Z" eq_refl eq_refl)
    as (dp & s' & sn' & Hrun & _ & Hstamp & Hsn' & Hseen & Hbuf).
  exists dp, s', sn'. split; [exact Hrun|]. split; [exact Hsn'|].
  split; [now rewrite Hseen, Hstamp|]. exact Hbuf.
Defined.

(** C9 on an instance: the tracker refers to a fence that is not
    registered. *)
Lemma unresolved_geofence_is_no_breach_witness :
  checkGeofenceBreach (H := taxicab)
    {| lat := inject_Z 5000; lng := inject_Z 8 |} (Some "route-fence") patrol
    = false ∧
  ∃ dp s' fired,
    ingest (H := taxicab) "tracker-7" low_and_outside "2024-05-01T07:30:02.000Z" patrol
      = Ok (dp, s') ∧
    emitted s' = [EvData dp; EvDataOfType "gps_tracker" dp] ++ map EvTrigger fired ∧
    count_name "geofence_breach" fired = 0%nat.
Proof.
  destruct (unresolved_geofence_is_no_breach (H := taxicab) patrol
              (Some "route-fence") (or_intror eq_refl)) as [Hcheck Hingest].
  split; [apply Hcheck|].
  apply (Hingest "tracker-7" tracker_7 [] low_and_outside
           "2024-05-01T07:30:02.000Z" eq_refl eq_refl eq_refl).
Defined.


(** **** The registry over any calls *)

Section Registry.
Context `{Geometry}.

Lemma emit_triggers_rest (sensorId : string) (sn : sensor) (dp : dataPoint)
    (ts : list trigger_entry) (s : state) :
  sensors s !! sensorId = Some sn →
  watch_plates (emit_triggers sensorId sn dp ts s) = watch_plates s ∧
  watch_devices (emit_triggers sensorId sn dp ts s) = watch_devices s ∧
  ∃ sn', sensors (emit_triggers sensorId sn dp ts s) !! sensorId = Some sn' ∧
         errorCount (stats sn') = errorCount (stats sn).
Proof.
  revert sn s. induction ts as [|t ts IH]; intros sn s Hsn; simpl.
  - repeat split. now exists sn.
  - destruct (IH (count_trigger sn)
                (emit (EvTrigger (trigger_payload (count_trigger sn) dp t))
                      (set_sensor sensorId (count_trigger sn) s)))
      as (-> & -> & sn' & Hl & He).
    { simpl. apply lookup_insert_eq. }
    repeat split. now exists sn'.
Qed.

Lemma ingest_errorCount (sensorId : string) (sn : sensor)
    (buf : list dataPoint) (data : reading) (now : string) (s s' : state)
    (dp : dataPoint) (sn' : sensor) :
  sensors s !! sensorId = Some sn → dataBuffer s !! sensorId = Some buf →
  ingest sensorId data now s = Ok (dp, s') →
  sensors s' !! sensorId = Some sn' →
  errorCount (stats sn') = errorCount (stats sn).
Proof.
  intros Hsn Hbuf Hrun Hsn'. unfold ingest in Hrun. rewrite Hsn in Hrun.
  cbn [dataBuffer set_sensor] in Hrun. rewrite Hbuf in Hrun.
  injection Hrun as _ <-. unfold processTriggers in Hsn'. cbn [snd] in Hsn'.
  match type of Hsn' with
  | sensors (emit_triggers ?k ?sn1 ?d ?ts ?s3) !! _ = _ =>
      destruct (emit_triggers_rest k sn1 d ts s3) as (_ & _ & sn2 & Hl & He);
        [simpl; apply lookup_insert_eq|]
  end.
  rewrite Hl in Hsn'. injection Hsn' as <-. exact He.
Qed.

Lemma detect_length (sn : sensor) (dp : dataPoint) (s : state) :
  (length (detect sn dp s) ≤ 4)%nat.
Proof.
  rewrite <- (length_map trigger), detect_names, length_map.
  etransitivity; [apply AlertSystemFacts.filter_length_le|].
  unfold rule_table. repeat (destruct (decide _); [simpl; lia|]). simpl. lia.
Qed.

Lemma push_bounded_last (buf : list dataPoint) (dp : dataPoint) :
  last (push_bounded buf dp) = Some dp.
Proof.
  unfold push_bounded.
  destruct (bufferSize <? length (buf ++ [dp]))%nat eqn:Hfull.
  - apply Nat.ltb_lt in Hfull. rewrite length_app in Hfull.
    unfold bufferSize in Hfull. simpl in Hfull.
    destruct buf as [|x buf]; [simpl in Hfull; lia|].
    simpl. apply last_snoc.
  - apply last_snoc.
Qed.

Lemma push_bounded_length (buf : list dataPoint) (dp : dataPoint) :
  (length buf ≤ bufferSize)%nat →
  (length (push_bounded buf dp) ≤ bufferSize)%nat ∧
  (length (push_bounded buf dp) ≤ S (length buf))%nat.
Proof.
  intros Hlen. unfold push_bounded.
  destruct (Nat.ltb_spec bufferSize (length (buf ++ [dp]))) as [Hfull|Hroom].
  - destruct buf as [|x buf]; simpl in *; rewrite ?length_app; simpl; lia.
  - rewrite length_app in *. simpl in *. lia.
Qed.

Lemma push_bounded_elem (buf : list dataPoint) (dp x : dataPoint) :
  x ∈ push_bounded buf dp → x ∈ buf ∨ x = dp.
Proof.
  unfold push_bounded. intros Hx.
  assert (Hin : x ∈ buf ++ [dp]).
  { destruct (bufferSize <? length (buf ++ [dp]))%nat; [|exact Hx].
    destruct (buf ++ [dp]) as [|y l]; [exact Hx|].
    now apply list_elem_of_further. }
  apply elem_of_app in Hin as [Hin|Hin]; [now left|].
  right. now apply list_elem_of_singleton in Hin.
Qed.

Lemma registry_ok_init : registry_ok init.
Proof.
  split.
  - intros k [b Hb]. cbn in Hb. now apply lookup_empty_Some in Hb.
  - intros k sn Hsn. cbn in Hsn. now apply lookup_empty_Some in Hsn.
Qed.

Lemma registry_ok_same (s s' : state) :
  sensors s' = sensors s → dataBuffer s' = dataBuffer s →
  registry_ok s → registry_ok s'.
Proof. unfold registry_ok. intros -> ->. tauto. Qed.

Lemma registry_ok_register (o : registration) (uuid now : string)
    (s s' : state) (sn : sensor) :
  register o uuid now s = Ok (sn, s') → registry_ok s → registry_ok s'.
Proof.
  unfold register. destruct (bool_decide _); [|discriminate].
  intros [= <- <-] [Hkeys Hok]. split; cbn [sensors dataBuffer emit set_buffer set_sensor].
  - intros k Hb. destruct (decide (default uuid (reg_id o) = k)) as [<-|Hne].
    + rewrite lookup_insert_eq. eauto.
    + rewrite lookup_insert_ne in Hb by done.
      rewrite lookup_insert_ne by done. now apply Hkeys.
  - intros k sn0 Hsn0. destruct (decide (default uuid (reg_id o) = k)) as [<-|Hne].
    + rewrite lookup_insert_eq in Hsn0. injection Hsn0 as <-. cbn.
      split; [reflexivity|]. split; [now left|]. split; [reflexivity|].
      split; [lia|]. exists []. rewrite lookup_insert_eq.
      repeat split; simpl; try lia. constructor.
    + rewrite lookup_insert_ne in Hsn0 by done.
      rewrite lookup_insert_ne by done. now apply Hok.
Qed.

Lemma registry_ok_unregister (k : string) (s : state) :
  registry_ok s → registry_ok (unregister k s).2.
Proof.
  intros [Hkeys Hok]. unfold unregister.
  destruct (sensors s !! k) as [sn|] eqn:Hsn; [|now split].
  split; cbn [snd sensors dataBuffer emit].
  - intros k' [b Hb]. apply lookup_delete_Some in Hb as [Hne Hb].
    rewrite lookup_delete_ne by done. apply Hkeys. eauto.
  - intros k' sn' Hsn'. apply lookup_delete_Some in Hsn' as [Hne Hsn'].
    rewrite lookup_delete_ne by done. now apply Hok.
Qed.

Lemma registry_ok_markOffline (k : string) (s : state) :
  registry_ok s → registry_ok (markOffline k s).
Proof.
  intros [Hkeys Hok]. unfold markOffline.
  destruct (sensors s !! k) as [sn|] eqn:Hsn; [|now split].
  split; cbn [sensors dataBuffer emit set_sensor].
  - intros k' Hb. destruct (decide (k = k')) as [<-|Hne].
    + rewrite lookup_insert_eq. eauto.
    + rewrite lookup_insert_ne by done. now apply Hkeys.
  - intros k' sn' Hsn'. destruct (decide (k = k')) as [<-|Hne].
    + rewrite lookup_insert_eq in Hsn'. injection Hsn' as <-.
      destruct (Hok k sn Hsn) as (Hid & _ & He & Ht & b & Hb & Hlen & Hcnt & Hlast & Hall).
      cbn. split; [exact Hid|]. split; [now right|]. split; [exact He|].
      split; [exact Ht|]. exists b. repeat split; assumption.
    + rewrite lookup_insert_ne in Hsn' by done. now apply Hok.
Qed.

Lemma registry_ok_ingest (k : string) (data : reading) (now : string)
    (s s' : state) (dp : dataPoint) :
  ingest k data now s = Ok (dp, s') → registry_ok s → registry_ok s'.
Proof.
  intros Hrun [Hkeys Hok].
  destruct (sensors s !! k) as [sn|] eqn:Hsn;
    [|unfold ingest in Hrun; rewrite Hsn in Hrun; discriminate].
  destruct (Hok k sn Hsn)
    as (Hid & _ & He & Ht & b & Hb & Hlen & Hcnt & Hlast & Hall).
  destruct (ingest_spec k sn b data now s Hsn Hb)
    as (s1 & sn' & Hrun1 & Hsn' & (_ & Hname & Htype & Hzone & _) & _ & Hld & Hst
        & Hdc & Htc & Hbuf & Hother & _).
  rewrite Hrun in Hrun1. injection Hrun1 as Hdp <-.
  pose proof (ingest_errorCount k sn b data now s s' dp sn' Hsn Hb Hrun Hsn') as He'.
  pose proof (detect_length sn (make_dataPoint k sn data now) s) as Hfour.
  split.
  - intros k' Hb'. rewrite Hbuf in Hb'.
    destruct (decide (k = k')) as [<-|Hne]; [eauto|].
    rewrite lookup_insert_ne in Hb' by done.
    rewrite Hother by done. now apply Hkeys.
  - intros k' sn0 Hsn0. destruct (decide (k = k')) as [<-|Hne].
    + rewrite Hsn' in Hsn0. injection Hsn0 as <-.
      destruct (Hok k sn Hsn) as (_ & _ & _ & _ & _).
      split; [destruct (ingest_spec k sn b data now s Hsn Hb)
                as (? & sn2 & Hr2 & Hs2 & (Hid2 & _) & _);
              rewrite Hrun in Hr2; injection Hr2 as _ <-;
              rewrite Hsn' in Hs2; injection Hs2 as <-; congruence|].
      split; [now left|]. split; [congruence|]. split; [lia|].
      exists (push_bounded b (make_dataPoint k sn data now)).
      rewrite Hbuf, lookup_insert_eq.
      destruct (push_bounded_length b (make_dataPoint k sn data now) Hlen)
        as [Hle1 Hle2].
      split; [reflexivity|]. split; [exact Hle1|]. split; [lia|].
      split; [now rewrite Hld, push_bounded_last|].
      apply Forall_forall. intros x Hx.
      apply push_bounded_elem in Hx as [Hx| ->].
      * rewrite Forall_forall in Hall. destruct (Hall x Hx) as (? & ? & ? & ?).
        unfold made_for. repeat split; congruence.
      * unfold made_for, make_dataPoint. cbn. repeat split; congruence.
    + rewrite Hother in Hsn0 by done. rewrite Hbuf, lookup_insert_ne by done.
      now apply Hok.
Qed.

Lemma registry_ok_exec (c : sensor_call) (s : state) :
  registry_ok s → registry_ok (sensor_exec c s).
Proof.
  intros Hok. destruct c; cbn [sensor_exec].
  - destruct (register o uuid now s) as [[sn s']|] eqn:Hr; [|exact Hok].
    now apply (registry_ok_register o uuid now s s' sn).
  - now apply registry_ok_unregister.
  - destruct (ingest sensorId data now s) as [[dp s']|] eqn:Hr; [|exact Hok].
    now apply (registry_ok_ingest sensorId data now s s' dp).
  - now apply registry_ok_markOffline.
  - revert Hok. now apply registry_ok_same.
  - unfold addToWatchlist. repeat (destruct (decide _); [exact Hok|]).
    now destruct (bool_decide _).
Qed.

Lemma registry_ok_run (cs : list sensor_call) (s : state) :
  registry_ok s → registry_ok (sensor_run cs s).
Proof.
  revert s. induction cs as [|c cs IH]; intros s Hok; [exact Hok|].
  cbn [sensor_run fold_left]. apply IH. now apply registry_ok_exec.
Qed.

(** X14.  Whatever calls the sensor system receives (registrations,
    removals, readings, offline marks, geofences, watchlist entries, failed
    calls included), the registry and the buffers stay consistent: a buffer
    exists exactly for the registered sensors; a sensor is stored under its
    own id, is online or offline, and its error count is 0; its buffer holds
    at most 100 data points, all stamped with its id, type, name and zone,
    and no more than its data count; its [lastData] is the newest buffered
    data point; and its trigger count is at most four times its data
    count. *)
Theorem registry_stays_consistent (cs : list sensor_call) :
  registry_ok (sensor_run cs init).
Proof. apply registry_ok_run, registry_ok_init. Qed.



(** **** Declared and emitted triggers *)

Lemma rule_names_declared (ty n : string) :
  n ∈ map fst (rule_table ty) →
  n ∈ declared_triggers ty ∧ n ∉ never_pushed.
Proof.
  unfold rule_table, declared_triggers.
  repeat (destruct (decide (ty = _));
          [cbn [map fst]; rewrite !elem_of_cons;
           intros Hn;
           repeat (destruct Hn as [->|Hn];
                   [split;
                    [apply (bool_decide_unpack _); vm_compute; exact I
                    |apply (bool_decide_unpack _); vm_compute; exact I]|]);
           now apply elem_of_nil in Hn|]).
  intros Hn. now apply elem_of_nil in Hn.
Qed.

Lemma declared_exec (c : sensor_call) (s : state) :
  Forall declared (emitted s) → Forall declared (emitted (sensor_exec c s)).
Proof.
  intros Hok. destruct c; cbn [sensor_exec].
  - unfold register. destruct (bool_decide _); [|exact Hok].
    cbn [emitted emit set_buffer set_sensor].
    apply Forall_app. split; [exact Hok|]. now repeat constructor.
  - unfold unregister. destruct (sensors s !! sensorId); [|exact Hok].
    cbn [snd emitted emit]. apply Forall_app. split; [exact Hok|].
    now repeat constructor.
  - destruct (ingest sensorId data now s) as [[dp s']|] eqn:Hrun; [|exact Hok].
    destruct (sensors s !! sensorId) as [sn|] eqn:Hsn;
      [|unfold ingest in Hrun; rewrite Hsn in Hrun; discriminate].
    destruct (dataBuffer s !! sensorId) as [b|] eqn:Hb;
      [|unfold ingest in Hrun; rewrite Hsn in Hrun;
        cbn [dataBuffer set_sensor] in Hrun; rewrite Hb in Hrun; discriminate].
    destruct (ingest_spec sensorId sn b data now s Hsn Hb)
      as (s1 & sn' & Hrun1 & _ & _ & _ & _ & _ & _ & _ & _ & _ & _ & _ & Hem).
    rewrite Hrun in Hrun1. injection Hrun1 as _ <-. rewrite Hem.
    apply Forall_app. split; [exact Hok|].
    constructor; [exact I|]. constructor; [exact I|].
    apply Forall_fmap, Forall_forall. intros t Ht. cbn.
    apply rule_names_declared.
    apply (filtered_names_sub (satisfied s sn data) fst).
    rewrite <- (detect_names sn (make_dataPoint sensorId sn data now) s).
    now apply list_elem_of_fmap_2.
  - unfold markOffline. destruct (sensors s !! sensorId); [|exact Hok].
    cbn [emitted emit set_sensor]. apply Forall_app. split; [exact Hok|].
    now repeat constructor.
  - exact Hok.
  - unfold addToWatchlist. repeat (destruct (decide _); [exact Hok|]).
    now destruct (bool_decide _).
Qed.

(** X16.  Every trigger event ever emitted names a trigger that the
    sensor-type table declares for the type of its sensor; and eleven
    declared triggers (signal_lost, target_acquired, offline, zone_breach,
    noise_alert, door_held_open, tailgating, transmission_detected, and the
    three of the generic type) are never emitted, whatever the readings. *)
Theorem emitted_triggers_are_declared (cs : list sensor_call) :
  Forall declared (emitted (sensor_run cs init)) ∧
  (∀ t, EvTrigger t ∈ emitted (sensor_run cs init) →
        te_trigger t ∈ declared_triggers (te_sensorType t) ∧
        te_trigger t ∉ never_pushed) ∧
  Forall (fun n => ∃ ty, ty ∈ sensorTypes ∧ n ∈ declared_triggers ty)
         never_pushed.
Proof.
  assert (Hall : ∀ s, Forall declared (emitted s) →
                      Forall declared (emitted (sensor_run cs s))).
  { induction cs as [|c cs IH]; intros s Hs; [exact Hs|].
    cbn [sensor_run fold_left]. apply IH. now apply declared_exec. }
  specialize (Hall init ltac:(constructor)).
  split; [exact Hall|]. split.
  - intros t Ht. rewrite Forall_forall in Hall. exact (Hall _ Ht).
  - unfold never_pushed.
    repeat (constructor;
            [first [ exists "drone"; split; apply (bool_decide_unpack _); vm_compute; exact I
                   | exists "gps_tracker"; split; apply (bool_decide_unpack _); vm_compute; exact I
                   | exists "motion_sensor"; split; apply (bool_decide_unpack _); vm_compute; exact I
                   | exists "environmental"; split; apply (bool_decide_unpack _); vm_compute; exact I
                   | exists "access_control"; split; apply (bool_decide_unpack _); vm_compute; exact I
                   | exists "radio"; split; apply (bool_decide_unpack _); vm_compute; exact I
                   | exists "generic"; split; apply (bool_decide_unpack _); vm_compute; exact I ]|]).
    constructor.
Qed.

(** **** The watchlists *)

Lemma watch_faces_exec (c : sensor_call) (s : state) (fid : string) :
  is_Some (watch_faces s !! fid) →
  is_Some (watch_faces (sensor_exec c s) !! fid).
Proof.
  intros Hf. destruct c; cbn [sensor_exec].
  - unfold register. now destruct (bool_decide _).
  - unfold unregister. now destruct (sensors s !! sensorId).
  - destruct (ingest sensorId data now s) as [[dp s']|] eqn:Hrun; [|exact Hf].
    destruct (sensors s !! sensorId) as [sn|] eqn:Hsn;
      [|unfold ingest in Hrun; rewrite Hsn in Hrun; discriminate].
    destruct (dataBuffer s !! sensorId) as [b|] eqn:Hb;
      [|unfold ingest in Hrun; rewrite Hsn in Hrun;
        cbn [dataBuffer set_sensor] in Hrun; rewrite Hb in Hrun; discriminate].
    destruct (ingest_spec sensorId sn b data now s Hsn Hb)
      as (s1 & sn' & Hrun1 & _ & _ & _ & _ & _ & _ & _ & _ & _ & _ & Hw & _).
    rewrite Hrun in Hrun1. injection Hrun1 as _ <-. now rewrite Hw.
  - unfold markOffline. now destruct (sensors s !! sensorId).
  - exact Hf.
  - unfold addToWatchlist.
    destruct (decide (listType = "faces")).
    { cbn [watch_faces]. destruct (decide (entryId = fid)) as [->|Hne].
      - rewrite lookup_insert_eq. eauto.
      - now rewrite lookup_insert_ne. }
    repeat (destruct (decide _); [exact Hf|]).
    now destruct (bool_decide _).
Qed.

Lemma watch_faces_run (cs : list sensor_call) (s : state) (fid : string) :
  is_Some (watch_faces s !! fid) →
  is_Some (watch_faces (sensor_run cs s) !! fid).
Proof.
  revert s. induction cs as [|c cs IH]; intros s Hf; [exact Hf|].
  cbn [sensor_run fold_left]. apply IH. now apply watch_faces_exec.
Qed.

Lemma detect_face_match (sn : sensor) (dp : dataPoint) (s : state) (f : face) :
  type sn = "camera" → f ∈ detected_faces (dp_data dp) →
  on_watchlist s f = true →
  {| trigger := "face_match"; trigger_data := dp;
     trigger_extra :=
       Matches (List.filter (on_watchlist s) (detected_faces (dp_data dp))) |}
    ∈ detect sn dp s ∧
  f ∈ List.filter (on_watchlist s) (detected_faces (dp_data dp)).
Proof.
  intros Hty Hf Hon.
  assert (Hin : f ∈ List.filter (on_watchlist s) (detected_faces (dp_data dp))).
  { apply list_elem_of_In, filter_In. split; [now apply list_elem_of_In|exact Hon]. }
  split; [|exact Hin].
  unfold detect. rewrite decide_True by exact Hty.
  assert (Hex : existsb (on_watchlist s) (detected_faces (dp_data dp)) = true).
  { apply existsb_exists. exists f. split; [now apply list_elem_of_In|exact Hon]. }
  rewrite Hex. cbn zeta. unfold push_if at 1. apply elem_of_app. right.
  apply list_elem_of_here.
Qed.

(** X17.  A face put on the watchlist stays on it through any later
    calls (no call removes an entry), and from then on every reading of a
    registered camera that shows this face emits a [face_match] trigger
    whose matches include the face. *)
Theorem watchlisted_face_is_matched (s : state) (fid : string) (d : payload)
    (cs : list sensor_call) (k : string) (sn : sensor)
    (buf : list dataPoint) (data : reading) (now : string) (f : face) :
  let s2 := sensor_run cs (sensor_exec (AddToWatchlist "faces" fid d) s) in
  sensors s2 !! k = Some sn → dataBuffer s2 !! k = Some buf →
  type sn = "camera" →
  f ∈ detected_faces data → face_id f = fid →
  is_Some (watch_faces s2 !! fid) ∧
  ∃ dp s3 t matches,
    ingest k data now s2 = Ok (dp, s3) ∧
    EvTrigger t ∈ emitted s3 ∧
    te_trigger t = "face_match" ∧ te_data t = dp ∧ te_sensorId t = id sn ∧
    te_extra t = Matches matches ∧ f ∈ matches.
Proof.
  intros s2 Hsn Hbuf Hty Hf Hid.
  assert (Hlisted : is_Some (watch_faces s2 !! fid)).
  { apply watch_faces_run. unfold sensor_exec, addToWatchlist.
    rewrite decide_True by reflexivity. cbn [watch_faces].
    rewrite lookup_insert_eq. eauto. }
  split; [exact Hlisted|].
  destruct (ingest_spec k sn buf data now s2 Hsn Hbuf)
    as (s3 & sn' & Hrun & _ & _ & _ & _ & _ & _ & _ & _ & _ & _ & _ & Hem).
  set (dp := make_dataPoint k sn data now) in *.
  destruct (detect_face_match sn dp s2 f Hty Hf) as [Hentry Hmatch].
  { unfold on_watchlist. rewrite Hid. now apply bool_decide_eq_true_2. }
  eexists dp, s3, _, _. split; [exact Hrun|].
  split.
  - rewrite Hem. apply elem_of_app. right.
    apply list_elem_of_further, list_elem_of_further.
    apply (list_elem_of_fmap_2 (fun t => EvTrigger (trigger_payload sn dp t)))
      in Hentry.
    exact Hentry.
  - cbn. repeat split. exact Hmatch.
Qed.

Lemma emit_triggers_with_lists (sensorId : string) (sn : sensor)
    (dp : dataPoint) (ts : list trigger_entry)
    (p d : gmap string payload) (s : state) :
  emit_triggers sensorId sn dp ts (with_lists p d s) =
    with_lists p d (emit_triggers sensorId sn dp ts s).
Proof.
  revert sn s. induction ts as [|t ts IH]; intros sn s; [reflexivity|].
  cbn [emit_triggers]. rewrite <- IH. reflexivity.
Qed.

Lemma with_lists_exec (c : sensor_call) (p d : gmap string payload)
    (s : state) :
  ∃ p' d', sensor_exec c (with_lists p d s) =
           with_lists p' d' (sensor_exec c s).
Proof.
  destruct c; cbn [sensor_exec].
  - exists p, d. unfold register. now destruct (bool_decide _).
  - exists p, d. unfold unregister. cbn [sensors with_lists].
    now destruct (sensors s !! sensorId).
  - exists p, d. unfold ingest. cbn [sensors with_lists].
    destruct (sensors s !! sensorId) as [sn|]; [|reflexivity].
    cbn [dataBuffer set_sensor with_lists].
    destruct (dataBuffer s !! sensorId) as [b|]; [|reflexivity].
    unfold processTriggers. cbn [snd].
    match goal with
    | |- _ = with_lists p d (emit_triggers ?k ?sn1 ?dp ?ts ?s0) =>
        exact (emit_triggers_with_lists k sn1 dp ts p d s0)
    end.
  - exists p, d. unfold markOffline. cbn [sensors with_lists].
    now destruct (sensors s !! sensorId).
  - exists p, d. reflexivity.
  - unfold addToWatchlist.
    destruct (decide (listType = "faces")); [now exists p, d|].
    destruct (decide (listType = "plates")); [now exists (<[entryId := data]> p), d|].
    destruct (decide (listType = "devices")); [now exists p, (<[entryId := data]> d)|].
    exists p, d. now destruct (bool_decide _).
Qed.

(** X18.  The [plates] and [devices] watchlists are written and never
    read: [addToWatchlist] with one of these types changes that list only,
    and two states that differ in these two lists only stay so under any
    calls, with the same sensors, buffers, geofences, faces and events. *)
Theorem plates_and_devices_are_never_read (cs : list sensor_call)
    (p d : gmap string payload) (s : state) :
  (∀ k x, addToWatchlist "plates" k x s =
            Ok (with_lists (<[k := x]> (watch_plates s)) (watch_devices s) s)) ∧
  (∀ k x, addToWatchlist "devices" k x s =
            Ok (with_lists (watch_plates s) (<[k := x]> (watch_devices s)) s)) ∧
  ∃ p' d', sensor_run cs (with_lists p d s) =
           with_lists p' d' (sensor_run cs s).
Proof.
  split; [reflexivity|]. split; [reflexivity|].
  revert p d s. induction cs as [|c cs IH]; intros p d s.
  - now exists p, d.
  - cbn [sensor_run fold_left].
    destruct (with_lists_exec c p d s) as (p1 & d1 & ->). apply IH.
Qed.

End Registry.

(** X17 on an instance: the door camera sees a listed face and another. *)
Lemma watchlisted_face_is_matched_witness :
  let s2 := sensor_run (H := taxicab) [Register door_camera "u1" "t0"]
              (sensor_exec (H := taxicab)
                 (AddToWatchlist "faces" "f-17" "{}") init) in
  is_Some (watch_faces s2 !! "f-17") ∧
  ∃ dp s3 t matches,
    ingest (H := taxicab) "cam-1" two_faces "t1" s2 = Ok (dp, s3) ∧
    EvTrigger t ∈ emitted s3 ∧
    te_trigger t = "face_match" ∧ te_data t = dp ∧ te_sensorId t = "cam-1" ∧
    te_extra t = Matches matches ∧
    {| face_id := "f-17"; face_info := "{}" |} ∈ matches.
Proof.
  intros s2.
  apply (watchlisted_face_is_matched (H := taxicab) init "f-17" "{}"
           [Register door_camera "u1" "t0"] "cam-1"
           {| id := "cam-1"; name := Some "Door camera"; type := "camera";
              location := None; zone := Some "door"; config := empty_config;
              metadata := "{}"; status := "online"; lastSeen := "t0";
              lastData := None; registeredAt := "t0";
              stats := {| dataCount := 0; triggerCount := 0;
                          errorCount := 0 |} |}
           [] two_faces "t1" {| face_id := "f-17"; face_info := "{}" |}).
  - vm_compute. reflexivity.
  - vm_compute. reflexivity.
  - reflexivity.
  - apply list_elem_of_here.
  - reflexivity.
Defined.
End SensorSystemFacts.

(** *** The wiring of the components *)

Module ServerFacts.
Import JsString Server.

Section Handlers.
Context `{Encoding}.

Lemma security_made (ttl msg : string) (p : string)
    (d : AlertSystem.payload) (uuid : string) (now : Z)
    (s : AlertSystem.state) :
  AlertSystem.map_get uuid (AlertSystem.alerts s) = None →
  p = "critical" ∨ p = "high" →
  ∃ a, AlertSystem.alerts
         (AlertSystem.security (Some ttl) (Some msg) (Some p) (Some d)
            uuid now s).2 = AlertSystem.alerts s ++ [(uuid, a)] ∧
       AlertSystem.id a = uuid ∧ AlertSystem.priority a = p ∧
       AlertSystem.category a = "security" ∧
       AlertSystem.source a = "security-system" ∧
       AlertSystem.requiresAck a = true ∧
       AlertSystem.acknowledged a = false ∧
       AlertSystem.resolved a = false ∧
       AlertSystem.title a = Some ttl ∧ AlertSystem.message a = Some msg ∧
       AlertSystem.data a = d ∧ AlertSystem.createdAt a = now.
Proof.
  intros Hfresh Hp. unfold AlertSystem.security.
  rewrite AlertSystemFacts.create_alerts.
  rewrite AlertSystemFacts.map_set_new by exact Hfresh.
  eexists. split; [reflexivity|]. cbn.
  repeat split. destruct Hp as [-> | ->]; reflexivity.
Qed.

(** X20.  The handler of a sensor trigger leaves the sensor system as it
    is and creates at most one alert: for forced_entry, sos_activated,
    smoke_detected, gas_leak and face_match a "critical" security alert
    with no timeout armed, for geofence_breach, tamper_alert and
    jamming_detected a "high" one with the five-minute timeout armed;
    either requires acknowledgement, is live and unacknowledged, and has
    the upper-cased trigger name as its title.  Any other trigger leaves the
    alert system unchanged. *)
Theorem sensor_trigger_makes_security_alert
    (t : SensorSystem.trigger_event) (uuid : string) (logged now : Z)
    (sys : system) :
  AlertSystem.map_get uuid (AlertSystem.alerts (alertSystem sys)) = None →
  AlertSystem.escalationTimers (alertSystem sys) !! uuid = None →
  let sys' := on_sensor_trigger t uuid logged now sys in
  sensorSystem sys' = sensorSystem sys ∧
  match alert_priority (SensorSystem.te_trigger t) with
  | Some p =>
      (p = "critical" ∨ p = "high") ∧
      ∃ a, AlertSystem.alerts (alertSystem sys') =
             AlertSystem.alerts (alertSystem sys) ++ [(uuid, a)] ∧
           AlertSystem.priority a = p ∧
           AlertSystem.category a = "security" ∧
           AlertSystem.requiresAck a = true ∧
           AlertSystem.acknowledged a = false ∧
           AlertSystem.title a = Some (alert_title t) ∧
           AlertSystem.message a = Some (alert_message t) ∧
           AlertSystem.armed uuid (alertSystem sys') =
             (if decide (p = "critical") then None else Some 300000)
  | None => alertSystem sys' = alertSystem sys
  end.
Proof.
  intros Hfresh Htimer sys'. split; [reflexivity|].
  unfold sys', on_sensor_trigger, alert_priority. cbn [alertSystem].
  destruct (bool_decide (SensorSystem.te_trigger t ∈ criticalTriggers)).
  - split; [now left|].
    destruct (security_made (alert_title t) (alert_message t) "critical"
                (trigger_data t) uuid now (alertSystem sys) Hfresh)
      as (a & Ha & _ & Hp & Hc & _ & Hr & Hk & _ & Ht & Hm & _); [now left|].
    exists a. repeat split; try assumption.
    exact (proj1 (proj2 (proj2 (AlertSystemFacts.create_live_and_armed
                                  _ uuid now (alertSystem sys) Htimer)))).
  - destruct (bool_decide (SensorSystem.te_trigger t ∈ highTriggers));
      [|reflexivity].
    split; [now right|].
    destruct (security_made (alert_title t) (alert_message t) "high"
                (trigger_data t) uuid now (alertSystem sys) Hfresh)
      as (a & Ha & _ & Hp & Hc & _ & Hr & Hk & _ & Ht & Hm & _); [now right|].
    exists a. repeat split; try assumption.
    exact (proj1 (proj2 (proj2 (AlertSystemFacts.create_live_and_armed
                                  _ uuid now (alertSystem sys) Htimer)))).
Qed.

(** **** From a reading to alerts *)

Lemma alerts_for_cons (uuid_of : nat → string) (i : nat) (name : string)
    (names : list string) :
  alerts_for uuid_of i (name :: names) =
    match alert_priority name with
    | Some p => [(uuid_of i, p)]
    | None => []
    end ++ alerts_for uuid_of (S i) names.
Proof.
  unfold alerts_for. rewrite imap_cons. cbn [omap list_omap].
  replace (i + 0)%nat with i by lia.
  assert (Hext : imap ((fun j name0 =>
                          (fun p => (uuid_of (i + j)%nat, p)) <$>
                            alert_priority name0) ∘ S) names =
                 imap (fun j name0 =>
                         (fun p => (uuid_of (S i + j)%nat, p)) <$>
                           alert_priority name0) names).
  { apply imap_ext. intros j x _. cbn.
    now replace (i + S j)%nat with (S (i + j)) by lia. }
  rewrite Hext. now destruct (alert_priority name).
Qed.

Lemma map_get_app_None {A} (k : string) (m1 m2 : list (string * A)) :
  AlertSystem.map_get k m1 = None → AlertSystem.map_get k m2 = None →
  AlertSystem.map_get k (m1 ++ m2) = None.
Proof.
  induction m1 as [|[k0 v0] m1 IH]; simpl; [done|].
  destruct (decide (k0 = k)); [discriminate|]. exact IH.
Qed.

Lemma on_events_triggers (ts : list SensorSystem.trigger_event) (i : nat)
    (uuid_of : nat → string) (logged now : nat → Z) (sys : system) :
  (∀ j, (i ≤ j)%nat →
        AlertSystem.map_get (uuid_of j) (AlertSystem.alerts (alertSystem sys))
          = None) →
  (∀ j j', uuid_of j = uuid_of j' → j = j') →
  let sys' := on_events i (map SensorSystem.EvTrigger ts) uuid_of logged now
                sys in
  sensorSystem sys' = sensorSystem sys ∧
  ∃ new, AlertSystem.alerts (alertSystem sys') =
           AlertSystem.alerts (alertSystem sys) ++ new ∧
         map with_priority_of new =
           alerts_for uuid_of i (map SensorSystem.te_trigger ts) ∧
         Forall security_pair new.
Proof.
  revert i sys. induction ts as [|t ts IH]; intros i sys Hfresh Hinj.
  - cbn. split; [reflexivity|]. exists []. rewrite app_nil_r.
    repeat split. constructor.
  - cbn [map on_events].
    set (sys1 := on_sensor_trigger t (uuid_of i) (logged i) (now i) sys).
    assert (Hstep : ∃ new1,
      AlertSystem.alerts (alertSystem sys1) =
        AlertSystem.alerts (alertSystem sys) ++ new1 ∧
      map with_priority_of new1 =
        match alert_priority (SensorSystem.te_trigger t) with
        | Some p => [(uuid_of i, p)]
        | None => []
        end ∧
      Forall security_pair new1 ∧
      ∀ k, AlertSystem.map_get k (AlertSystem.alerts (alertSystem sys)) = None →
           k ≠ uuid_of i → AlertSystem.map_get k new1 = None).
    { unfold sys1, on_sensor_trigger, alert_priority. cbn [alertSystem].
      destruct (bool_decide (SensorSystem.te_trigger t ∈ criticalTriggers)).
      - destruct (security_made (alert_title t) (alert_message t) "critical"
                    (trigger_data t) (uuid_of i) (now i) (alertSystem sys))
          as (a & Ha & Hid & Hp & Hc & _ & Hr & Hk & Hres & _);
          [apply Hfresh; lia | now left|].
        exists [(uuid_of i, a)]. split; [exact Ha|].
        split; [unfold with_priority_of; cbn; now rewrite Hp|].
        split; [repeat constructor; assumption|].
        intros k _ Hne. cbn. now rewrite decide_False by congruence.
      - destruct (bool_decide (SensorSystem.te_trigger t ∈ highTriggers)).
        + destruct (security_made (alert_title t) (alert_message t) "high"
                      (trigger_data t) (uuid_of i) (now i) (alertSystem sys))
            as (a & Ha & Hid & Hp & Hc & _ & Hr & Hk & Hres & _);
            [apply Hfresh; lia | now right|].
          exists [(uuid_of i, a)]. split; [exact Ha|].
          split; [unfold with_priority_of; cbn; now rewrite Hp|].
          split; [repeat constructor; assumption|].
          intros k _ Hne. cbn. now rewrite decide_False by congruence.
        + exists []. rewrite app_nil_r. repeat split. constructor. }
    destruct Hstep as (new1 & Hal1 & Hmap1 & Hsec1 & Hkeep).
    destruct (IH (S i) sys1) as (Hsens & new2 & Hal2 & Hmap2 & Hsec2).
    { intros j Hj. rewrite Hal1. apply map_get_app_None.
      - apply Hfresh. lia.
      - apply Hkeep; [apply Hfresh; lia|].
        intros Heq. apply Hinj in Heq. lia. }
    { exact Hinj. }
    split; [rewrite Hsens; reflexivity|].
    exists (new1 ++ new2). split; [rewrite Hal2, Hal1; now rewrite app_assoc|].
    split.
    + rewrite map_app, Hmap1, Hmap2. symmetry. apply alerts_for_cons.
    + apply Forall_app. now split.
Qed.

Context `{SensorSystem.Geometry}.

(** X21.  A reading posted for a registered sensor is ingested, and for
    every trigger it fires that is on the critical or the high list exactly
    one security alert is added to the live alerts, in the order of the
    rules, with that priority, requiring acknowledgement and
    unacknowledged; a trigger on neither list adds none, so a reading that
    satisfies no such rule leaves the live alerts as they are. *)
Theorem reading_makes_alerts_for_its_triggers (sys : system) (k : string)
    (sn : SensorSystem.sensor) (buf : list SensorSystem.dataPoint)
    (data : SensorSystem.reading) (received : string)
    (uuid_of : nat → string) (logged now : nat → Z) :
  SensorSystem.sensors (sensorSystem sys) !! k = Some sn →
  SensorSystem.dataBuffer (sensorSystem sys) !! k = Some buf →
  (∀ j, AlertSystem.map_get (uuid_of j)
          (AlertSystem.alerts (alertSystem sys)) = None) →
  (∀ j j', uuid_of j = uuid_of j' → j = j') →
  ∃ dp sys' new,
    ingest_route k data received uuid_of logged now sys =
      SensorSystem.Ok (dp, sys') ∧
    SensorSystem.ingest k data received (sensorSystem sys) =
      SensorSystem.Ok (dp, sensorSystem sys') ∧
    AlertSystem.alerts (alertSystem sys') =
      AlertSystem.alerts (alertSystem sys) ++ new ∧
    map with_priority_of new =
      alerts_for uuid_of 2
        (map fst (List.filter
                    (SensorSystem.satisfied (sensorSystem sys) sn data)
                    (SensorSystem.rule_table (SensorSystem.type sn)))) ∧
    Forall security_pair new.
Proof.
  intros Hsn Hbuf Hfresh Hinj.
  destruct (SensorSystemFacts.ingest_spec k sn buf data received
              (sensorSystem sys) Hsn Hbuf)
    as (s' & sn' & Hrun & _ & _ & _ & _ & _ & _ & _ & _ & _ & _ & _ & Hem).
  set (dp := SensorSystem.make_dataPoint k sn data received) in *.
  unfold ingest_route. rewrite Hrun, Hem, drop_app_length.
  cbn [app on_events].
  set (sys0 := {| sensorSystem := s'; standingOrders := standingOrders sys;
                  alertSystem := alertSystem sys |}).
  rewrite <- (map_map (SensorSystem.trigger_payload sn dp) SensorSystem.EvTrigger).
  destruct (on_events_triggers
              (map (SensorSystem.trigger_payload sn dp)
                   (SensorSystem.detect sn dp (sensorSystem sys)))
              2 uuid_of logged now sys0) as (Hsens & new & Hal & Hmap & Hsec).
  { intros j _. apply Hfresh. }
  { exact Hinj. }
  eexists dp, _, new. split; [reflexivity|].
  split; [now rewrite Hsens|]. split; [exact Hal|]. split; [|exact Hsec].
  rewrite Hmap, SensorSystemFacts.fired_names. f_equal.
  apply (SensorSystemFacts.detect_names sn dp (sensorSystem sys)).
Qed.

(** **** From an executed order to an alert *)

Lemma or_else_truthy (x : option string) (fallback : string) :
  fallback ≠ "" →
  StandingOrders.or_else (Some (StandingOrders.or_else x fallback)) fallback =
    StandingOrders.or_else x fallback.
Proof.
  intros Hne. unfold StandingOrders.or_else.
  destruct x as [[|c x]|]; cbn [truthy default]; try reflexivity;
    destruct fallback; cbn [truthy default]; try reflexivity; now destruct Hne.
Qed.

(** X22.  When the agents have answered a fired standing order: if the
    answers do not call for escalation nothing changes; if they do, one
    escalation is recorded and logged, and one alert is created from it,
    live under the drawn identifier, of category "operational" and source
    "standing-orders", titled "Standing Order: " with the order's name,
    with the threshold text as message (or "Standing order escalation"),
    with the priority of the order's escalation policy, "high" when it
    names none, taken as it is written, requiring acknowledgement exactly
    when the order's authority level is 4 or more, and with the timeout of
    that priority armed (none for a priority that is not one of the
    five). *)
Theorem escalated_order_becomes_alert (f : StandingOrders.fired)
    (responses : list StandingOrders.agent_response) (uuid : string)
    (stamped logged now : Z) (sys : system) :
  AlertSystem.escalationTimers (alertSystem sys) !! uuid = None →
  let o := StandingOrders.fired_order f in
  let sys' := on_order_executed f responses uuid stamped logged now sys in
  (StandingOrders.requiresEscalation o responses = false → sys' = sys) ∧
  (StandingOrders.requiresEscalation o responses = true →
   ∃ esc a,
     StandingOrders.escalations (standingOrders sys') =
       StandingOrders.escalations (standingOrders sys) ++ [esc] ∧
     StandingOrders.esc_orderId esc = StandingOrders.fired_id f ∧
     StandingOrders.esc_responses esc = responses ∧
     last (StandingOrders.logs (StandingOrders.core (standingOrders sys'))) =
       Some {| StandingOrders.log_orderId := StandingOrders.fired_id f;
               StandingOrders.log_action := "escalated";
               StandingOrders.log_details := escalation_details esc;
               StandingOrders.log_timestamp := logged |} ∧
     AlertSystem.get uuid (alertSystem sys') = Some a ∧
     AlertSystem.priority a =
       StandingOrders.or_else
         (StandingOrders.escalation o ≫= StandingOrders.priority) "high" ∧
     AlertSystem.priorityLevel a =
       default 3 (AlertSystem.level <$>
                    AlertSystem.priorities (AlertSystem.priority a)) ∧
     AlertSystem.requiresAck a = (4 <=? StandingOrders.authority_level o) ∧
     AlertSystem.category a = "operational" ∧
     AlertSystem.source a = "standing-orders" ∧
     AlertSystem.title a =
       Some ("Standing Order: " +:+ StandingOrders.fired_name f) ∧
     AlertSystem.message a =
       Some (StandingOrders.or_else
               (StandingOrders.escalation o ≫= StandingOrders.threshold)
               "Standing order escalation") ∧
     AlertSystem.acknowledged a = false ∧
     AlertSystem.armed uuid (alertSystem sys') =
       AlertSystem.timeout_of (AlertSystem.priority a)).
Proof.
  intros Hfresh o sys'. unfold sys', on_order_executed. fold o. split.
  - now intros ->.
  - intros ->.
    set (r := StandingOrders.escalate escalation_details f responses stamped
                logged (standingOrders sys)).
    destruct (AlertSystemFacts.create_live_and_armed
                {| AlertSystem.opt_priority :=
                     Some (StandingOrders.or_else
                             (Some (StandingOrders.esc_priority r.1)) "high");
                   AlertSystem.opt_category := Some "operational";
                   AlertSystem.opt_title :=
                     Some ("Standing Order: " +:+
                           StandingOrders.esc_orderName r.1);
                   AlertSystem.opt_message :=
                     Some (StandingOrders.esc_reason r.1);
                   AlertSystem.opt_source := Some "standing-orders";
                   AlertSystem.opt_data :=
                     Some (escalation_data (StandingOrders.esc_orderId r.1)
                             (StandingOrders.esc_responses r.1));
                   AlertSystem.opt_requiresAck :=
                     Some (StandingOrders.esc_requiresAcknowledgment r.1);
                   AlertSystem.opt_autoEscalate := None;
                   AlertSystem.opt_assignedTo := None |}
                uuid now (alertSystem sys) Hfresh)
      as (_ & Hlive & Harmed & _).
    assert (Hprio : StandingOrders.or_else
                      (Some (StandingOrders.esc_priority r.1)) "high" =
                    StandingOrders.or_else
                      (StandingOrders.escalation o ≫= StandingOrders.priority)
                      "high").
    { apply or_else_truthy. discriminate. }
    eexists r.1, _. cbn [standingOrders alertSystem].
    split; [reflexivity|]. split; [reflexivity|]. split; [reflexivity|].
    split.
    { unfold r, StandingOrders.escalate. cbn [snd StandingOrders.core].
      rewrite StandingOrdersFacts.log_logs. unfold StandingOrders.slice_last.
      match goal with
      | |- last (drop ?n (?l ++ [?x])) = _ =>
          assert (Hn : (n < length (l ++ [x]))%nat)
            by (rewrite length_app; simpl; lia);
          rewrite (AlertSystemFacts.last_drop_lt n (l ++ [x]) Hn)
      end.
      apply last_snoc. }
    split; [exact Hlive|]. split; [exact Hprio|].
    repeat (split; [reflexivity|]). exact Harmed.
Qed.

End Handlers.

(** X20 on an instance: an SOS. *)
Lemma sensor_trigger_makes_security_alert_witness :
  let sys' := on_sensor_trigger (H := plain) sos_event "a1" 1 2 idle in
  ∃ a, AlertSystem.alerts (alertSystem sys') = [("a1", a)] ∧
       AlertSystem.priority a = "critical" ∧
       AlertSystem.title a = Some "SOS ACTIVATED" ∧
       AlertSystem.armed "a1" (alertSystem sys') = None.
Proof.
  intros sys'.
  destruct (sensor_trigger_makes_security_alert (H := plain) sos_event "a1" 1 2
              idle eq_refl eq_refl)
    as (_ & _ & a & Hal & Hp & _ & _ & _ & Ht & _ & Harmed).
  exists a. split; [exact Hal|]. split; [exact Hp|].
  split; [rewrite Ht; vm_compute; reflexivity | exact Harmed].
Defined.

(** X21 on an instance: the drone's reading with a low battery outside
    its fence; the breach makes a "high" alert, the low battery none. *)
Lemma reading_makes_alerts_for_its_triggers_witness :
  ∃ dp sys' new,
    ingest_route (H := plain) (H0 := SensorSystem.taxicab) "drone-1"
      SensorSystem.low_and_outside "2024-05-01T07:30:01.000Z" pretty
      (fun _ => 1) (fun _ => 2) idle = SensorSystem.Ok (dp, sys') ∧
    AlertSystem.alerts (alertSystem sys') = new ∧
    map with_priority_of new = [("3", "high")].
Proof.
  destruct (reading_makes_alerts_for_its_triggers (H := plain)
              (H0 := SensorSystem.taxicab) idle "drone-1"
              SensorSystem.drone_1 (replicate 100 SensorSystem.old_point)
              SensorSystem.low_and_outside "2024-05-01T07:30:01.000Z" pretty
              (fun _ => 1) (fun _ => 2) eq_refl eq_refl)
    as (dp & sys' & new & Hrun & _ & Hal & Hmap & _).
  - reflexivity.
  - intros j j' Heq. now apply (inj pretty) in Heq.
  - exists dp, sys', new. split; [exact Hrun|]. split; [exact Hal|].
    rewrite Hmap. vm_compute. reflexivity.
Defined.

(** X22 on an instance: the order names the priority "immediate", which
    the alert keeps, at rank 3 and without a timeout. *)
Lemma escalated_order_becomes_alert_witness :
  let sys' := on_order_executed (H := plain) evacuate [] "a1" 1 2 3 idle in
  ∃ a, AlertSystem.get "a1" (alertSystem sys') = Some a ∧
       AlertSystem.priority a = "immediate" ∧
       AlertSystem.priorityLevel a = 3 ∧
       AlertSystem.requiresAck a = true ∧
       AlertSystem.armed "a1" (alertSystem sys') = None.
Proof.
  intros sys'.
  destruct (proj2 (escalated_order_becomes_alert (H := plain) evacuate []
                     "a1" 1 2 3 idle eq_refl) eq_refl)
    as (esc & a & _ & _ & _ & _ & Hlive & Hp & Hl & Hack & _ & _ & _ & _ & _ & Harmed).
  exists a. split; [exact Hlive|]. split; [exact Hp|].
  split; [rewrite Hl, Hp; reflexivity|]. split; [exact Hack|].
  etransitivity; [exact Harmed|]. rewrite Hp. reflexivity.
Defined.

End ServerFacts.

(** *** Operator profiles *)

Module OperatorManagerFacts.
Import JsString OperatorManager.

Lemma getOperator_unknown (operators : gmap string operator)
    (operatorId : option string) :
  truthy operatorId = false ∨ operators !! default "" operatorId = None →
  getOperator operators operatorId = getDefaultOperator.
Proof.
  unfold getOperator. intros [-> | Hnone]; [reflexivity|].
  destruct (truthy operatorId); [|reflexivity]. cbn [negb]. now rewrite Hnone.
Qed.

Lemma overnight_rule (prefs : notification_profile) (s e : Z) (h : nat) :
  window (if truthy (overnight_hours prefs)
          then default "" (overnight_hours prefs) else "2200-0600")
    = (Some s, Some e) →
  negb (isOvernight prefs h) = (e <=? Z.of_nat h) && (Z.of_nat h <? s).
Proof.
  intros Hw. unfold isOvernight. rewrite Hw. cbn [fst snd ge_js lt_js].
  destruct (Z.leb_spec s (Z.of_nat h)), (Z.ltb_spec (Z.of_nat h) e),
    (Z.leb_spec e (Z.of_nat h)), (Z.ltb_spec (Z.of_nat h) s);
    cbn; try reflexivity; lia.
Qed.

(** X23.  An operator id that is absent, empty or not among the loaded
    profiles gets the default profile: full access to every section,
    whatever its name; the language "en"; and the default notification
    rule: critical alerts at every hour, high and medium alerts only from
    06:00 to 21:59, low and info alerts never. *)
Theorem unknown_operator_gets_the_default_profile
    (operators : gmap string operator) (operatorId : option string) :
  truthy operatorId = false ∨ operators !! default "" operatorId = None →
  getOperator operators operatorId = getDefaultOperator ∧
  (∀ section, hasAccess operators operatorId section = true) ∧
  getLanguage operators operatorId = "en" ∧
  ∀ h,
    shouldNotify operators operatorId "critical" h = true ∧
    shouldNotify operators operatorId "high" h = (6 <=? h)%nat && (h <? 22)%nat ∧
    shouldNotify operators operatorId "medium" h = (6 <=? h)%nat && (h <? 22)%nat ∧
    shouldNotify operators operatorId "low" h = false ∧
    shouldNotify operators operatorId "info" h = false.
Proof.
  intros Hunknown. pose proof (getOperator_unknown _ _ Hunknown) as Hdef.
  split; [exact Hdef|]. unfold hasAccess, getLanguage, shouldNotify.
  rewrite Hdef. split; [reflexivity|]. split; [reflexivity|].
  intros h.
  assert (Hrule : negb (isOvernight
                          {| language := Some "en";
                             overnight_critical_only := true;
                             overnight_hours := Some "2200-0600";
                             receive_alerts :=
                               Some [("critical", true); ("high", true);
                                     ("medium", true); ("low", false)] |} h) =
                  (6 <=? h)%nat && (h <? 22)%nat).
  { rewrite (overnight_rule _ 22 6 h) by (vm_compute; reflexivity).
    destruct (Z.leb_spec 6 (Z.of_nat h)), (Z.ltb_spec (Z.of_nat h) 22),
      (Nat.leb_spec 6 h), (Nat.ltb_spec h 22); cbn; try reflexivity; lia. }
  cbn [getDefaultOperator notifications overnight_critical_only].
  repeat split.
  - change (receives _ "critical") with true. cbn [negb].
    rewrite (bool_decide_eq_true_2 ("critical" = "critical")) by reflexivity.
    cbn [negb]. now rewrite andb_false_r.
  - change (receives _ "high") with true. cbn [negb].
    rewrite (bool_decide_eq_false_2 ("high" = "critical")) by discriminate.
    cbn [negb]. rewrite andb_true_r, <- Hrule.
    now destruct (isOvernight _ h).
  - change (receives _ "medium") with true. cbn [negb].
    rewrite (bool_decide_eq_false_2 ("medium" = "critical")) by discriminate.
    cbn [negb]. rewrite andb_true_r, <- Hrule.
    now destruct (isOvernight _ h).
Qed.

(** X23 on an instance: no profile is loaded. *)
Lemma unknown_operator_gets_the_default_profile_witness :
  hasAccess ∅ (Some "intruder") "admin" = true ∧
  shouldNotify ∅ (Some "intruder") "high" 23 = false.
Proof.
  destruct (unknown_operator_gets_the_default_profile ∅ (Some "intruder")
              (or_intror (lookup_empty _))) as (_ & Haccess & _ & Hnotify).
  split; [apply Haccess|].
  destruct (Hnotify 23%nat) as (_ & -> & _). reflexivity.
Defined.

(** X24.  For a loaded operator with [overnight_critical_only] whose
    [overnight_hours] parse to the hours [s] and [e]: a critical alert is
    delivered at every hour (when the profile receives critical alerts); an
    alert of any other priority that the profile receives is delivered
    exactly at the hours [e <= h < s].  So when the quiet hours do not
    cross midnight ([s <= e]) no alert other than a critical one is ever
    delivered, at any hour. *)
Theorem quiet_hours_rule (operators : gmap string operator) (k : string)
    (op : operator) (prefs : notification_profile) (s e : Z) :
  k ≠ "" → operators !! k = Some op →
  notifications op = Some prefs →
  overnight_critical_only prefs = true →
  window (if truthy (overnight_hours prefs)
          then default "" (overnight_hours prefs) else "2200-0600")
    = (Some s, Some e) →
  (∀ h, shouldNotify operators (Some k) "critical" h =
        receives (Some prefs) "critical") ∧
  (∀ p h, p ≠ "critical" →
     shouldNotify operators (Some k) p h =
       receives (Some prefs) p && (e <=? Z.of_nat h) && (Z.of_nat h <? s)) ∧
  (s ≤ e → ∀ p h, p ≠ "critical" → shouldNotify operators (Some k) p h = false).
Proof.
  intros Hk Hop Hprefs Hquiet Hw.
  assert (Hget : getOperator operators (Some k) = op).
  { unfold getOperator. destruct k as [|c k]; [done|]. cbn. now rewrite Hop. }
  assert (Hother : ∀ p h, p ≠ "critical" →
            shouldNotify operators (Some k) p h =
              receives (Some prefs) p && (e <=? Z.of_nat h) && (Z.of_nat h <? s)).
  { intros p h Hp. unfold shouldNotify. rewrite Hget, Hprefs, Hquiet.
    rewrite (bool_decide_eq_false_2 (p = "critical")) by exact Hp.
    cbn [negb]. rewrite andb_true_r, <- andb_assoc, <- (overnight_rule prefs s e h Hw).
    destruct (receives (Some prefs) p), (isOvernight prefs h); reflexivity. }
  split; [|split; [exact Hother|]].
  - intros h. unfold shouldNotify. rewrite Hget, Hprefs, Hquiet.
    rewrite (bool_decide_eq_true_2 ("critical" = "critical")) by reflexivity.
    cbn [negb]. rewrite andb_false_r.
    now destruct (receives (Some prefs) "critical").
  - intros Hse p h Hp. rewrite Hother by exact Hp.
    destruct (receives (Some prefs) p); [|reflexivity]. cbn [andb].
    destruct (Z.leb_spec e (Z.of_nat h)), (Z.ltb_spec (Z.of_nat h) s);
      cbn; try reflexivity; lia.
Qed.

(** X24 on an instance: quiet hours from 09:00 to 17:00 silence the high
    alerts at noon and at midnight alike. *)
Lemma quiet_hours_rule_witness :
  shouldNotify {[ "night-shift" := day_sleeper ]} (Some "night-shift") "high" 12
    = false ∧
  shouldNotify {[ "night-shift" := day_sleeper ]} (Some "night-shift") "high" 0
    = false ∧
  shouldNotify {[ "night-shift" := day_sleeper ]} (Some "night-shift")
    "critical" 12 = true.
Proof.
  destruct (quiet_hours_rule {[ "night-shift" := day_sleeper ]} "night-shift"
              day_sleeper
              {| language := Some "ha"; overnight_critical_only := true;
                 overnight_hours := Some "0900-1700";
                 receive_alerts := Some [("critical", true); ("high", true)] |}
              9 17) as (Hcrit & _ & Hnever);
    [discriminate | apply lookup_singleton_eq | reflexivity | reflexivity
    | vm_compute; reflexivity |].
  split; [apply Hnever; [lia | discriminate]|].
  split; [apply Hnever; [lia | discriminate]|].
  rewrite Hcrit. reflexivity.
Defined.

End OperatorManagerFacts.
